(** * XShaderCompiler: the GLSL conversion pass (GLSLConverter.cpp)

    A shallow embedding of [Xsc::GLSLConverter], the visitor that rewrites a
    resolved HLSL syntax tree in place so that it only uses constructs the
    GLSL back end can emit, together with the properties of its rewriting
    rules.

    The C++ visitor mutates the tree through owning pointers.  Here every
    [Visit...] function returns the rewritten node, and the member variables
    of the converter object are threaded through a state-and-exception
    monad.  The state survives an exception, as the converter object does. *)

From Stdlib Require Import String Ascii List Bool Arith Lia.
Import ListNotations.

Local Open Scope string_scope.
Local Open Scope list_scope.

Set Warnings "-register-all".

(** ** Enumerations and type denoters *)

(** Source positions.  [SourceArea_ignore] is the area of the nodes that
    ASTFactory synthesises. *)
Definition SourceArea := nat.
Definition SourceArea_ignore : SourceArea := 0.

(** Modelled from the spec: the [DataType] enumeration (declared in
    ASTEnums.h).  The converter names the signed integer, the unsigned
    integer and the "standard floating-point type"; [Other] stands for
    every remaining enumerator (half, double, bool, the vector and matrix
    types, ...). *)
Module DataType.
Inductive t := Int | UInt | Float | Other (n : nat).

Definition eqb (a b : t) : bool :=
  match a, b with
  | Int, Int | UInt, UInt | Float, Float => true
  | Other n, Other m => Nat.eqb n m
  | _, _ => false
  end.
End DataType.

(** Modelled from the spec: the [Intrinsic] tag of a call (declared in
    ASTEnums.h), "an enumerated classification attached to function-call
    expressions (e.g. Saturate, SinCos, Undefined)".  [Other] stands for
    the remaining built-ins.  The combined sincos intrinsic is left out of
    the embedded fragment: [VisitExprStmnt] replaces such a call by the
    tree that ASTFactory::MakeSeparatedSinCosFunctionCalls builds and then
    traverses that tree, and GLSLConverter.cpp does not determine it.  A
    tree of this embedding therefore holds no sincos call, and on such a
    tree [VisitExprStmnt] is the default visitor. *)
Module Intrinsic.
Inductive t := Undefined | Saturate | Clamp | Other (n : nat).
End Intrinsic.

(** The shader target is an opaque selector, only handed on to
    [MustResolveStructForTarget]. *)
Definition ShaderTarget := nat.

(** A handle on a structure declaration, as held by a structure type
    denoter ([structDeclRef]). *)
Definition StructDeclRef := nat.

(** Modelled from the spec: type denoters (declared in TypeDenoter.h),
    "polymorphic over {BaseTypeDenoter, StructTypeDenoter,
    SamplerTypeDenoter, others}".  [Get] gives the resolved type denoter:
    it looks through the alias denoter.  The queries [IsBase], [IsSampler]
    and [As<...>()] look at the variant only. *)
Inductive TypeDenoter :=
| VoidTypeDenoter
| BaseTypeDenoter (dataType : DataType.t)
| TextureTypeDenoter
| SamplerTypeDenoter
| StructTypeDenoter (structDeclRef : StructDeclRef)
| AliasTypeDenoter (aliasTypeRef : TypeDenoter)
| ArrayTypeDenoter (baseTypeDenoter : TypeDenoter).

Module TD.
Fixpoint Get (t : TypeDenoter) : TypeDenoter :=
  match t with
  | AliasTypeDenoter a => Get a
  | _ => t
  end.

Definition IsBase (t : TypeDenoter) : bool :=
  match t with BaseTypeDenoter _ => true | _ => false end.

Definition IsSampler (t : TypeDenoter) : bool :=
  match t with SamplerTypeDenoter => true | _ => false end.

(** [As<BaseTypeDenoter>()] and [As<StructTypeDenoter>()]. *)
Definition AsBase (t : TypeDenoter) : option DataType.t :=
  match t with BaseTypeDenoter d => Some d | _ => None end.

Definition AsStruct (t : TypeDenoter) : option StructDeclRef :=
  match t with StructTypeDenoter s => Some s | _ => None end.
End TD.

(** ** Variable identifiers *)

(** What the converter reads through a pointer to a variable declaration
    that it does not own ([symbolRef], [varDeclRefsSV]): the identifier, the
    two flags, and the type denoter of the declaring statement
    ([declStmntRef->varType->typeDenoter]).  The flags and the declared type
    are never written by the pass; the identifier is only read through such
    a pointer in [RegisterReservedVarIdents], before any declaration is
    renamed.  A value snapshot taken at the start of the pass is therefore
    exact. *)
Record VarDeclRef := mkVarDeclRef {
  ref_ident : string;
  ref_isShaderInput : bool;
  ref_isSystemValue : bool;
  ref_declType : TypeDenoter
}.

(** [symbolRef] points to some declaration; [As<VarDecl>()] succeeds on a
    variable declaration only. *)
Inductive SymbolRef :=
| SymVarDecl (varDecl : VarDeclRef)
| SymOther.

Definition As_VarDecl (s : SymbolRef) : option VarDeclRef :=
  match s with SymVarDecl d => Some d | SymOther => None end.

(** A dotted access [a.b.c]: a chain of segments linked by [next]. *)
Inductive VarIdent :=
| mkVarIdent (ident : string) (symbolRef : option SymbolRef) (next : option VarIdent).

Definition vi_ident (v : VarIdent) : string :=
  match v with mkVarIdent i _ _ => i end.
Definition vi_symbolRef (v : VarIdent) : option SymbolRef :=
  match v with mkVarIdent _ s _ => s end.
Definition vi_next (v : VarIdent) : option VarIdent :=
  match v with mkVarIdent _ _ n => n end.
Definition vi_set_next (v : VarIdent) (n : option VarIdent) : VarIdent :=
  match v with mkVarIdent i s _ => mkVarIdent i s n end.

(** The chain as the list of its nodes, head first; each node is listed
    with the sub-chain that hangs from it. *)
Fixpoint chain (v : VarIdent) : list VarIdent :=
  match v with
  | mkVarIdent _ _ None => [v]
  | mkVarIdent _ _ (Some n) => v :: chain n
  end.

(** The segments of a chain without their links. *)
Definition segment := (string * option SymbolRef)%type.
Definition seg_of (v : VarIdent) : segment := (vi_ident v, vi_symbolRef v).
Definition segments (v : VarIdent) : list segment := map seg_of (chain v).

(** Modelled from the spec: [VarIdent::PopFront] (defined in AST.cpp).
    "Popping the front removes the current segment and promotes [next] to
    be the new head": the head node is owned by its parent, so the contents
    of the following node move into it.  A last segment has nothing to
    promote and stays. *)
Definition PopFront (v : VarIdent) : VarIdent :=
  match vi_next v with
  | Some n => n
  | None => v
  end.

(** ** The converter object and its monad *)

(** The member variables of the converter.  [structDeclLevel_] is a
    counter that starts at zero and is only moved by
    [PushStructDeclLevel] and [PopStructDeclLevel], in matched pairs;
    [reservedVarIdents_] is filled with [push_back] and searched with
    [std::find], so it is a sequence that may hold an identifier twice. *)
Record GLSLConverter := mkGLSLConverter {
  shaderTarget_ : ShaderTarget;
  nameManglingPrefix_ : string;
  isInsideEntryPoint_ : bool;
  reservedVarIdents_ : list string;
  structDeclLevel_ : nat
}.

Definition set_shaderTarget (t : ShaderTarget) (c : GLSLConverter) :=
  mkGLSLConverter t (nameManglingPrefix_ c) (isInsideEntryPoint_ c)
                  (reservedVarIdents_ c) (structDeclLevel_ c).
Definition set_nameManglingPrefix (p : string) (c : GLSLConverter) :=
  mkGLSLConverter (shaderTarget_ c) p (isInsideEntryPoint_ c)
                  (reservedVarIdents_ c) (structDeclLevel_ c).
Definition set_isInsideEntryPoint (b : bool) (c : GLSLConverter) :=
  mkGLSLConverter (shaderTarget_ c) (nameManglingPrefix_ c) b
                  (reservedVarIdents_ c) (structDeclLevel_ c).
Definition set_reservedVarIdents (l : list string) (c : GLSLConverter) :=
  mkGLSLConverter (shaderTarget_ c) (nameManglingPrefix_ c) (isInsideEntryPoint_ c)
                  l (structDeclLevel_ c).
Definition set_structDeclLevel (n : nat) (c : GLSLConverter) :=
  mkGLSLConverter (shaderTarget_ c) (nameManglingPrefix_ c) (isInsideEntryPoint_ c)
                  (reservedVarIdents_ c) n.

(** Modelled from the spec: the converter as it is constructed
    (GLSLConverter.h), the "Conversion Context created at pass invocation":
    not inside the entry point, at nesting level zero, with no reserved
    identifier.  Target and prefix are overwritten by [Convert] before they
    are read. *)
Definition newGLSLConverter : GLSLConverter :=
  mkGLSLConverter 0 "" false [] 0.

(** [RuntimeErr(msg, ast)] throws; the exception carries the message and the
    source area of the offending node. *)
Inductive Exception :=
| RuntimeError (msg : string) (area : SourceArea).

Inductive Outcome (A : Type) :=
| Returned (a : A) (this : GLSLConverter)
| Thrown (e : Exception) (this : GLSLConverter).
Arguments Returned {A} a this.
Arguments Thrown {A} e this.

Definition M (A : Type) := GLSLConverter -> Outcome A.

Definition ret {A} (a : A) : M A := fun c => Returned a c.
Definition bind {A B} (m : M A) (k : A -> M B) : M B :=
  fun c => match m c with
           | Returned a c' => k a c'
           | Thrown e c' => Thrown e c'
           end.
Definition gets {A} (f : GLSLConverter -> A) : M A := fun c => Returned (f c) c.
Definition modify (f : GLSLConverter -> GLSLConverter) : M unit :=
  fun c => Returned tt (f c).
Definition RuntimeErr {A} (msg : string) (area : SourceArea) : M A :=
  fun c => Thrown (RuntimeError msg area) c.

Notation "x <- m ;; k" := (bind m (fun x => k))
  (at level 61, m at next level, right associativity).
Notation "m ;;; k" := (bind m (fun _ => k))
  (at level 61, right associativity).

(** Visiting the elements of a container from left to right. *)
Definition mapM {A} (f : A -> M A) : list A -> M (list A) :=
  fix go (l : list A) : M (list A) :=
    match l with
    | [] => ret []
    | x :: r => x' <- f x ;; r' <- go r ;; ret (x' :: r')
    end.

Definition optM {A} (f : A -> M A) (o : option A) : M (option A) :=
  match o with
  | None => ret None
  | Some x => x' <- f x ;; ret (Some x')
  end.

Definition succeeded {A} (o : Outcome A) : bool :=
  match o with Returned _ _ => true | Thrown _ _ => false end.

Definition state_of {A} (o : Outcome A) : GLSLConverter :=
  match o with Returned _ c => c | Thrown _ c => c end.

(** ** System-value segments of a variable identifier *)

Definition HasVarDeclOfVarIdentSystemSemantic (varIdent : VarIdent) : bool :=
  match vi_symbolRef varIdent with
  | Some sym =>
      match As_VarDecl sym with
      | Some varDecl => ref_isSystemValue varDecl
      | None => false
      end
  | None => false
  end.

(** The outer loop of [MakeVarIdentWithSystemSemanticLocal]: [ast] walks the
    chain until a segment with a system-value declaration is met. *)
Fixpoint findSystemSemantic (ast : VarIdent) : bool :=
  if HasVarDeclOfVarIdentSystemSemantic ast then true
  else match ast with
       | mkVarIdent _ _ (Some n) => findSystemSemantic n
       | mkVarIdent _ _ None => false
       end.

(** The inner loop: [while (root && !Has...(root)) { root->PopFront();
    root = root->next.get(); }].  After [PopFront] the node [root] holds the
    contents of its former successor, so [root->next] is the node two links
    further in the original chain. *)
Fixpoint removeLeading (root : VarIdent) : VarIdent :=
  if HasVarDeclOfVarIdentSystemSemantic root then root
  else match root with
       | mkVarIdent _ _ None => root
       | mkVarIdent _ _ (Some (mkVarIdent i s nx)) =>
           mkVarIdent i s (match nx with
                           | Some r => Some (removeLeading r)
                           | None => None
                           end)
       end.

Definition MakeVarIdentWithSystemSemanticLocal (ast : VarIdent) : VarIdent :=
  if findSystemSemantic ast then removeLeading ast else ast.

(** ** Expressions *)

Definition BinaryOp := nat.
Definition UnaryOp := nat.
Definition AssignOp := nat.

Inductive Expr :=
| LiteralExpr (area : SourceArea) (dataType : DataType.t) (value : string)
| BinaryExpr (area : SourceArea) (lhsExpr : Expr) (op : BinaryOp) (rhsExpr : Expr)
| UnaryExpr (area : SourceArea) (op : UnaryOp) (expr : Expr)
| BracketExpr (area : SourceArea) (expr : Expr)
| CastExpr (area : SourceArea) (typeExpr : TypeDenoter) (expr : Expr)
| FunctionCallExpr (area : SourceArea) (call : FunctionCall)
| VarAccessExpr (area : SourceArea) (varIdent : VarIdent) (assignOp : AssignOp)
                (assignExpr : option Expr)
with FunctionCall :=
| mkFunctionCall (area : SourceArea) (name : string) (intrinsic : Intrinsic.t)
                 (arguments : list Expr).

Definition expr_area (e : Expr) : SourceArea :=
  match e with
  | LiteralExpr a _ _ | BinaryExpr a _ _ _ | UnaryExpr a _ _ | BracketExpr a _
  | CastExpr a _ _ | FunctionCallExpr a _ | VarAccessExpr a _ _ _ => a
  end.

Definition fc_area (c : FunctionCall) := match c with mkFunctionCall a _ _ _ => a end.
Definition fc_name (c : FunctionCall) := match c with mkFunctionCall _ n _ _ => n end.
Definition fc_intrinsic (c : FunctionCall) := match c with mkFunctionCall _ _ i _ => i end.
Definition fc_arguments (c : FunctionCall) := match c with mkFunctionCall _ _ _ l => l end.
Definition fc_set_intrinsic (c : FunctionCall) (i : Intrinsic.t) :=
  match c with mkFunctionCall a n _ l => mkFunctionCall a n i l end.
Definition fc_set_arguments (c : FunctionCall) (l : list Expr) :=
  match c with mkFunctionCall a n i _ => mkFunctionCall a n i l end.

(** [ast->expr->Type() == AST::Types::UnaryExpr]. *)
Definition IsUnaryExpr (e : Expr) : bool :=
  match e with UnaryExpr _ _ _ => true | _ => false end.

(** Modelled from the spec: the two cast builders of ASTFactory
    (ASTFactory.cpp).  [MakeBaseTypeCastExpr] makes "a new cast-wrapping
    expression node of the target base data type, preserving the original
    expression as its operand"; [MakeLiteralCastExpr] makes a literal of the
    given data type and spelling, cast to the given type denoter. *)
Definition MakeBaseTypeCastExpr (dataType : DataType.t) (valueExpr : Expr) : Expr :=
  CastExpr SourceArea_ignore (BaseTypeDenoter dataType) valueExpr.

Definition MakeLiteralCastExpr (typeDenoter : TypeDenoter) (literalType : DataType.t)
           (literalValue : string) : Expr :=
  CastExpr SourceArea_ignore typeDenoter
           (LiteralExpr SourceArea_ignore literalType literalValue).

(** Modelled from the spec: [EraseIf] (Helper.h) removes from a container
    every element the predicate holds for and keeps the others in their
    order. *)
Definition EraseIf {A} (pred : A -> bool) (l : list A) : list A :=
  filter (fun x => negb (pred x)) l.

(** [EraseIf] followed by the visit of what is left, as one loop. *)
Definition eraseThenVisit {A} (pred : A -> bool) (f : A -> M A) : list A -> M (list A) :=
  fix go (l : list A) : M (list A) :=
    match l with
    | [] => ret []
    | x :: r => if pred x then go r
                else x' <- f x ;; r' <- go r ;; ret (x' :: r')
    end.

(** ** Declarations and statements *)

(** [vd_declStmntRef] is the type denoter of the declaring statement, which
    the declaration reaches through its back pointer
    ([declStmntRef->varType->typeDenoter]). *)
Record VarDecl := mkVarDecl {
  vd_area : SourceArea;
  vd_ident : string;
  vd_isShaderInput : bool;
  vd_isSystemValue : bool;
  vd_declStmntRef : TypeDenoter;
  vd_arrayDims : list Expr;
  vd_initializer : option Expr
}.

Definition vd_set_ident (ast : VarDecl) (i : string) : VarDecl :=
  mkVarDecl (vd_area ast) i (vd_isShaderInput ast) (vd_isSystemValue ast)
            (vd_declStmntRef ast) (vd_arrayDims ast) (vd_initializer ast).
Definition vd_set_initializer (ast : VarDecl) (e : option Expr) : VarDecl :=
  mkVarDecl (vd_area ast) (vd_ident ast) (vd_isShaderInput ast) (vd_isSystemValue ast)
            (vd_declStmntRef ast) (vd_arrayDims ast) e.
Definition vd_set_arrayDims (ast : VarDecl) (l : list Expr) : VarDecl :=
  mkVarDecl (vd_area ast) (vd_ident ast) (vd_isShaderInput ast) (vd_isSystemValue ast)
            (vd_declStmntRef ast) l (vd_initializer ast).

(** A structure declaration owns its member declarations; a variable type
    may carry the declaration of an anonymous structure, so structure
    declarations nest. *)
Inductive StructDecl :=
| mkStructDecl (area : SourceArea) (name : string) (members : list VarDeclStmnt)
with VarDeclStmnt :=
| mkVarDeclStmnt (area : SourceArea) (varType : VarType) (varDecls : list VarDecl)
with VarType :=
| mkVarType (typeDenoter : TypeDenoter) (structDecl : option StructDecl).

Definition vt_typeDenoter (t : VarType) := match t with mkVarType td _ => td end.
Definition vds_area (s : VarDeclStmnt) := match s with mkVarDeclStmnt a _ _ => a end.
Definition vds_varType (s : VarDeclStmnt) := match s with mkVarDeclStmnt _ t _ => t end.
Definition vds_varDecls (s : VarDeclStmnt) := match s with mkVarDeclStmnt _ _ l => l end.

Inductive Stmnt :=
| NullStmnt (area : SourceArea)
| CodeBlockStmnt (area : SourceArea) (codeBlock : CodeBlock)
| ForLoopStmnt (area : SourceArea) (initSmnt : Stmnt) (condition : option Expr)
               (iteration : option Expr) (bodyStmnt : Stmnt)
| WhileLoopStmnt (area : SourceArea) (condition : Expr) (bodyStmnt : Stmnt)
| DoWhileLoopStmnt (area : SourceArea) (bodyStmnt : Stmnt) (condition : Expr)
| IfStmnt (area : SourceArea) (condition : Expr) (bodyStmnt : Stmnt)
          (elseStmnt : option ElseStmnt)
| ExprStmnt (area : SourceArea) (expr : Expr)
| ReturnStmnt (area : SourceArea) (expr : option Expr)
| LocalVarDeclStmnt (varDeclStmnt : VarDeclStmnt)
| StructDeclStmnt (area : SourceArea) (structDecl : StructDecl)
with ElseStmnt :=
| mkElseStmnt (area : SourceArea) (bodyStmnt : Stmnt)
with CodeBlock :=
| mkCodeBlock (area : SourceArea) (stmnts : list Stmnt).

Definition stmnt_area (s : Stmnt) : SourceArea :=
  match s with
  | NullStmnt a | CodeBlockStmnt a _ | ForLoopStmnt a _ _ _ _ | WhileLoopStmnt a _ _
  | DoWhileLoopStmnt a _ _ | IfStmnt a _ _ _ | ExprStmnt a _ | ReturnStmnt a _
  | StructDeclStmnt a _ => a
  | LocalVarDeclStmnt d => vds_area d
  end.

(** [bodyStmnt->As<ReturnStmnt>()] succeeds. *)
Definition IsReturnStmnt (s : Stmnt) : bool :=
  match s with ReturnStmnt _ _ => true | _ => false end.

Record FunctionDecl := mkFunctionDecl {
  fd_area : SourceArea;
  fd_isReachable : bool;
  fd_isEntryPoint : bool;
  fd_returnType : VarType;
  fd_ident : string;
  fd_parameters : list VarDeclStmnt;
  fd_codeBlock : option CodeBlock
}.

Definition fd_set_parameters (ast : FunctionDecl) (l : list VarDeclStmnt) :=
  mkFunctionDecl (fd_area ast) (fd_isReachable ast) (fd_isEntryPoint ast)
                 (fd_returnType ast) (fd_ident ast) l (fd_codeBlock ast).

(** The statements of the global scope. *)
Inductive GlobalStmnt :=
| FunctionDeclStmnt (functionDecl : FunctionDecl)
| OtherGlobalStmnt (stmnt : Stmnt).

(** The semantics of the entry point: [entryPointRef->inputSemantics] and
    [entryPointRef->outputSemantics], each with its [varDeclRefsSV]. *)
Record ParameterSemantics := mkParameterSemantics {
  varDeclRefsSV : list VarDeclRef
}.

Record EntryPointRef := mkEntryPointRef {
  inputSemantics : ParameterSemantics;
  outputSemantics : ParameterSemantics
}.

Record Program := mkProgram {
  globalStmnts : list GlobalStmnt;
  entryPointRef : EntryPointRef
}.

(** ** std::string *)

Definition empty (s : string) : bool :=
  match s with EmptyString => true | String _ _ => false end.

Fixpoint back (s : string) : option ascii :=
  match s with
  | EmptyString => None
  | String c EmptyString => Some c
  | String _ r => back r
  end.

(** [s.back() = c] *)
Fixpoint set_back (c : ascii) (s : string) : string :=
  match s with
  | EmptyString => EmptyString
  | String _ EmptyString => String c EmptyString
  | String a r => String a (set_back c r)
  end.

(** ** The cast policy *)

Definition MustCastExprToDataType (targetTypeDen sourceTypeDen : TypeDenoter)
  : option DataType.t :=
  match TD.AsBase targetTypeDen with
  | Some targetDataType =>
      match TD.AsBase sourceTypeDen with
      | Some sourceDataType =>
          if DataType.eqb targetDataType DataType.UInt then
            if DataType.eqb sourceDataType DataType.Int
            then Some DataType.UInt else None
          else if DataType.eqb targetDataType DataType.Int then
            if DataType.eqb sourceDataType DataType.UInt
            then Some DataType.Int else None
          else None
      | None => None
      end
  | None => None
  end.

Section Converter.

(** [MustResolveStructForTarget] is declared in GLSLHelper.h; the converter
    uses it as a pure predicate on the target and the structure. *)
Variable MustResolveStructForTarget : ShaderTarget -> StructDeclRef -> bool.

(** [expr->GetTypeDenoter()] (AST.h): the type denoter of an expression,
    a function of the node as it stands when it is asked.  The converter
    only reads it. *)
Variable GetTypeDenoter : Expr -> TypeDenoter.

(** [ast->GetTypeDenoter()] on a variable declaration. *)
Variable VarDecl_GetTypeDenoter : VarDecl -> TypeDenoter.

Definition MustResolveStruct (this : GLSLConverter) (ast : StructDeclRef) : bool :=
  MustResolveStructForTarget (shaderTarget_ this) ast.

Definition ExprContainsSampler (ast : Expr) : bool :=
  TD.IsSampler (TD.Get (GetTypeDenoter ast)).

Definition ConvertExprIfCastRequired (expr : Expr) (targetTypeDen : TypeDenoter) : Expr :=
  match MustCastExprToDataType targetTypeDen (TD.Get (GetTypeDenoter expr)) with
  | Some dataType => MakeBaseTypeCastExpr dataType expr
  | None => expr
  end.

Definition VisitVarIdent (ast : VarIdent) : M VarIdent :=
  fun this =>
  match vi_next ast, vi_symbolRef ast with
  | Some _, Some sym =>
      match As_VarDecl sym with
      | Some varDecl =>
          match TD.AsStruct (ref_declType varDecl) with
          | Some structDeclRef =>
              if MustResolveStruct this structDeclRef
              then Returned (PopFront ast) this
              else Returned (MakeVarIdentWithSystemSemanticLocal ast) this
          | None => Returned ast this
          end
      | None => Returned ast this
      end
  | _, _ => Returned ast this
  end.

(** The rewriting done by [VisitLiteralExpr]; the default visitor has
    nothing to do on a literal. *)
Definition VisitLiteralExpr (area : SourceArea) (dataType : DataType.t) (value : string)
  : Expr :=
  if negb (empty value) then
    match back value with
    | Some ch =>
        if (Ascii.eqb ch "h" || Ascii.eqb ch "H")%bool
        then LiteralExpr area DataType.Float (set_back "f" value)
        else LiteralExpr area dataType value
    | None => LiteralExpr area dataType value
    end
  else LiteralExpr area dataType value.

(** The traversal of expressions.  Where the C++ code first puts a new node
    around a child and then lets the default visitor descend through it
    (the bracket of [VisitUnaryExpr], the literals of the saturate rule),
    the recursion below visits the child and builds the new node around
    the result; the lemmas [..._unfold] further down give each case back
    in the order of the C++ text. *)
Fixpoint VisitExpr (e : Expr) : M Expr :=
  match e with
  | LiteralExpr a dt v => ret (VisitLiteralExpr a dt v)
  | BinaryExpr a l op r =>
      l' <- VisitExpr l ;;
      r' <- VisitExpr r ;;
      ret (BinaryExpr a l' op (ConvertExprIfCastRequired r' (TD.Get (GetTypeDenoter l'))))
  | UnaryExpr a op x =>
      x' <- VisitExpr x ;;
      ret (UnaryExpr a op (if IsUnaryExpr x then BracketExpr a x' else x'))
  | BracketExpr a x =>
      x' <- VisitExpr x ;; ret (BracketExpr a x')
  | CastExpr a t x =>
      x' <- VisitExpr x ;; ret (CastExpr a t x')
  | FunctionCallExpr a call =>
      call' <- VisitFunctionCall call ;; ret (FunctionCallExpr a call')
  | VarAccessExpr a vi op ae =>
      vi' <- VisitVarIdent vi ;;
      ae' <- match ae with
             | Some x => x' <- VisitExpr x ;; ret (Some x')
             | None => ret None
             end ;;
      match ae' with
      | Some x' =>
          ret (VarAccessExpr a vi' op
                 (Some (ConvertExprIfCastRequired x'
                          (TD.Get (GetTypeDenoter (VarAccessExpr a vi' op ae'))))))
      | None => ret (VarAccessExpr a vi' op None)
      end
  end
with VisitFunctionCall (ast : FunctionCall) : M FunctionCall :=
  match ast with
  | mkFunctionCall a name intr args =>
      match intr with
      | Intrinsic.Saturate =>
          match args with
          | [x] =>
              let argTypeDen := TD.Get (GetTypeDenoter x) in
              if TD.IsBase argTypeDen then
                x' <- VisitExpr x ;;
                ret (mkFunctionCall a name Intrinsic.Clamp
                       [x'; MakeLiteralCastExpr argTypeDen DataType.Int "0";
                            MakeLiteralCastExpr argTypeDen DataType.Int "1"])
              else
                RuntimeErr "invalid argument type denoter in intrinsic 'saturate'"
                           (expr_area x)
          | _ => RuntimeErr "invalid number of arguments in intrinsic 'saturate'" a
          end
      | Intrinsic.Undefined =>
          args' <- eraseThenVisit ExprContainsSampler VisitExpr args ;;
          ret (mkFunctionCall a name intr args')
      | _ =>
          args' <- mapM VisitExpr args ;;
          ret (mkFunctionCall a name intr args')
      end
  end.

(** *** Helper functions for conversion *)

Definition PushStructDeclLevel : M unit :=
  modify (fun this => set_structDeclLevel (S (structDeclLevel_ this)) this).

Definition PopStructDeclLevel : M unit :=
  modify (fun this => set_structDeclLevel (Nat.pred (structDeclLevel_ this)) this).

Definition IsInsideStructDecl (this : GLSLConverter) : bool :=
  (0 <? structDeclLevel_ this)%nat.

Definition VarTypeIsSampler (ast : VarType) : bool :=
  TD.IsSampler (vt_typeDenoter ast).

(** [std::find(begin, end, ident) != end] *)
Definition find_ne_end (l : list string) (ident : string) : bool :=
  existsb (String.eqb ident) l.

Definition MustRenameVarDecl (this : GLSLConverter) (ast : VarDecl) : bool :=
  negb (IsInsideStructDecl this) &&
  negb (vd_isShaderInput ast) &&
  find_ne_end (reservedVarIdents_ this) (vd_ident ast).

Definition RenameVarDecl (ast : VarDecl) : M VarDecl :=
  prefix <- gets nameManglingPrefix_ ;;
  ret (vd_set_ident ast (prefix ++ vd_ident ast)%string).

Definition MakeCodeBlockInEntryPointReturnStmnt (bodyStmnt : Stmnt) : M Stmnt :=
  inside <- gets isInsideEntryPoint_ ;;
  if inside then
    if IsReturnStmnt bodyStmnt then
      ret (CodeBlockStmnt (stmnt_area bodyStmnt)
             (mkCodeBlock (stmnt_area bodyStmnt) [bodyStmnt]))
    else ret bodyStmnt
  else ret bodyStmnt.

Definition RegisterReservedVarIdents (varDecls : list VarDeclRef) : M unit :=
  modify (fun this =>
    set_reservedVarIdents
      (fold_left (fun l varDecl => l ++ [ref_ident varDecl]) varDecls
                 (reservedVarIdents_ this))
      this).

(** *** Declarations *)

(** Modelled from the spec: [Visitor::VisitVarDecl], the default traversal
    (Visitor.cpp), "recurses into children unchanged", from left to
    right. *)
Definition Visitor_VisitVarDecl (ast : VarDecl) : M VarDecl :=
  dims <- mapM VisitExpr (vd_arrayDims ast) ;;
  init <- optM VisitExpr (vd_initializer ast) ;;
  ret (vd_set_initializer (vd_set_arrayDims ast dims) init).

Definition VisitVarDecl (ast : VarDecl) : M VarDecl :=
  must <- gets (fun this => MustRenameVarDecl this ast) ;;
  ast <- (if must then RenameVarDecl ast else ret ast) ;;
  let ast :=
    match vd_initializer ast with
    | Some init =>
        vd_set_initializer ast
          (Some (ConvertExprIfCastRequired init (TD.Get (VarDecl_GetTypeDenoter ast))))
    | None => ast
    end in
  Visitor_VisitVarDecl ast.

(** [VisitStructDecl] is the converter's own.  The declaration statement
    and the variable type have no visitor in the converter; theirs is the
    default one, modelled from the spec ("recurses into children
    unchanged"): the type with the structure it may declare, then the
    declared variables. *)
Fixpoint VisitStructDecl (ast : StructDecl) : M StructDecl :=
  match ast with
  | mkStructDecl a name members =>
      PushStructDeclLevel ;;;
      members' <- mapM VisitVarDeclStmnt members ;;
      PopStructDeclLevel ;;;
      ret (mkStructDecl a name members')
  end
with VisitVarDeclStmnt (ast : VarDeclStmnt) : M VarDeclStmnt :=
  match ast with
  | mkVarDeclStmnt a varType varDecls =>
      varType' <- VisitVarType varType ;;
      varDecls' <- mapM VisitVarDecl varDecls ;;
      ret (mkVarDeclStmnt a varType' varDecls')
  end
with VisitVarType (ast : VarType) : M VarType :=
  match ast with
  | mkVarType td sd =>
      sd' <- match sd with
             | Some s => s' <- VisitStructDecl s ;; ret (Some s')
             | None => ret None
             end ;;
      ret (mkVarType td sd')
  end.

(** *** Statements *)

(** The body slot after [MakeCodeBlockInEntryPointReturnStmnt] and the
    default traversal: the code block made around a return statement is
    traversed down to that statement, so the visited statement ends up
    inside the block. *)
Definition bodyAfterVisit (inside : bool) (bodyStmnt visited : Stmnt) : Stmnt :=
  if (inside && IsReturnStmnt bodyStmnt)%bool
  then CodeBlockStmnt (stmnt_area bodyStmnt) (mkCodeBlock (stmnt_area bodyStmnt) [visited])
  else visited.

(** The traversal of statements.  The loops, the if and the else statement
    have a visitor in the converter; it reads [isInsideEntryPoint_] before
    anything else is visited.  The other statements get the default
    visitor, modelled from the spec: it descends into the children from
    left to right. *)
Fixpoint VisitStmnt (ast : Stmnt) : M Stmnt :=
  match ast with
  | NullStmnt a => ret (NullStmnt a)
  | CodeBlockStmnt a cb =>
      cb' <- VisitCodeBlock cb ;; ret (CodeBlockStmnt a cb')
  | ForLoopStmnt a init cond iter body =>
      inside <- gets isInsideEntryPoint_ ;;
      init' <- VisitStmnt init ;;
      cond' <- optM VisitExpr cond ;;
      iter' <- optM VisitExpr iter ;;
      body' <- VisitStmnt body ;;
      ret (ForLoopStmnt a init' cond' iter' (bodyAfterVisit inside body body'))
  | WhileLoopStmnt a cond body =>
      inside <- gets isInsideEntryPoint_ ;;
      cond' <- VisitExpr cond ;;
      body' <- VisitStmnt body ;;
      ret (WhileLoopStmnt a cond' (bodyAfterVisit inside body body'))
  | DoWhileLoopStmnt a body cond =>
      inside <- gets isInsideEntryPoint_ ;;
      body' <- VisitStmnt body ;;
      cond' <- VisitExpr cond ;;
      ret (DoWhileLoopStmnt a (bodyAfterVisit inside body body') cond')
  | IfStmnt a cond body els =>
      inside <- gets isInsideEntryPoint_ ;;
      cond' <- VisitExpr cond ;;
      body' <- VisitStmnt body ;;
      els' <- match els with
              | Some e => e' <- VisitElseStmnt e ;; ret (Some e')
              | None => ret None
              end ;;
      ret (IfStmnt a cond' (bodyAfterVisit inside body body') els')
  | ExprStmnt a e =>
      (* no sincos call in the embedded trees: the default visitor *)
      e' <- VisitExpr e ;; ret (ExprStmnt a e')
  | ReturnStmnt a e =>
      e' <- optM VisitExpr e ;; ret (ReturnStmnt a e')
  | LocalVarDeclStmnt d =>
      d' <- VisitVarDeclStmnt d ;; ret (LocalVarDeclStmnt d')
  | StructDeclStmnt a sd =>
      sd' <- VisitStructDecl sd ;; ret (StructDeclStmnt a sd')
  end
with VisitElseStmnt (ast : ElseStmnt) : M ElseStmnt :=
  match ast with
  | mkElseStmnt a body =>
      inside <- gets isInsideEntryPoint_ ;;
      body' <- VisitStmnt body ;;
      ret (mkElseStmnt a (bodyAfterVisit inside body body'))
  end
with VisitCodeBlock (ast : CodeBlock) : M CodeBlock :=
  match ast with
  | mkCodeBlock a stmnts =>
      stmnts' <- mapM VisitStmnt stmnts ;; ret (mkCodeBlock a stmnts')
  end.

(** *** Functions and the program *)

(** Modelled from the spec: [Visitor::VisitFunctionDecl] descends into the
    return type, the parameters and the body. *)
Definition Visitor_VisitFunctionDecl (ast : FunctionDecl) : M FunctionDecl :=
  returnType <- VisitVarType (fd_returnType ast) ;;
  parameters <- mapM VisitVarDeclStmnt (fd_parameters ast) ;;
  codeBlock <- optM VisitCodeBlock (fd_codeBlock ast) ;;
  ret (mkFunctionDecl (fd_area ast) (fd_isReachable ast) (fd_isEntryPoint ast)
                      returnType (fd_ident ast) parameters codeBlock).

Definition VisitFunctionDecl (ast : FunctionDecl) : M FunctionDecl :=
  if negb (fd_isReachable ast) then ret ast
  else
    let ast := fd_set_parameters ast
                 (EraseIf (fun varDeclStmnt => VarTypeIsSampler (vds_varType varDeclStmnt))
                          (fd_parameters ast)) in
    if fd_isEntryPoint ast then
      modify (set_isInsideEntryPoint true) ;;;
      ast' <- Visitor_VisitFunctionDecl ast ;;
      modify (set_isInsideEntryPoint false) ;;;
      ret ast'
    else
      Visitor_VisitFunctionDecl ast.

Definition VisitGlobalStmnt (ast : GlobalStmnt) : M GlobalStmnt :=
  match ast with
  | FunctionDeclStmnt f => f' <- VisitFunctionDecl f ;; ret (FunctionDeclStmnt f')
  | OtherGlobalStmnt s => s' <- VisitStmnt s ;; ret (OtherGlobalStmnt s')
  end.

(** Modelled from the spec: [Visitor::VisitProgram] descends into the global
    statements. *)
Definition Visitor_VisitProgram (ast : Program) : M Program :=
  stmnts <- mapM VisitGlobalStmnt (globalStmnts ast) ;;
  ret (mkProgram stmnts (entryPointRef ast)).

Definition VisitProgram (ast : Program) : M Program :=
  RegisterReservedVarIdents (varDeclRefsSV (inputSemantics (entryPointRef ast))) ;;;
  RegisterReservedVarIdents (varDeclRefsSV (outputSemantics (entryPointRef ast))) ;;;
  Visitor_VisitProgram ast.

Definition Convert (program : Program) (shaderTarget : ShaderTarget)
           (nameManglingPrefix : string) : M Program :=
  modify (set_shaderTarget shaderTarget) ;;;
  modify (set_nameManglingPrefix nameManglingPrefix) ;;;
  VisitProgram program.

(** *** The rules in the order of the C++ text

    Each overridden [Visit...] function rewrites its node and then calls the
    default visitor of the base class, which descends into the children
    with the overridden functions.  The definitions below are these two
    halves, written over the finished traversal; the [..._unfold] lemmas
    show that the traversal above computes their composition. *)

(** Modelled from the spec: [Visitor::VisitFunctionCall] descends into the
    arguments ("recurse into remaining arguments after these rewrites"). *)
Definition Visitor_VisitFunctionCall (ast : FunctionCall) : M FunctionCall :=
  arguments <- mapM VisitExpr (fc_arguments ast) ;;
  ret (fc_set_arguments ast arguments).

(** [VisitFunctionCall] up to the call of the default visitor. *)
Definition FunctionCall_rule (ast : FunctionCall) : M FunctionCall :=
  match fc_intrinsic ast with
  | Intrinsic.Saturate =>
      if Nat.eqb (length (fc_arguments ast)) 1 then
        match fc_arguments ast with
        | front :: _ =>
            let argTypeDen := TD.Get (GetTypeDenoter front) in
            if TD.IsBase argTypeDen then
              ret (fc_set_arguments (fc_set_intrinsic ast Intrinsic.Clamp)
                     (fc_arguments ast ++
                        [MakeLiteralCastExpr argTypeDen DataType.Int "0";
                         MakeLiteralCastExpr argTypeDen DataType.Int "1"]))
            else
              RuntimeErr "invalid argument type denoter in intrinsic 'saturate'"
                         (expr_area front)
        | [] => ret ast
        end
      else
        RuntimeErr "invalid number of arguments in intrinsic 'saturate'" (fc_area ast)
  | Intrinsic.Undefined =>
      ret (fc_set_arguments ast (EraseIf ExprContainsSampler (fc_arguments ast)))
  | _ => ret ast
  end.

(** Modelled from the spec: [Visitor::VisitUnaryExpr] descends into the
    operand. *)
Definition Visitor_VisitUnaryExpr (a : SourceArea) (op : UnaryOp) (expr : Expr) : M Expr :=
  expr' <- VisitExpr expr ;; ret (UnaryExpr a op expr').

(** [VisitUnaryExpr] up to the call of the default visitor. *)
Definition UnaryExpr_rule (a : SourceArea) (expr : Expr) : Expr :=
  if IsUnaryExpr expr then BracketExpr a expr else expr.

(** Modelled from the spec: the default visitors of the statements with a
    body descend into their children from left to right. *)
Definition Visitor_VisitForLoopStmnt (a : SourceArea) (initSmnt : Stmnt)
           (condition iteration : option Expr) (bodyStmnt : Stmnt) : M Stmnt :=
  initSmnt' <- VisitStmnt initSmnt ;;
  condition' <- optM VisitExpr condition ;;
  iteration' <- optM VisitExpr iteration ;;
  bodyStmnt' <- VisitStmnt bodyStmnt ;;
  ret (ForLoopStmnt a initSmnt' condition' iteration' bodyStmnt').

Definition Visitor_VisitWhileLoopStmnt (a : SourceArea) (condition : Expr)
           (bodyStmnt : Stmnt) : M Stmnt :=
  condition' <- VisitExpr condition ;;
  bodyStmnt' <- VisitStmnt bodyStmnt ;;
  ret (WhileLoopStmnt a condition' bodyStmnt').

Definition Visitor_VisitDoWhileLoopStmnt (a : SourceArea) (bodyStmnt : Stmnt)
           (condition : Expr) : M Stmnt :=
  bodyStmnt' <- VisitStmnt bodyStmnt ;;
  condition' <- VisitExpr condition ;;
  ret (DoWhileLoopStmnt a bodyStmnt' condition').

Definition Visitor_VisitIfStmnt (a : SourceArea) (condition : Expr) (bodyStmnt : Stmnt)
           (elseStmnt : option ElseStmnt) : M Stmnt :=
  condition' <- VisitExpr condition ;;
  bodyStmnt' <- VisitStmnt bodyStmnt ;;
  elseStmnt' <- optM VisitElseStmnt elseStmnt ;;
  ret (IfStmnt a condition' bodyStmnt' elseStmnt').

Definition Visitor_VisitElseStmnt (a : SourceArea) (bodyStmnt : Stmnt) : M ElseStmnt :=
  bodyStmnt' <- VisitStmnt bodyStmnt ;;
  ret (mkElseStmnt a bodyStmnt').

(** The five overridden statement visitors. *)
Definition VisitForLoopStmnt (a : SourceArea) (initSmnt : Stmnt)
           (condition iteration : option Expr) (bodyStmnt : Stmnt) : M Stmnt :=
  bodyStmnt <- MakeCodeBlockInEntryPointReturnStmnt bodyStmnt ;;
  Visitor_VisitForLoopStmnt a initSmnt condition iteration bodyStmnt.

Definition VisitWhileLoopStmnt (a : SourceArea) (condition : Expr) (bodyStmnt : Stmnt)
  : M Stmnt :=
  bodyStmnt <- MakeCodeBlockInEntryPointReturnStmnt bodyStmnt ;;
  Visitor_VisitWhileLoopStmnt a condition bodyStmnt.

Definition VisitDoWhileLoopStmnt (a : SourceArea) (bodyStmnt : Stmnt) (condition : Expr)
  : M Stmnt :=
  bodyStmnt <- MakeCodeBlockInEntryPointReturnStmnt bodyStmnt ;;
  Visitor_VisitDoWhileLoopStmnt a bodyStmnt condition.

Definition VisitIfStmnt (a : SourceArea) (condition : Expr) (bodyStmnt : Stmnt)
           (elseStmnt : option ElseStmnt) : M Stmnt :=
  bodyStmnt <- MakeCodeBlockInEntryPointReturnStmnt bodyStmnt ;;
  Visitor_VisitIfStmnt a condition bodyStmnt elseStmnt.

Definition VisitElseStmnt_rule (a : SourceArea) (bodyStmnt : Stmnt) : M ElseStmnt :=
  bodyStmnt <- MakeCodeBlockInEntryPointReturnStmnt bodyStmnt ;;
  Visitor_VisitElseStmnt a bodyStmnt.

End Converter.

(** ** The rule for variable identifiers, in the words of the specification *)

(** The position of the first segment whose declaration carries the
    system-value flag. *)
Fixpoint firstSystemValue (v : VarIdent) : option nat :=
  if HasVarDeclOfVarIdentSystemSemantic v then Some 0
  else match v with
       | mkVarIdent _ _ (Some n) => option_map S (firstSystemValue n)
       | mkVarIdent _ _ None => None
       end.

(** "If found, pop every leading segment up to and including that one. If
    no such segment exists, leave the chain untouched." *)
Definition popUpToAndIncluding (v : VarIdent) : VarIdent :=
  match firstSystemValue v with
  | Some k => Nat.iter (S k) PopFront v
  | None => v
  end.

(** The same sentence read on the list of segments: the segments that are
    left after the first system-value segment and everything before it are
    dropped. *)
Definition segmentsAfterFirstSystemValue (v : VarIdent) : list segment :=
  match firstSystemValue v with
  | Some k => skipn (S k) (segments v)
  | None => segments v
  end.

(** The situation the rule applies in: a following segment, and a symbol
    reference to a variable of a structure type that need not be
    resolved. *)
Definition refersToKeptStruct (mustResolve : StructDeclRef -> bool) (v : VarIdent) : bool :=
  match vi_next v, vi_symbolRef v with
  | Some _, Some (SymVarDecl d) =>
      match ref_declType d with
      | StructTypeDenoter sd => negb (mustResolve sd)
      | _ => false
      end
  | _, _ => false
  end.

(** The rule as the specification words it, on one converter and one
    chain: where the rule applies, the visit returns the chain popped up to
    and including the first system-value segment, or the chain itself when
    there is none. *)
Definition popsThroughSystemValue
           (MustResolveStructForTarget : ShaderTarget -> StructDeclRef -> bool)
           (this : GLSLConverter) (ast : VarIdent) : Prop :=
  refersToKeptStruct (MustResolveStructForTarget (shaderTarget_ this)) ast = true ->
  VisitVarIdent MustResolveStructForTarget ast this
    = Returned (popUpToAndIncluding ast) this.

(** ** The cast policy, in the words of the specification *)

(** "Both the source and target resolved type denoters are base types, and
    either (target is unsigned-integer and source is signed-integer) or
    (target is signed-integer and source is unsigned-integer)." *)
Definition castRequired (target source : TypeDenoter) : bool :=
  match target, source with
  | BaseTypeDenoter t, BaseTypeDenoter s =>
      (DataType.eqb t DataType.UInt && DataType.eqb s DataType.Int) ||
      (DataType.eqb t DataType.Int && DataType.eqb s DataType.UInt)
  | _, _ => false
  end.

(** "When required, the source expression node is replaced by a new
    cast-wrapping expression node of the target base data type, preserving
    the original expression as its operand"; otherwise it is left as it
    is. *)
Definition castIfRequired (GetTypeDenoter : Expr -> TypeDenoter)
           (target : TypeDenoter) (source : Expr) : Expr :=
  if castRequired target (TD.Get (GetTypeDenoter source))
  then CastExpr SourceArea_ignore target source
  else source.

(** ** The saturate rule and the removal of samplers, in the words of the
    specification *)

(** "The call has exactly one argument and that argument's resolved type
    denoter is a base type." *)
Definition saturateArgumentsValid (GetTypeDenoter : Expr -> TypeDenoter)
           (args : list Expr) : bool :=
  match args with
  | [x] => TD.IsBase (TD.Get (GetTypeDenoter x))
  | _ => false
  end.

(** The invalid-intrinsic error: one of the two errors of the saturate
    rule, at some source area. *)
Definition invalidIntrinsic (e : Exception) : Prop :=
  exists area,
    e = RuntimeError "invalid number of arguments in intrinsic 'saturate'" area \/
    e = RuntimeError "invalid argument type denoter in intrinsic 'saturate'" area.

(** "Each argument whose resolved type denoter is a sampler type": the
    type denoter of the argument, resolved with [Get], is the sampler
    denoter. *)
Definition argumentIsSampler (GetTypeDenoter : Expr -> TypeDenoter) (x : Expr) : bool :=
  match TD.Get (GetTypeDenoter x) with
  | SamplerTypeDenoter => true
  | _ => false
  end.

(** "Each parameter whose declared type is a sampler type": the type
    denoter that the declaration of the parameter holds, taken as it is
    written there and not resolved, is the sampler denoter. *)
Definition parameterIsSampler (p : VarDeclStmnt) : bool :=
  match vt_typeDenoter (vds_varType p) with
  | SamplerTypeDenoter => true
  | _ => false
  end.

(** "The remaining non-sampler entries keep their original relative
    order": the list with its sampler entries taken out and every other
    entry left where it stands. *)
Fixpoint withoutSamplers {A : Type} (isSampler : A -> bool) (l : list A) : list A :=
  match l with
  | [] => []
  | x :: r =>
      if isSampler x then withoutSamplers isSampler r
      else x :: withoutSamplers isSampler r
  end.

(** [l1] is [l2] with some elements taken out: what is left keeps its
    order. *)
Inductive Subsequence {A : Type} : list A -> list A -> Prop :=
| Subsequence_nil : Subsequence [] []
| Subsequence_skip (x : A) (l1 l2 : list A) :
    Subsequence l1 l2 -> Subsequence l1 (x :: l2)
| Subsequence_keep (x : A) (l1 l2 : list A) :
    Subsequence l1 l2 -> Subsequence (x :: l1) (x :: l2).

(** The body slot of the statements with a body. *)
Definition bodySlot (s : Stmnt) : option Stmnt :=
  match s with
  | ForLoopStmnt _ _ _ _ b | WhileLoopStmnt _ _ b | DoWhileLoopStmnt _ b _
  | IfStmnt _ _ b _ => Some b
  | _ => None
  end.

Definition es_bodyStmnt (e : ElseStmnt) : Stmnt :=
  match e with mkElseStmnt _ b => b end.

(** "A block statement containing exactly that return statement as its
    only statement." *)
Definition blockOf (s : Stmnt) : Stmnt :=
  CodeBlockStmnt (stmnt_area s) (mkCodeBlock (stmnt_area s) [s]).

(** ** The conversion context, in the words of the specification *)

Definition returned {A} (o : Outcome A) : option A :=
  match o with Returned a _ => Some a | Thrown _ _ => None end.

(** The identifiers that [VisitProgram] registers for a program. *)
Definition semanticIdents (ast : Program) : list string :=
  map ref_ident (varDeclRefsSV (inputSemantics (entryPointRef ast))) ++
  map ref_ident (varDeclRefsSV (outputSemantics (entryPointRef ast))).

(** The settings of a pass: the target, the prefix and the reserved
    identifiers. *)
Definition settings (c : GLSLConverter) : ShaderTarget * string * list string :=
  (shaderTarget_ c, nameManglingPrefix_ c, reservedVarIdents_ c).

(** A computation keeps the settings, whether it returns or throws. *)
Definition keeps {A} (m : M A) : Prop :=
  forall c, settings (state_of (m c)) = settings c.

(** "Every invocation of Convert begins from a fresh conversion context:
    reservedVarIdents is empty at the start of each Convert call, so no
    context state from a previous Convert call on the same converter
    influences a later one": after [earlier] has been converted, the
    converter holds no reserved identifier, and it converts [later] to the
    tree that a new converter gives. *)
Definition freshContextEachCall
           (MustResolveStructForTarget : ShaderTarget -> StructDeclRef -> bool)
           (GetTypeDenoter : Expr -> TypeDenoter)
           (VarDecl_GetTypeDenoter : VarDecl -> TypeDenoter)
           (earlier later : Program) (shaderTarget : ShaderTarget) (prefix : string) : Prop :=
  let convert :=
    Convert MustResolveStructForTarget GetTypeDenoter VarDecl_GetTypeDenoter in
  let used := state_of (convert earlier shaderTarget prefix newGLSLConverter) in
  reservedVarIdents_ used = [] /\
  returned (convert later shaderTarget prefix used)
    = returned (convert later shaderTarget prefix newGLSLConverter).

(** ** Notions for the invariants of the traversal *)

(** What an exception may leave behind in the converter of a statement
    visit: the settings and the entry-point flag as they were, the
    structure nesting level not below where it was. *)
Definition aborted (c c' : GLSLConverter) : Prop :=
  settings c' = settings c /\
  isInsideEntryPoint_ c' = isInsideEntryPoint_ c /\
  (structDeclLevel_ c <= structDeclLevel_ c')%nat.

(** A computation that hands the converter back as it got it when it
    returns, and that throws nothing but the invalid-intrinsic error,
    leaving the converter related by [Err] to what it was. *)
Definition behaves {A} (Err : GLSLConverter -> GLSLConverter -> Prop) (m : M A) : Prop :=
  forall c, match m c with
            | Returned _ c' => c' = c
            | Thrown e c' => Err c c' /\ invalidIntrinsic e
            end.

(** A property of nodes that holds at every node of an expression. *)
Fixpoint allExpr (P : Expr -> bool) (e : Expr) : bool :=
  P e &&
  match e with
  | LiteralExpr _ _ _ => true
  | BinaryExpr _ l _ r => allExpr P l && allExpr P r
  | UnaryExpr _ _ x => allExpr P x
  | BracketExpr _ x => allExpr P x
  | CastExpr _ _ x => allExpr P x
  | FunctionCallExpr _ (mkFunctionCall _ _ _ args) => forallb (allExpr P) args
  | VarAccessExpr _ _ _ (Some x) => allExpr P x
  | VarAccessExpr _ _ _ None => true
  end.

(** The spelling ends in the half-precision suffix. *)
Definition endsInHalfSuffix (value : string) : bool :=
  match back value with
  | Some ch => (Ascii.eqb ch "h" || Ascii.eqb ch "H")%bool
  | None => false
  end.

(** The node is no literal with the half-precision suffix. *)
Definition noHalfLiteral (e : Expr) : bool :=
  match e with
  | LiteralExpr _ _ v => negb (endsInHalfSuffix v)
  | _ => true
  end.

(** The node is no unary expression whose operand is directly a unary
    expression. *)
Definition noUnaryOfUnary (e : Expr) : bool :=
  match e with
  | UnaryExpr _ _ x => negb (IsUnaryExpr x)
  | _ => true
  end.

(** The node is no call tagged [Saturate]. *)
Definition noSaturateCall (e : Expr) : bool :=
  match e with
  | FunctionCallExpr _ (mkFunctionCall _ _ Intrinsic.Saturate _) => false
  | _ => true
  end.

(** The node is no call tagged [Saturate] with arguments that the
    saturate rule refuses. *)
Definition saturateCallValid (GetTypeDenoter : Expr -> TypeDenoter) (e : Expr) : bool :=
  match e with
  | FunctionCallExpr _ (mkFunctionCall _ _ Intrinsic.Saturate args) =>
      saturateArgumentsValid GetTypeDenoter args
  | _ => true
  end.

(** No loop, if or else statement anywhere in the statement has a return
    statement as its body. *)
Fixpoint noBareReturnBody (s : Stmnt) : bool :=
  match s with
  | CodeBlockStmnt _ cb => noBareReturnBody_block cb
  | ForLoopStmnt _ i _ _ b =>
      noBareReturnBody i && negb (IsReturnStmnt b) && noBareReturnBody b
  | WhileLoopStmnt _ _ b => negb (IsReturnStmnt b) && noBareReturnBody b
  | DoWhileLoopStmnt _ b _ => negb (IsReturnStmnt b) && noBareReturnBody b
  | IfStmnt _ _ b els =>
      negb (IsReturnStmnt b) && noBareReturnBody b &&
      match els with
      | Some e => noBareReturnBody_else e
      | None => true
      end
  | _ => true
  end
with noBareReturnBody_else (e : ElseStmnt) : bool :=
  match e with
  | mkElseStmnt _ b => negb (IsReturnStmnt b) && noBareReturnBody b
  end
with noBareReturnBody_block (cb : CodeBlock) : bool :=
  match cb with
  | mkCodeBlock _ stmnts => forallb noBareReturnBody stmnts
  end.

(** The identifiers declared in a structure, in those declared in its
    members' anonymous structures included, in the order of the text. *)
Fixpoint sd_idents (d : StructDecl) : list string :=
  match d with
  | mkStructDecl _ _ members => flat_map vds_idents members
  end
with vds_idents (s : VarDeclStmnt) : list string :=
  match s with
  | mkVarDeclStmnt _ vt decls => vt_idents vt ++ map vd_ident decls
  end
with vt_idents (t : VarType) : list string :=
  match t with
  | mkVarType _ (Some d) => sd_idents d
  | mkVarType _ None => []
  end.

(** The last segment of a chain. *)
Fixpoint vi_last (v : VarIdent) : segment :=
  match v with
  | mkVarIdent _ _ (Some n) => vi_last n
  | mkVarIdent i s None => (i, s)
  end.

(** The situation of the other branch of [VisitVarIdent]: a following
    segment, and a symbol reference to a variable of a structure type that
    must be resolved. *)
Definition refersToResolvedStruct (mustResolve : StructDeclRef -> bool) (v : VarIdent)
  : bool :=
  match vi_next v, vi_symbolRef v with
  | Some _, Some (SymVarDecl d) =>
      match ref_declType d with
      | StructTypeDenoter sd => mustResolve sd
      | _ => false
      end
  | _, _ => false
  end.

(** Some global statement of the program is a reachable entry point. *)
Definition visitsEntryPoint (ast : Program) : bool :=
  existsb (fun g => match g with
                    | FunctionDeclStmnt f => fd_isReachable f && fd_isEntryPoint f
                    | OtherGlobalStmnt _ => false
                    end) (globalStmnts ast).

(** ** Sample trees *)

Module Sample.

(** Structure 1 must be resolved, the others need not. *)
Definition mustResolve (t : ShaderTarget) (sd : StructDeclRef) : bool := Nat.eqb sd 1.

Definition structVar : SymbolRef :=
  SymVarDecl (mkVarDeclRef "input" false false (StructTypeDenoter 0)).
Definition member (name : string) : SymbolRef :=
  SymVarDecl (mkVarDeclRef name false false (BaseTypeDenoter DataType.Float)).
Definition systemValue (name : string) : SymbolRef :=
  SymVarDecl (mkVarDeclRef name false true (BaseTypeDenoter DataType.Float)).

(** [input.position]: the member is a system value. *)
Definition input_position : VarIdent :=
  mkVarIdent "input" (Some structVar)
    (Some (mkVarIdent "position" (Some (systemValue "position")) None)).

(** [input.position.xyz] *)
Definition input_position_xyz : VarIdent :=
  mkVarIdent "input" (Some structVar)
    (Some (mkVarIdent "position" (Some (systemValue "position"))
       (Some (mkVarIdent "xyz" None None)))).

Definition position_xyz : VarIdent :=
  mkVarIdent "position" (Some (systemValue "position"))
    (Some (mkVarIdent "xyz" None None)).

(** [input.color.rgb]: no system value at all. *)
Definition input_color_rgb : VarIdent :=
  mkVarIdent "input" (Some structVar)
    (Some (mkVarIdent "color" (Some (member "color"))
       (Some (mkVarIdent "rgb" None None)))).

(** [input.a.b.sv]: the system value is three links away. *)
Definition input_a_b_sv : VarIdent :=
  mkVarIdent "input" (Some structVar)
    (Some (mkVarIdent "a" (Some (member "a"))
       (Some (mkVarIdent "b" (Some (member "b"))
          (Some (mkVarIdent "sv" (Some (systemValue "sv")) None)))))).


(** A resolver for the sample trees: a literal has its data type, a cast
    its target type, a variable access the declared type of its last
    segment, an operator the type of its first operand. *)
Fixpoint lastSegment (v : VarIdent) : VarIdent :=
  match v with
  | mkVarIdent _ _ (Some n) => lastSegment n
  | mkVarIdent _ _ None => v
  end.

Fixpoint getTypeDenoter (e : Expr) : TypeDenoter :=
  match e with
  | LiteralExpr _ dt _ => BaseTypeDenoter dt
  | BinaryExpr _ l _ _ => getTypeDenoter l
  | UnaryExpr _ _ x => getTypeDenoter x
  | BracketExpr _ x => getTypeDenoter x
  | CastExpr _ t _ => t
  | FunctionCallExpr _ (mkFunctionCall _ _ _ (x :: _)) => getTypeDenoter x
  | FunctionCallExpr _ (mkFunctionCall _ _ _ []) => VoidTypeDenoter
  | VarAccessExpr _ vi _ _ =>
      match vi_symbolRef (lastSegment vi) with
      | Some (SymVarDecl d) => ref_declType d
      | _ => VoidTypeDenoter
      end
  end.

Definition varDeclType (v : VarDecl) : TypeDenoter := vd_declStmntRef v.

(** A variable of the given type, as an expression. *)
Definition var (name : string) (t : TypeDenoter) : Expr :=
  VarAccessExpr 1 (mkVarIdent name (Some (SymVarDecl (mkVarDeclRef name false false t))) None)
                0 None.

Definition uintVar : Expr := var "u" (BaseTypeDenoter DataType.UInt).
Definition intVar : Expr := var "i" (BaseTypeDenoter DataType.Int).
Definition floatVar : Expr := var "f" (BaseTypeDenoter DataType.Float).
Definition samplerVar : Expr := var "s" SamplerTypeDenoter.

(** [uint pos = i;] with [pos] reserved, and the same as a shader input. *)
Definition posDecl : VarDecl :=
  mkVarDecl 2 "pos" false false (BaseTypeDenoter DataType.UInt) [] (Some intVar).
Definition posInput : VarDecl :=
  mkVarDecl 2 "pos" true false (BaseTypeDenoter DataType.UInt) [] None.

(** A converter in the middle of a pass: prefix ["xsc_"], ["pos"]
    reserved. *)
Definition inPass : GLSLConverter :=
  mkGLSLConverter 0 "xsc_" false ["pos"] 0.
Definition inEntryPoint : GLSLConverter :=
  mkGLSLConverter 0 "xsc_" true ["pos"] 0.


(** [void main() { if (u) return; }], the entry point, with the input
    semantic [pos] and the output semantic [color]. *)
Definition mainDecl : FunctionDecl :=
  mkFunctionDecl 10 true true (mkVarType VoidTypeDenoter None) "main" []
    (Some (mkCodeBlock 11 [IfStmnt 12 uintVar (ReturnStmnt 13 None) None])).

Definition firstProgram : Program :=
  mkProgram [FunctionDeclStmnt mainDecl]
    (mkEntryPointRef
       (mkParameterSemantics
          [mkVarDeclRef "pos" true true (BaseTypeDenoter DataType.Float)])
       (mkParameterSemantics
          [mkVarDeclRef "color" false true (BaseTypeDenoter DataType.Float)])).

(** A program with the global variable [uint pos = i;] and no semantics. *)
Definition secondProgram : Program :=
  mkProgram
    [OtherGlobalStmnt
       (LocalVarDeclStmnt
          (mkVarDeclStmnt 1 (mkVarType (BaseTypeDenoter DataType.UInt) None) [posDecl]))]
    (mkEntryPointRef (mkParameterSemantics []) (mkParameterSemantics [])).


(** [saturate(f)], [saturate()] and [saturate(s)] with a sampler [s]. *)
Definition saturate (args : list Expr) : FunctionCall :=
  mkFunctionCall 4 "saturate" Intrinsic.Saturate args.

Definition floatZero : Expr :=
  MakeLiteralCastExpr (BaseTypeDenoter DataType.Float) DataType.Int "0".
Definition floatOne : Expr :=
  MakeLiteralCastExpr (BaseTypeDenoter DataType.Float) DataType.Int "1".

(** [{ 1; saturate(); 2h; }] *)
Definition blockWithBadSaturate : CodeBlock :=
  mkCodeBlock 1
    [ExprStmnt 2 (LiteralExpr 2 DataType.Int "1");
     ExprStmnt 3 (FunctionCallExpr 3 (saturate []));
     ExprStmnt 5 (LiteralExpr 5 (DataType.Other 0) "2h")].

(** [shade(s, f, s, u)]: a call of a user function with two samplers. *)
Definition shadeCall : FunctionCall :=
  mkFunctionCall 6 "shade" Intrinsic.Undefined [samplerVar; floatVar; samplerVar; uintVar].

(** [float shade(sampler s, float f, sampler t, uint u);], reachable. *)
Definition param (name : string) (t : TypeDenoter) : VarDeclStmnt :=
  mkVarDeclStmnt 7 (mkVarType t None) [mkVarDecl 7 name false false t [] None].

Definition shadeDecl : FunctionDecl :=
  mkFunctionDecl 8 true false (mkVarType (BaseTypeDenoter DataType.Float) None) "shade"
    [param "s" SamplerTypeDenoter; param "f" (BaseTypeDenoter DataType.Float);
     param "t" SamplerTypeDenoter; param "u" (BaseTypeDenoter DataType.UInt)]
    None.

(** [draw(t, f)] and [float draw(SamplerAlias t, float f);], where the
    type of [t] is an alias of the sampler type. *)
Definition aliasSamplerVar : Expr := var "t" (AliasTypeDenoter SamplerTypeDenoter).

Definition drawCall : FunctionCall :=
  mkFunctionCall 6 "draw" Intrinsic.Undefined [aliasSamplerVar; floatVar].

Definition drawDecl : FunctionDecl :=
  mkFunctionDecl 8 true false (mkVarType (BaseTypeDenoter DataType.Float) None) "draw"
    [param "t" (AliasTypeDenoter SamplerTypeDenoter);
     param "f" (BaseTypeDenoter DataType.Float)]
    None.

(** [if (u) return;] *)
Definition ifReturn : Stmnt := IfStmnt 12 uintVar (ReturnStmnt 13 None) None.


(** [struct Light { float pos; struct { uint pos; } inner; };] *)
Definition posMember (t : TypeDenoter) : VarDecl :=
  mkVarDecl 20 "pos" false false t [] None.

Definition lightDecl : StructDecl :=
  mkStructDecl 21 "Light"
    [mkVarDeclStmnt 22 (mkVarType (BaseTypeDenoter DataType.Float) None)
       [posMember (BaseTypeDenoter DataType.Float)];
     mkVarDeclStmnt 23
       (mkVarType (StructTypeDenoter 5)
          (Some (mkStructDecl 24 ""
                   [mkVarDeclStmnt 25 (mkVarType (BaseTypeDenoter DataType.UInt) None)
                      [posMember (BaseTypeDenoter DataType.UInt)]])))
       [mkVarDecl 23 "inner" false false (StructTypeDenoter 5) [] None]].

(** [while (u) if (u) return; else return;] *)
Definition nestedReturns : Stmnt :=
  WhileLoopStmnt 30 uintVar
    (IfStmnt 31 uintVar (ReturnStmnt 32 None)
       (Some (mkElseStmnt 33 (ReturnStmnt 34 (Some intVar))))).

(** [- - saturate(2.5h)] *)
Definition minusMinusSaturate : Expr :=
  UnaryExpr 40 0
    (UnaryExpr 41 0
       (FunctionCallExpr 42 (saturate [LiteralExpr 43 (DataType.Other 0) "2.5h"]))).

End Sample.

(** * Properties *)

(** ** The monad *)

Lemma bind_Returned {A B} (m : M A) (k : A -> M B) c a c' :
  m c = Returned a c' -> bind m k c = k a c'.
Proof. intros H. unfold bind. now rewrite H. Qed.

Lemma bind_Thrown {A B} (m : M A) (k : A -> M B) c e c' :
  m c = Thrown e c' -> bind m k c = Thrown e c'.
Proof. intros H. unfold bind. now rewrite H. Qed.

Lemma bind_gets {A B} (f : GLSLConverter -> A) (k : A -> M B) c :
  bind (gets f) k c = k (f c) c.
Proof. reflexivity. Qed.

Lemma bind_modify {B} (f : GLSLConverter -> GLSLConverter) (k : unit -> M B) c :
  bind (modify f) k c = k tt (f c).
Proof. reflexivity. Qed.

Lemma bind_ret {A B} (a : A) (k : A -> M B) c :
  bind (ret a) k c = k a c.
Proof. reflexivity. Qed.

Lemma bind_assoc {A B C} (m : M A) (f : A -> M B) (g : B -> M C) c :
  bind (bind m f) g c = bind m (fun x => bind (f x) g) c.
Proof. unfold bind. now destruct (m c). Qed.

Lemma bind_cong {A B} (m : M A) (k1 k2 : A -> M B) c :
  (forall a c', m c = Returned a c' -> k1 a c' = k2 a c') ->
  bind m k1 c = bind m k2 c.
Proof. intros H. unfold bind. destruct (m c); [now apply H|reflexivity]. Qed.

Lemma bind_cong_l {A B} (m1 m2 : M A) (k : A -> M B) c :
  m1 c = m2 c -> bind m1 k c = bind m2 k c.
Proof. intros H. unfold bind. now rewrite H. Qed.

Lemma bind_inv {A B} (m : M A) (k : A -> M B) c b c2 :
  bind m k c = Returned b c2 ->
  exists a c1, m c = Returned a c1 /\ k a c1 = Returned b c2.
Proof.
  unfold bind. destruct (m c) as [a c1|e c1]; intros H.
  - now exists a, c1.
  - discriminate.
Qed.

(** ** Variable identifiers *)

Lemma VarIdent_chain_ind (P : VarIdent -> Prop) :
  (forall i s, P (mkVarIdent i s None)) ->
  (forall i s n, P n -> P (mkVarIdent i s (Some n))) ->
  forall v, P v.
Proof.
  intros Hlast Hnext.
  fix IH 1. intros [i s [n|]].
  - apply Hnext, IH.
  - apply Hlast.
Qed.

(** The inner loop in terms of [PopFront]: one pop, then on with the node
    that follows the promoted one. *)
Lemma removeLeading_unfold (root : VarIdent) :
  removeLeading root =
  if HasVarDeclOfVarIdentSystemSemantic root then root
  else let popped := PopFront root in
       match vi_next root with
       | None => root
       | Some _ => vi_set_next popped (option_map removeLeading (vi_next popped))
       end.
Proof.
  destruct root as [i s [[i1 s1 [r|]]|]]; simpl;
    destruct (HasVarDeclOfVarIdentSystemSemantic _); reflexivity.
Qed.

Lemma findSystemSemantic_firstSystemValue (v : VarIdent) :
  findSystemSemantic v = match firstSystemValue v with Some _ => true | None => false end.
Proof.
  induction v as [i s|i s n IH] using VarIdent_chain_ind; simpl.
  - destruct (HasVarDeclOfVarIdentSystemSemantic _); reflexivity.
  - destruct (HasVarDeclOfVarIdentSystemSemantic _); [reflexivity|].
    rewrite IH. destruct (firstSystemValue n); reflexivity.
Qed.

Lemma findSystemSemantic_existsb (v : VarIdent) :
  findSystemSemantic v = existsb HasVarDeclOfVarIdentSystemSemantic (chain v).
Proof.
  induction v as [i s|i s n IH] using VarIdent_chain_ind; simpl.
  - destruct (HasVarDeclOfVarIdentSystemSemantic _); reflexivity.
  - destruct (HasVarDeclOfVarIdentSystemSemantic _); [reflexivity|].
    exact IH.
Qed.

Section VarIdentRule.

Variable MustResolveStructForTarget : ShaderTarget -> StructDeclRef -> bool.

Local Abbreviation visitVarIdent := (VisitVarIdent MustResolveStructForTarget).
Local Abbreviation hasSV := HasVarDeclOfVarIdentSystemSemantic.

(** Where the rule applies, the visit is the search for a system value. *)
Lemma VisitVarIdent_kept_struct (this : GLSLConverter) (ast : VarIdent) :
  refersToKeptStruct (MustResolveStructForTarget (shaderTarget_ this)) ast = true ->
  visitVarIdent ast this = Returned (MakeVarIdentWithSystemSemanticLocal ast) this.
Proof.
  unfold refersToKeptStruct, VisitVarIdent, MustResolveStruct.
  destruct (vi_next ast); [|discriminate].
  destruct (vi_symbolRef ast) as [[d|]|]; try discriminate. simpl.
  destruct (ref_declType d); try discriminate. simpl.
  destruct (MustResolveStructForTarget _ _); [discriminate|reflexivity].
Qed.

(** C1 (as amended).  Let the head of a chain have a following segment [n]
    and refer to a variable of a structure type that need not be resolved.
    If no segment refers to a system value, or the head itself does, the
    visit leaves the chain as it is.  If the head does not and the segment
    after it does, the head is popped and the system-value segment, which
    is kept, becomes the head; when at most one segment follows it, or the
    one after it is a system value too, the result is exactly the chain
    from the system-value segment on. *)
Theorem VisitVarIdent_system_value (this : GLSLConverter) (ast n : VarIdent) :
  refersToKeptStruct (MustResolveStructForTarget (shaderTarget_ this)) ast = true ->
  vi_next ast = Some n ->
  (firstSystemValue ast = None -> visitVarIdent ast this = Returned ast this) /\
  (hasSV ast = true -> visitVarIdent ast this = Returned ast this) /\
  (hasSV ast = false -> hasSV n = true ->
   exists r, visitVarIdent ast this = Returned r this /\
             seg_of r = seg_of n /\
             ((forall m, vi_next n = Some m -> hasSV m = true \/ vi_next m = None) ->
              r = n)).
Proof.
  intros Happ Hn. rewrite (VisitVarIdent_kept_struct _ _ Happ).
  unfold MakeVarIdentWithSystemSemanticLocal.
  rewrite findSystemSemantic_firstSystemValue.
  split; [|split].
  - intros ->. reflexivity.
  - intros Hsv. destruct (firstSystemValue ast); [|reflexivity].
    destruct ast as [i s nx]. simpl. now rewrite Hsv.
  - intros Hhead Hnext.
    destruct ast as [i s nx]. simpl in Hn. subst nx.
    cbn [firstSystemValue]. rewrite Hhead.
    destruct n as [i1 s1 nx1].
    cbn [firstSystemValue]. rewrite Hnext. cbn [option_map].
    cbn [removeLeading]. rewrite Hhead.
    eexists. split; [reflexivity|]. split; [reflexivity|].
    intros Hm. destruct nx1 as [m|]; [|reflexivity].
    f_equal. f_equal.
    destruct (Hm m eq_refl) as [Hsv|Hlast].
    + destruct m as [i2 s2 nx2]. simpl. now rewrite Hsv.
    + destruct m as [i2 s2 nx2]. simpl in Hlast. subst nx2.
      cbn [removeLeading].
      destruct (hasSV (mkVarIdent i2 s2 None)); reflexivity.
Qed.

End VarIdentRule.

(** [input.position.xyz] becomes [position.xyz]: the instance of the
    theorem above on a chain of three segments. *)
Lemma VisitVarIdent_system_value_witness :
  exists r,
    VisitVarIdent Sample.mustResolve Sample.input_position_xyz newGLSLConverter
      = Returned r newGLSLConverter /\
    seg_of r = ("position", Some (Sample.systemValue "position")) /\
    r = Sample.position_xyz.
Proof.
  destruct (VisitVarIdent_system_value Sample.mustResolve newGLSLConverter
              Sample.input_position_xyz Sample.position_xyz eq_refl eq_refl)
    as (_ & _ & H).
  destruct (H eq_refl eq_refl) as (r & Hr & Hseg & Heq).
  exists r. split; [exact Hr|]. split; [exact Hseg|].
  apply Heq. intros m Hm. right. injection Hm as <-. reflexivity.
Defined.

(** C1 (as stated) fails on [input.position.xyz]: the rule is to pop
    [input] and [position] and leave [xyz]; the converter leaves
    [position.xyz]. *)
Lemma VisitVarIdent_keeps_system_value_segment :
  refersToKeptStruct (Sample.mustResolve (shaderTarget_ newGLSLConverter))
                     Sample.input_position_xyz = true /\
  firstSystemValue Sample.input_position_xyz = Some 1 /\
  popUpToAndIncluding Sample.input_position_xyz = mkVarIdent "xyz" None None /\
  VisitVarIdent Sample.mustResolve Sample.input_position_xyz newGLSLConverter
    = Returned Sample.position_xyz newGLSLConverter /\
  ~ popsThroughSystemValue Sample.mustResolve newGLSLConverter Sample.input_position_xyz.
Proof.
  repeat split.
  unfold popsThroughSystemValue. intros H.
  specialize (H eq_refl). vm_compute in H. discriminate H.
Qed.

(** On the list of segments the two differ in the same way. *)
Example input_position_xyz_segments :
  segmentsAfterFirstSystemValue Sample.input_position_xyz = [("xyz", None)] /\
  segments (MakeVarIdentWithSystemSemanticLocal Sample.input_position_xyz)
    = [("position", Some (Sample.systemValue "position")); ("xyz", None)].
Proof. split; reflexivity. Qed.

(** When the system value lies further down, the inner loop steps over
    every second segment: [input.a.b.sv] becomes [a.sv]. *)
Example input_a_b_sv_segments :
  map fst (segments (MakeVarIdentWithSystemSemanticLocal Sample.input_a_b_sv))
    = ["a"; "sv"].
Proof. reflexivity. Qed.

(** ** Containers and strings *)

Lemma eraseThenVisit_EraseIf {A} (pred : A -> bool) (f : A -> M A) (l : list A) c :
  eraseThenVisit pred f l c = mapM f (EraseIf pred l) c.
Proof.
  revert c. induction l as [|x r IH]; intros c; simpl; [reflexivity|].
  destruct (pred x); simpl; [apply IH|].
  unfold bind. destruct (f x c) as [x' c1|e c1]; [|reflexivity].
  rewrite IH. reflexivity.
Qed.

Lemma mapM_app_Thrown {A} (f : A -> M A) (pre rest : list A) (x : A) c pre' c1 e c2 :
  mapM f pre c = Returned pre' c1 ->
  f x c1 = Thrown e c2 ->
  mapM f (pre ++ x :: rest) c = Thrown e c2.
Proof.
  revert c pre'. induction pre as [|y pre IH]; intros c pre' Hpre Hx; simpl in *.
  - injection Hpre as _ <-. unfold bind. now rewrite Hx.
  - apply bind_inv in Hpre as (y' & c3 & Hy & Hpre).
    apply bind_inv in Hpre as (l' & c4 & Hl & Hret).
    injection Hret as _ ->.
    rewrite (bind_Returned _ _ _ _ _ Hy).
    erewrite bind_Thrown; [reflexivity|]. eapply IH; eassumption.
Qed.

(** What a visit maps each element of a list to. *)
Lemma mapM_Forall2 {A} (f : A -> M A) (l l' : list A) c c' :
  mapM f l c = Returned l' c' ->
  Forall2 (fun x x' => exists c1 c2, f x c1 = Returned x' c2) l l'.
Proof.
  revert c l'. induction l as [|x r IH]; intros c l' H; simpl in H.
  - injection H as <- _. constructor.
  - apply bind_inv in H as (x' & c1 & Hx & H).
    apply bind_inv in H as (r' & c2 & Hr & H).
    injection H as <- <-. constructor; [now exists c, c1|]. eapply IH, Hr.
Qed.

Lemma back_app_last (pre : string) (ch : ascii) :
  back (pre ++ String ch "") = Some ch.
Proof.
  induction pre as [|a pre IH]; simpl; [reflexivity|].
  rewrite IH. destruct (pre ++ String ch "")%string eqn:E; [|reflexivity].
  destruct pre; discriminate.
Qed.

Lemma set_back_app_last (pre : string) (ch c : ascii) :
  set_back c (pre ++ String ch "") = (pre ++ String c "")%string.
Proof.
  induction pre as [|a pre IH]; simpl; [reflexivity|].
  rewrite IH. destruct (pre ++ String ch "")%string eqn:E; [|reflexivity].
  destruct pre; discriminate.
Qed.

Lemma empty_app_last (pre : string) (ch : ascii) :
  empty (pre ++ String ch "") = false.
Proof. destruct pre; reflexivity. Qed.

(** A non-empty string is its front followed by its last character. *)
Lemma back_Some_inv (s : string) (ch : ascii) :
  back s = Some ch -> exists pre, s = (pre ++ String ch "")%string.
Proof.
  induction s as [|a s IH]; simpl; [discriminate|].
  destruct s as [|b s].
  - intros [= ->]. now exists ""%string.
  - intros H. destruct (IH H) as (pre & ->). now exists (String a pre).
Qed.

(** ** Induction over the syntax tree

    The tree types are nested in [list] and [option]; these principles give
    the induction hypothesis for every child. *)

Section ExprInduction.

Variable P : Expr -> Prop.
Variable Q : FunctionCall -> Prop.

Hypothesis HLiteral : forall a dt v, P (LiteralExpr a dt v).
Hypothesis HBinary : forall a l op r, P l -> P r -> P (BinaryExpr a l op r).
Hypothesis HUnary : forall a op x, P x -> P (UnaryExpr a op x).
Hypothesis HBracket : forall a x, P x -> P (BracketExpr a x).
Hypothesis HCast : forall a t x, P x -> P (CastExpr a t x).
Hypothesis HCall : forall a c, Q c -> P (FunctionCallExpr a c).
Hypothesis HVarAccess : forall a vi op ae,
  match ae with Some x => P x | None => True end -> P (VarAccessExpr a vi op ae).
Hypothesis HFunctionCall : forall a name intr args,
  Forall P args -> Q (mkFunctionCall a name intr args).

Fixpoint Expr_tree_ind (e : Expr) : P e :=
  match e with
  | LiteralExpr a dt v => HLiteral a dt v
  | BinaryExpr a l op r => HBinary a l op r (Expr_tree_ind l) (Expr_tree_ind r)
  | UnaryExpr a op x => HUnary a op x (Expr_tree_ind x)
  | BracketExpr a x => HBracket a x (Expr_tree_ind x)
  | CastExpr a t x => HCast a t x (Expr_tree_ind x)
  | FunctionCallExpr a c => HCall a c (FunctionCall_tree_ind c)
  | VarAccessExpr a vi op ae =>
      HVarAccess a vi op ae
        (match ae return match ae with Some x => P x | None => True end with
         | Some x => Expr_tree_ind x
         | None => I
         end)
  end
with FunctionCall_tree_ind (c : FunctionCall) : Q c :=
  match c with
  | mkFunctionCall a name intr args =>
      HFunctionCall a name intr args
        ((fix go (l : list Expr) : Forall P l :=
            match l with
            | [] => Forall_nil P
            | x :: r => Forall_cons x (Expr_tree_ind x) (go r)
            end) args)
  end.

End ExprInduction.

Section StructDeclInduction.

Variable P : StructDecl -> Prop.
Variable Q : VarDeclStmnt -> Prop.
Variable R : VarType -> Prop.

Hypothesis HStructDecl : forall a name members,
  Forall Q members -> P (mkStructDecl a name members).
Hypothesis HVarDeclStmnt : forall a vt decls, R vt -> Q (mkVarDeclStmnt a vt decls).
Hypothesis HVarType : forall td sd,
  match sd with Some d => P d | None => True end -> R (mkVarType td sd).

Fixpoint StructDecl_tree_ind (d : StructDecl) : P d :=
  match d with
  | mkStructDecl a name members =>
      HStructDecl a name members
        ((fix go (l : list VarDeclStmnt) : Forall Q l :=
            match l with
            | [] => Forall_nil Q
            | x :: r => Forall_cons x (VarDeclStmnt_tree_ind x) (go r)
            end) members)
  end
with VarDeclStmnt_tree_ind (s : VarDeclStmnt) : Q s :=
  match s with
  | mkVarDeclStmnt a vt decls => HVarDeclStmnt a vt decls (VarType_tree_ind vt)
  end
with VarType_tree_ind (t : VarType) : R t :=
  match t with
  | mkVarType td sd =>
      HVarType td sd
        (match sd return match sd with Some d => P d | None => True end with
         | Some d => StructDecl_tree_ind d
         | None => I
         end)
  end.

End StructDeclInduction.

Section StmntInduction.

Variable P : Stmnt -> Prop.
Variable Q : ElseStmnt -> Prop.
Variable R : CodeBlock -> Prop.

Hypothesis HNull : forall a, P (NullStmnt a).
Hypothesis HCodeBlockStmnt : forall a cb, R cb -> P (CodeBlockStmnt a cb).
Hypothesis HForLoop : forall a i cond it b, P i -> P b -> P (ForLoopStmnt a i cond it b).
Hypothesis HWhileLoop : forall a cond b, P b -> P (WhileLoopStmnt a cond b).
Hypothesis HDoWhileLoop : forall a b cond, P b -> P (DoWhileLoopStmnt a b cond).
Hypothesis HIf : forall a cond b els,
  P b -> match els with Some e => Q e | None => True end -> P (IfStmnt a cond b els).
Hypothesis HExpr : forall a e, P (ExprStmnt a e).
Hypothesis HReturn : forall a e, P (ReturnStmnt a e).
Hypothesis HLocalVarDecl : forall d, P (LocalVarDeclStmnt d).
Hypothesis HStructDeclStmnt : forall a d, P (StructDeclStmnt a d).
Hypothesis HElse : forall a b, P b -> Q (mkElseStmnt a b).
Hypothesis HCodeBlock : forall a stmnts, Forall P stmnts -> R (mkCodeBlock a stmnts).

Fixpoint Stmnt_tree_ind (s : Stmnt) : P s :=
  match s with
  | NullStmnt a => HNull a
  | CodeBlockStmnt a cb => HCodeBlockStmnt a cb (CodeBlock_tree_ind cb)
  | ForLoopStmnt a i cond it b =>
      HForLoop a i cond it b (Stmnt_tree_ind i) (Stmnt_tree_ind b)
  | WhileLoopStmnt a cond b => HWhileLoop a cond b (Stmnt_tree_ind b)
  | DoWhileLoopStmnt a b cond => HDoWhileLoop a b cond (Stmnt_tree_ind b)
  | IfStmnt a cond b els =>
      HIf a cond b els (Stmnt_tree_ind b)
        (match els return match els with Some e => Q e | None => True end with
         | Some e => ElseStmnt_tree_ind e
         | None => I
         end)
  | ExprStmnt a e => HExpr a e
  | ReturnStmnt a e => HReturn a e
  | LocalVarDeclStmnt d => HLocalVarDecl d
  | StructDeclStmnt a d => HStructDeclStmnt a d
  end
with ElseStmnt_tree_ind (e : ElseStmnt) : Q e :=
  match e with
  | mkElseStmnt a b => HElse a b (Stmnt_tree_ind b)
  end
with CodeBlock_tree_ind (cb : CodeBlock) : R cb :=
  match cb with
  | mkCodeBlock a stmnts =>
      HCodeBlock a stmnts
        ((fix go (l : list Stmnt) : Forall P l :=
            match l with
            | [] => Forall_nil P
            | x :: r => Forall_cons x (Stmnt_tree_ind x) (go r)
            end) stmnts)
  end.

End StmntInduction.

(** ** What a visit leaves alone *)

Lemma keeps_ret {A} (a : A) : keeps (ret a).
Proof. intros c. reflexivity. Qed.

Lemma keeps_gets {A} (f : GLSLConverter -> A) : keeps (gets f).
Proof. intros c. reflexivity. Qed.

Lemma keeps_RuntimeErr {A} msg area : keeps (@RuntimeErr A msg area).
Proof. intros c. reflexivity. Qed.

Lemma keeps_modify (f : GLSLConverter -> GLSLConverter) :
  (forall c, settings (f c) = settings c) -> keeps (modify f).
Proof. intros H c. apply H. Qed.

Lemma keeps_bind {A B} (m : M A) (k : A -> M B) :
  keeps m -> (forall a, keeps (k a)) -> keeps (bind m k).
Proof.
  intros Hm Hk c. unfold bind. specialize (Hm c).
  destruct (m c) as [a c1|e c1]; simpl in Hm.
  - now rewrite Hk.
  - exact Hm.
Qed.

Lemma keeps_mapM {A} (f : A -> M A) (l : list A) :
  Forall (fun x => keeps (f x)) l -> keeps (mapM f l).
Proof.
  induction 1 as [|x r Hx _ IH]; simpl; [apply keeps_ret|].
  apply keeps_bind; [exact Hx|intros x'].
  apply keeps_bind; [exact IH|intros r']. apply keeps_ret.
Qed.

Lemma keeps_eraseThenVisit {A} (pred : A -> bool) (f : A -> M A) (l : list A) :
  Forall (fun x => keeps (f x)) l -> keeps (eraseThenVisit pred f l).
Proof.
  induction 1 as [|x r Hx _ IH]; simpl; [apply keeps_ret|].
  destruct (pred x); [exact IH|].
  apply keeps_bind; [exact Hx|intros x'].
  apply keeps_bind; [exact IH|intros r']. apply keeps_ret.
Qed.

Lemma keeps_optM {A} (f : A -> M A) (o : option A) :
  (forall x, keeps (f x)) -> keeps (optM f o).
Proof.
  intros H. destruct o; simpl; [|apply keeps_ret].
  apply keeps_bind; [apply H|intros; apply keeps_ret].
Qed.

Lemma RegisterReservedVarIdents_app (varDecls : list VarDeclRef) (this : GLSLConverter) :
  RegisterReservedVarIdents varDecls this =
  Returned tt (set_reservedVarIdents
                 (reservedVarIdents_ this ++ map ref_ident varDecls) this).
Proof.
  unfold RegisterReservedVarIdents, modify. do 2 f_equal.
  generalize (reservedVarIdents_ this).
  induction varDecls as [|v r IH]; intros l; simpl.
  - now rewrite app_nil_r.
  - rewrite IH, <- app_assoc. reflexivity.
Qed.

(** ** The rules of the converter *)

Section Properties.

Variable MustResolveStructForTarget : ShaderTarget -> StructDeclRef -> bool.
Variable GetTypeDenoter : Expr -> TypeDenoter.
Variable VarDecl_GetTypeDenoter : VarDecl -> TypeDenoter.

Local Abbreviation visitExpr := (VisitExpr MustResolveStructForTarget GetTypeDenoter).
Local Abbreviation visitFunctionCall :=
  (VisitFunctionCall MustResolveStructForTarget GetTypeDenoter).
Local Abbreviation visitVarDecl :=
  (VisitVarDecl MustResolveStructForTarget GetTypeDenoter VarDecl_GetTypeDenoter).
Local Abbreviation visitStmnt :=
  (VisitStmnt MustResolveStructForTarget GetTypeDenoter VarDecl_GetTypeDenoter).
Local Abbreviation convertExprIfCastRequired := (ConvertExprIfCastRequired GetTypeDenoter).

(** *** Literals *)

Lemma VisitLiteralExpr_suffix (a : SourceArea) (dt : DataType.t) (pre : string) (ch : ascii) :
  ch = "h"%char \/ ch = "H"%char ->
  VisitLiteralExpr a dt (pre ++ String ch "") = LiteralExpr a DataType.Float (pre ++ "f").
Proof.
  intros H. unfold VisitLiteralExpr.
  rewrite empty_app_last, back_app_last, set_back_app_last. simpl.
  destruct H as [-> | ->]; reflexivity.
Qed.

Lemma VisitLiteralExpr_other (a : SourceArea) (dt : DataType.t) (value : string) :
  back value <> Some "h"%char -> back value <> Some "H"%char ->
  VisitLiteralExpr a dt value = LiteralExpr a dt value.
Proof.
  intros Hh HH. unfold VisitLiteralExpr.
  destruct (empty value); [reflexivity|]. simpl.
  destruct (back value) as [ch|]; [|reflexivity].
  destruct (Ascii.eqb_spec ch "h") as [->|_]; [now elim Hh|].
  destruct (Ascii.eqb_spec ch "H") as [->|_]; [now elim HH|].
  reflexivity.
Qed.

(** C9.  A literal whose spelling ends in [h] or [H] gets [f] in place of
    that character and the data type [Float]; a literal whose spelling does
    not end in [h] or [H] is returned as it is.  So ["1.0h"] becomes
    ["1.0f"] of type [Float], and ["1.0"] stays. *)
Theorem VisitLiteralExpr_half_suffix (this : GLSLConverter) (a : SourceArea)
        (dt : DataType.t) :
  (forall pre ch, ch = "h"%char \/ ch = "H"%char ->
     visitExpr (LiteralExpr a dt (pre ++ String ch "")) this
       = Returned (LiteralExpr a DataType.Float (pre ++ "f")) this) /\
  (forall value,
     (forall pre, value <> (pre ++ "h")%string /\ value <> (pre ++ "H")%string) ->
     visitExpr (LiteralExpr a dt value) this = Returned (LiteralExpr a dt value) this) /\
  visitExpr (LiteralExpr a dt "1.0h") this
    = Returned (LiteralExpr a DataType.Float "1.0f") this /\
  visitExpr (LiteralExpr a dt "1.0") this = Returned (LiteralExpr a dt "1.0") this.
Proof.
  split; [|split; [|split; reflexivity]].
  - intros pre ch H. cbn [VisitExpr]. unfold ret. now rewrite VisitLiteralExpr_suffix.
  - intros value H. cbn [VisitExpr]. unfold ret. rewrite VisitLiteralExpr_other; [reflexivity| |].
    + intros Hb. apply back_Some_inv in Hb as (pre & ->).
      now destruct (H pre) as [Hh _].
    + intros Hb. apply back_Some_inv in Hb as (pre & ->).
      now destruct (H pre) as [_ HH].
Qed.

(** C10.  The literal rule looks at the last character only: whatever comes
    before a final [h] or [H], and whatever data type the literal had, the
    character becomes [f] and the type [Float]; whether a literal is
    rewritten is decided by [back] of its spelling and by nothing else; and
    the visit of a literal never throws, the empty spelling included, which
    is returned unchanged. *)
Theorem VisitLiteralExpr_last_character (this : GLSLConverter) (a : SourceArea)
        (dt : DataType.t) (value : string) :
  visitExpr (LiteralExpr a dt "") this = Returned (LiteralExpr a dt "") this /\
  visitExpr (LiteralExpr a dt value) this =
    Returned (match back value with
              | Some ch =>
                  if (Ascii.eqb ch "h" || Ascii.eqb ch "H")%bool
                  then LiteralExpr a DataType.Float (set_back "f" value)
                  else LiteralExpr a dt value
              | None => LiteralExpr a dt value
              end) this /\
  succeeded (visitExpr (LiteralExpr a dt value) this) = true /\
  (forall pre ch, ch = "h"%char \/ ch = "H"%char ->
     value = (pre ++ String ch "")%string ->
     visitExpr (LiteralExpr a dt value) this
       = Returned (LiteralExpr a DataType.Float (pre ++ "f")) this).
Proof.
  split; [reflexivity|]. split; [|split; [reflexivity|]].
  - simpl. unfold ret, VisitLiteralExpr.
    destruct value as [|c s]; [reflexivity|]. cbn [empty negb].
    reflexivity.
  - intros pre ch H ->. cbn [VisitExpr]. unfold ret. now rewrite VisitLiteralExpr_suffix.
Qed.

(** *** Implicit casts *)

Lemma CastExpr_neq (e : Expr) : forall a t, CastExpr a t e <> e.
Proof.
  induction e; intros a' t' H; try discriminate H.
  injection H as _ _ H. now apply IHe in H.
Qed.

Lemma MustCastExprToDataType_castRequired (target source : TypeDenoter) :
  MustCastExprToDataType target source =
  if castRequired target source then TD.AsBase target else None.
Proof.
  destruct target as [|t| | | | |]; try reflexivity.
  destruct source as [|s| | | | |]; try reflexivity.
  destruct t, s; reflexivity.
Qed.

Lemma ConvertExprIfCastRequired_castIfRequired (e : Expr) (target : TypeDenoter) :
  convertExprIfCastRequired e target = castIfRequired GetTypeDenoter target e.
Proof.
  unfold ConvertExprIfCastRequired, castIfRequired.
  rewrite MustCastExprToDataType_castRequired.
  destruct (castRequired target _) eqn:E; [|reflexivity].
  destruct target; try discriminate E. reflexivity.
Qed.

Lemma vd_set_initializer_same (ast : VarDecl) :
  vd_set_initializer ast (vd_initializer ast) = ast.
Proof. now destruct ast. Qed.

(** C3.  The converter wraps an expression in a cast to the target type
    when, and only when, the resolved type denoters of target and source
    are both base types, one [Int] and the other [UInt]; in every other
    case the expression is handed back as it is.  This policy is applied
    to the right-hand side of a binary expression against the type of the
    left-hand side, after both operands are visited; to the initializer of
    a variable declaration against the declared type; and to the
    assignment expression of a variable access against the type of the
    access expression, after its parts are visited. *)
Theorem ConvertExprIfCastRequired_sites (this : GLSLConverter) :
  (forall e target,
     convertExprIfCastRequired e target =
       (if castRequired target (TD.Get (GetTypeDenoter e))
        then CastExpr SourceArea_ignore target e else e)) /\
  (forall e target,
     convertExprIfCastRequired e target <> e <->
     castRequired target (TD.Get (GetTypeDenoter e)) = true) /\
  (forall a l op r,
     visitExpr (BinaryExpr a l op r) this =
       (l' <- visitExpr l ;;
        r' <- visitExpr r ;;
        ret (BinaryExpr a l' op
               (castIfRequired GetTypeDenoter (TD.Get (GetTypeDenoter l')) r'))) this) /\
  (forall ast,
     visitVarDecl ast this =
       (ast1 <- (if MustRenameVarDecl this ast then RenameVarDecl ast else ret ast) ;;
        Visitor_VisitVarDecl MustResolveStructForTarget GetTypeDenoter
          (vd_set_initializer ast1
             (option_map (castIfRequired GetTypeDenoter
                            (TD.Get (VarDecl_GetTypeDenoter ast1)))
                         (vd_initializer ast1)))) this) /\
  (forall a vi op x,
     visitExpr (VarAccessExpr a vi op (Some x)) this =
       (vi' <- VisitVarIdent MustResolveStructForTarget vi ;;
        x' <- visitExpr x ;;
        ret (VarAccessExpr a vi' op
               (Some (castIfRequired GetTypeDenoter
                        (TD.Get (GetTypeDenoter (VarAccessExpr a vi' op (Some x'))))
                        x')))) this) /\
  (forall a vi op,
     visitExpr (VarAccessExpr a vi op None) this =
       (vi' <- VisitVarIdent MustResolveStructForTarget vi ;;
        ret (VarAccessExpr a vi' op None)) this).
Proof.
  split; [|split; [|split; [|split; [|split]]]].
  - intros e target. apply ConvertExprIfCastRequired_castIfRequired.
  - intros e target. rewrite ConvertExprIfCastRequired_castIfRequired.
    unfold castIfRequired. destruct (castRequired target _); split; intros H.
    + reflexivity.
    + apply CastExpr_neq.
    + now elim H.
    + discriminate H.
  - intros a l op r. cbn [VisitExpr]. unfold bind.
    destruct (visitExpr l this) as [l' c1|]; [|reflexivity].
    destruct (visitExpr r c1) as [r' c2|]; [|reflexivity].
    now rewrite ConvertExprIfCastRequired_castIfRequired.
  - intros ast. unfold VisitVarDecl, bind, gets.
    destruct (if MustRenameVarDecl this ast then RenameVarDecl ast else ret ast)
      as [ast1 c1|]; [|reflexivity].
    destruct (vd_initializer ast1) as [init|] eqn:E; cbn [option_map].
    + now rewrite ConvertExprIfCastRequired_castIfRequired.
    + now rewrite <- E, vd_set_initializer_same.
  - intros a vi op x. cbn [VisitExpr]. unfold bind.
    destruct (VisitVarIdent _ vi this) as [vi' c1|]; [|reflexivity].
    destruct (visitExpr x c1) as [x' c2|]; [|reflexivity].
    unfold ret. now rewrite ConvertExprIfCastRequired_castIfRequired.
  - intros a vi op. cbn [VisitExpr]. unfold bind.
    destruct (VisitVarIdent _ vi this) as [vi' c1|]; reflexivity.
Qed.

(** *** Renaming of variable declarations *)

Lemma find_ne_end_In (l : list string) (ident : string) :
  find_ne_end l ident = true <-> In ident l.
Proof.
  unfold find_ne_end. rewrite existsb_exists. split.
  - intros (x & Hin & Heq). apply String.eqb_eq in Heq. now subst.
  - intros Hin. exists ident. split; [assumption|apply String.eqb_refl].
Qed.

Lemma MustRenameVarDecl_spec (this : GLSLConverter) (ast : VarDecl) :
  MustRenameVarDecl this ast = true <->
  structDeclLevel_ this = 0 /\ vd_isShaderInput ast = false /\
  In (vd_ident ast) (reservedVarIdents_ this).
Proof.
  unfold MustRenameVarDecl, IsInsideStructDecl.
  rewrite !andb_true_iff, !negb_true_iff, find_ne_end_In, Nat.ltb_ge.
  split; intros ((H1 & H2) & H3) || intros (H1 & H2 & H3); repeat split;
    try assumption; lia.
Qed.

Lemma Visitor_VisitVarDecl_ident (ast ast' : VarDecl) c c' :
  Visitor_VisitVarDecl MustResolveStructForTarget GetTypeDenoter ast c = Returned ast' c' ->
  vd_ident ast' = vd_ident ast /\ vd_isShaderInput ast' = vd_isShaderInput ast.
Proof.
  unfold Visitor_VisitVarDecl. intros H.
  apply bind_inv in H as (dims & c1 & _ & H).
  apply bind_inv in H as (init & c2 & _ & H).
  injection H as <- _. split; reflexivity.
Qed.

(** C6.  A visited variable declaration gets the mangling prefix in front
    of its identifier exactly when the structure nesting level is zero,
    the declaration is not flagged as shader input and its identifier is
    among the reserved ones; when one of the three fails, the identifier
    stays. *)
Theorem VisitVarDecl_renames (this this' : GLSLConverter) (ast ast' : VarDecl) :
  visitVarDecl ast this = Returned ast' this' ->
  let mustRename :=
    structDeclLevel_ this = 0 /\ vd_isShaderInput ast = false /\
    In (vd_ident ast) (reservedVarIdents_ this) in
  (MustRenameVarDecl this ast = true <-> mustRename) /\
  (mustRename -> vd_ident ast' = (nameManglingPrefix_ this ++ vd_ident ast)%string) /\
  (~ mustRename -> vd_ident ast' = vd_ident ast) /\
  (vd_ident ast' <> vd_ident ast -> mustRename).
Proof.
  intros H mustRename.
  assert (Hspec := MustRenameVarDecl_spec this ast). fold mustRename in Hspec.
  assert (Hid : vd_ident ast' =
                if MustRenameVarDecl this ast
                then (nameManglingPrefix_ this ++ vd_ident ast)%string
                else vd_ident ast).
  { unfold VisitVarDecl in H.
    apply bind_inv in H as (must & c1 & Hm & H).
    unfold gets in Hm. injection Hm as <- <-.
    apply bind_inv in H as (ast1 & c1 & Hr & H).
    apply Visitor_VisitVarDecl_ident in H as [H _]. rewrite H.
    destruct (MustRenameVarDecl this ast).
    - unfold RenameVarDecl, bind, gets, ret in Hr. injection Hr as <- _.
      now destruct (vd_initializer _).
    - unfold ret in Hr. injection Hr as <- _. now destruct (vd_initializer _). }
  split; [exact Hspec|]. split; [|split].
  - intros Hm. apply Hspec in Hm. now rewrite Hm in Hid.
  - intros Hm. destruct (MustRenameVarDecl this ast); [|exact Hid].
    elim Hm. now apply Hspec.
  - intros Hne. destruct (MustRenameVarDecl this ast); [now apply Hspec|].
    now elim Hne.
Qed.

(** *** Function calls *)

Local Abbreviation visitor_VisitFunctionCall :=
  (Visitor_VisitFunctionCall MustResolveStructForTarget GetTypeDenoter).
Local Abbreviation functionCall_rule := (FunctionCall_rule GetTypeDenoter).
Local Abbreviation exprContainsSampler := (ExprContainsSampler GetTypeDenoter).

(** The literals that the saturate rule appends are left alone by the
    traversal. *)
Lemma VisitExpr_MakeLiteralCastExpr (td : TypeDenoter) (value : string) c :
  back value <> Some "h"%char -> back value <> Some "H"%char ->
  visitExpr (MakeLiteralCastExpr td DataType.Int value) c
    = Returned (MakeLiteralCastExpr td DataType.Int value) c.
Proof.
  intros Hh HH. unfold MakeLiteralCastExpr. cbn [VisitExpr]. unfold bind, ret.
  now rewrite VisitLiteralExpr_other.
Qed.

Lemma VisitFunctionCall_unfold (ast : FunctionCall) (this : GLSLConverter) :
  visitFunctionCall ast this =
  (ast' <- functionCall_rule ast ;; visitor_VisitFunctionCall ast') this.
Proof.
  destruct ast as [a name intr args].
  unfold FunctionCall_rule, Visitor_VisitFunctionCall.
  cbn [VisitFunctionCall fc_intrinsic fc_arguments fc_area].
  destruct intr.
  - rewrite (bind_Returned _ _ _ _ _ eq_refl). cbn [fc_set_arguments fc_arguments].
    unfold bind at 1. rewrite eraseThenVisit_EraseIf. reflexivity.
  - destruct args as [|x [|y r]]; [reflexivity| |reflexivity].
    cbn [length Nat.eqb].
    destruct (TD.IsBase (TD.Get (GetTypeDenoter x))); [|reflexivity].
    rewrite (bind_Returned _ _ _ _ _ eq_refl).
    cbn [fc_set_arguments fc_set_intrinsic fc_arguments app mapM].
    rewrite bind_assoc. apply bind_cong. intros x' c1 _.
    cbv beta. repeat rewrite bind_assoc.
    rewrite (bind_Returned _ _ _ _ _
               (VisitExpr_MakeLiteralCastExpr _ "0" c1 ltac:(discriminate) ltac:(discriminate))).
    cbv beta. repeat rewrite bind_assoc.
    rewrite (bind_Returned _ _ _ _ _
               (VisitExpr_MakeLiteralCastExpr _ "1" c1 ltac:(discriminate) ltac:(discriminate))).
    reflexivity.
  - reflexivity.
  - reflexivity.
Qed.

Lemma FunctionCall_rule_saturate (this : GLSLConverter) a name args :
  functionCall_rule (mkFunctionCall a name Intrinsic.Saturate args) this =
  match args with
  | [x] =>
      if TD.IsBase (TD.Get (GetTypeDenoter x)) then
        Returned (mkFunctionCall a name Intrinsic.Clamp
                    [x; MakeLiteralCastExpr (TD.Get (GetTypeDenoter x)) DataType.Int "0";
                        MakeLiteralCastExpr (TD.Get (GetTypeDenoter x)) DataType.Int "1"])
                 this
      else Thrown (RuntimeError "invalid argument type denoter in intrinsic 'saturate'"
                                (expr_area x)) this
  | _ => Thrown (RuntimeError "invalid number of arguments in intrinsic 'saturate'" a) this
  end.
Proof.
  unfold FunctionCall_rule. cbn [fc_intrinsic fc_arguments fc_area].
  destruct args as [|x [|y r]]; [reflexivity| |reflexivity].
  cbn [length Nat.eqb]. destruct (TD.IsBase _); reflexivity.
Qed.

(** C4.  On a call tagged [Saturate] the rule of [VisitFunctionCall]
    succeeds if and only if there is exactly one argument and its resolved
    type denoter is a base type.  Then the call is retagged [Clamp] and
    gets two more arguments, the integer literals ["0"] and ["1"], each
    cast to the type of the argument, in that order, and the traversal goes
    on into the argument.  Otherwise the invalid-intrinsic error is thrown
    on the spot, with the converter as it was, no argument is visited, and
    the statements that follow in the enclosing block are not visited
    either: the block's visit ends with the same exception.  The visit of
    the call as a whole returns exactly when the rule succeeds and the
    traversal of the argument returns. *)
Theorem VisitFunctionCall_saturate (this : GLSLConverter) (a : SourceArea)
        (name : string) (args : list Expr) :
  let ast := mkFunctionCall a name Intrinsic.Saturate args in
  succeeded (functionCall_rule ast this) = saturateArgumentsValid GetTypeDenoter args /\
  (forall x, args = [x] -> TD.IsBase (TD.Get (GetTypeDenoter x)) = true ->
     let zero := MakeLiteralCastExpr (TD.Get (GetTypeDenoter x)) DataType.Int "0" in
     let one := MakeLiteralCastExpr (TD.Get (GetTypeDenoter x)) DataType.Int "1" in
     functionCall_rule ast this
       = Returned (mkFunctionCall a name Intrinsic.Clamp [x; zero; one]) this /\
     visitFunctionCall ast this
       = (x' <- visitExpr x ;;
          ret (mkFunctionCall a name Intrinsic.Clamp [x'; zero; one])) this) /\
  (saturateArgumentsValid GetTypeDenoter args = false ->
     exists e,
       invalidIntrinsic e /\
       visitFunctionCall ast this = Thrown e this /\
       forall a1 a2 a3 pre pre' rest c,
         mapM visitStmnt pre c = Returned pre' this ->
         VisitCodeBlock MustResolveStructForTarget GetTypeDenoter VarDecl_GetTypeDenoter
           (mkCodeBlock a1 (pre ++ ExprStmnt a2 (FunctionCallExpr a3 ast) :: rest)) c
         = Thrown e this) /\
  (succeeded (visitFunctionCall ast this) = true ->
     saturateArgumentsValid GetTypeDenoter args = true) /\
  (succeeded (visitFunctionCall ast this) = true <->
     exists x, args = [x] /\ TD.IsBase (TD.Get (GetTypeDenoter x)) = true /\
               succeeded (visitExpr x this) = true).
Proof.
  intros ast.
  assert (Hrule := FunctionCall_rule_saturate this a name args). fold ast in Hrule.
  assert (Hinvalid : saturateArgumentsValid GetTypeDenoter args = false ->
            exists e, invalidIntrinsic e /\ functionCall_rule ast this = Thrown e this).
  { intros Hv. rewrite Hrule. destruct args as [|x [|y r]].
    - eexists. split; [exists a; left; reflexivity|reflexivity].
    - simpl in Hv. rewrite Hv.
      eexists. split; [exists (expr_area x); right; reflexivity|reflexivity].
    - eexists. split; [exists a; left; reflexivity|reflexivity]. }
  assert (Hvalid : forall x, args = [x] ->
            TD.IsBase (TD.Get (GetTypeDenoter x)) = true ->
            visitFunctionCall ast this
            = (x' <- visitExpr x ;;
               ret (mkFunctionCall a name Intrinsic.Clamp
                      [x'; MakeLiteralCastExpr (TD.Get (GetTypeDenoter x)) DataType.Int "0";
                           MakeLiteralCastExpr (TD.Get (GetTypeDenoter x)) DataType.Int "1"]))
                this).
  { intros x -> Hbase. unfold ast. cbn [VisitFunctionCall]. now rewrite Hbase. }
  assert (Hsucc : succeeded (visitFunctionCall ast this) = true ->
            saturateArgumentsValid GetTypeDenoter args = true).
  { intros Hs. destruct (saturateArgumentsValid GetTypeDenoter args) eqn:Hv; [reflexivity|].
    destruct (Hinvalid eq_refl) as (e & _ & Hthrown).
    rewrite VisitFunctionCall_unfold, (bind_Thrown _ _ _ _ _ Hthrown) in Hs.
    discriminate Hs. }
  split; [|split; [|split; [|split]]].
  - rewrite Hrule. destruct args as [|x [|y r]]; try reflexivity.
    simpl. destruct (TD.IsBase _); reflexivity.
  - intros x Hargs Hbase zero one. split; [|now apply Hvalid].
    subst args. now rewrite Hrule, Hbase.
  - intros Hv. destruct (Hinvalid Hv) as (e & He & Hthrown).
    exists e. split; [exact He|].
    assert (Hcall : visitFunctionCall ast this = Thrown e this).
    { rewrite VisitFunctionCall_unfold. now apply bind_Thrown. }
    split; [exact Hcall|].
    intros a1 a2 a3 pre pre' rest c Hpre. cbn [VisitCodeBlock].
    apply bind_Thrown. eapply mapM_app_Thrown; [exact Hpre|].
    cbn [VisitStmnt]. apply bind_Thrown. cbn [VisitExpr]. now apply bind_Thrown.
  - exact Hsucc.
  - split.
    + intros Hs. assert (Hv := Hsucc Hs).
      destruct args as [|x [|y r]]; try discriminate Hv. simpl in Hv.
      exists x. split; [reflexivity|]. split; [exact Hv|].
      rewrite (Hvalid x eq_refl Hv) in Hs. unfold bind in Hs.
      now destruct (visitExpr x this).
    + intros (x & Hargs & Hbase & Hx). rewrite (Hvalid x Hargs Hbase).
      unfold bind. now destruct (visitExpr x this).
Qed.

(** *** Unary expressions *)

Lemma VisitUnaryExpr_unfold a op x this :
  visitExpr (UnaryExpr a op x) this =
  Visitor_VisitUnaryExpr MustResolveStructForTarget GetTypeDenoter a op
    (UnaryExpr_rule a x) this.
Proof.
  unfold Visitor_VisitUnaryExpr, UnaryExpr_rule. cbn [VisitExpr].
  destruct (IsUnaryExpr x); [|reflexivity].
  cbn [VisitExpr]. rewrite bind_assoc. apply bind_cong. intros x' c' _. reflexivity.
Qed.

(** *** Samplers *)

Local Abbreviation visitVarDeclStmnt :=
  (VisitVarDeclStmnt MustResolveStructForTarget GetTypeDenoter VarDecl_GetTypeDenoter).
Local Abbreviation visitFunctionDecl :=
  (VisitFunctionDecl MustResolveStructForTarget GetTypeDenoter VarDecl_GetTypeDenoter).
Local Abbreviation visitor_VisitFunctionDecl :=
  (Visitor_VisitFunctionDecl MustResolveStructForTarget GetTypeDenoter VarDecl_GetTypeDenoter).

Lemma EraseIf_Subsequence {A} (pred : A -> bool) (l : list A) :
  Subsequence (EraseIf pred l) l.
Proof.
  induction l as [|x l IH]; simpl; [constructor|].
  destruct (pred x); simpl; now constructor.
Qed.

Lemma EraseIf_In {A} (pred : A -> bool) (l : list A) (x : A) :
  In x (EraseIf pred l) <-> In x l /\ pred x = false.
Proof. unfold EraseIf. rewrite filter_In, negb_true_iff. reflexivity. Qed.

Lemma EraseIf_all {A} (pred : A -> bool) (l : list A) :
  forallb pred l = true -> EraseIf pred l = [].
Proof.
  induction l as [|x l IH]; simpl; [reflexivity|].
  intros H. apply andb_true_iff in H as [Hx Hl]. rewrite Hx. simpl. now apply IH.
Qed.

Lemma VisitVarDeclStmnt_typeDenoter (p p' : VarDeclStmnt) c c' :
  visitVarDeclStmnt p c = Returned p' c' ->
  vt_typeDenoter (vds_varType p') = vt_typeDenoter (vds_varType p).
Proof.
  destruct p as [a [td sd] decls]. cbn [VisitVarDeclStmnt VisitVarType]. intros H.
  apply bind_inv in H as (vt' & c1 & Hvt & H).
  apply bind_inv in H as (decls' & c2 & _ & H).
  injection H as <- _.
  apply bind_inv in Hvt as (sd' & c3 & _ & Hvt).
  injection Hvt as <- _. reflexivity.
Qed.

Lemma Forall2_typeDenoter (l l' : list VarDeclStmnt) :
  Forall2 (fun p p' => exists c1 c2, visitVarDeclStmnt p c1 = Returned p' c2) l l' ->
  map (fun p => vt_typeDenoter (vds_varType p)) l'
  = map (fun p => vt_typeDenoter (vds_varType p)) l.
Proof.
  induction 1 as [|p p' l l' (c1 & c2 & Hp) _ IH]; simpl; [reflexivity|].
  f_equal; [eapply VisitVarDeclStmnt_typeDenoter, Hp|exact IH].
Qed.

Lemma VisitFunctionDecl_reachable (ast ast' : FunctionDecl) c c' :
  fd_isReachable ast = true ->
  visitFunctionDecl ast c = Returned ast' c' ->
  exists c1 c2,
    visitor_VisitFunctionDecl
      (fd_set_parameters ast
         (EraseIf (fun p => VarTypeIsSampler (vds_varType p)) (fd_parameters ast))) c1
    = Returned ast' c2.
Proof.
  intros Hr. unfold VisitFunctionDecl. rewrite Hr. cbn [negb fd_set_parameters fd_isEntryPoint].
  destruct (fd_isEntryPoint ast); intros H.
  - apply bind_inv in H as (u & c1 & _ & H).
    apply bind_inv in H as (r & c2 & Hv & H).
    apply bind_inv in H as (u' & c3 & _ & H).
    injection H as <- _. now exists c1, c2.
  - now exists c, c'.
Qed.

(** The two erasures in terms of [EraseIf] and the predicates of the
    code. *)
Lemma EraseIf_samplers (this : GLSLConverter) :
  (forall a name args,
     let ast := mkFunctionCall a name Intrinsic.Undefined args in
     let kept := EraseIf exprContainsSampler args in
     functionCall_rule ast this
       = Returned (mkFunctionCall a name Intrinsic.Undefined kept) this /\
     visitFunctionCall ast this
       = visitor_VisitFunctionCall (mkFunctionCall a name Intrinsic.Undefined kept) this /\
     (forall ast' this',
        visitFunctionCall ast this = Returned ast' this' ->
        fc_intrinsic ast' = Intrinsic.Undefined /\
        Forall2 (fun x x' => exists c1 c2, visitExpr x c1 = Returned x' c2)
                kept (fc_arguments ast')) /\
     (forallb exprContainsSampler args = true ->
        visitFunctionCall ast this
          = Returned (mkFunctionCall a name Intrinsic.Undefined []) this)) /\
  (forall ast ast' this',
     fd_isReachable ast = true ->
     visitFunctionDecl ast this = Returned ast' this' ->
     let kept := EraseIf (fun p => VarTypeIsSampler (vds_varType p)) (fd_parameters ast) in
     Forall2 (fun p p' => exists c1 c2, visitVarDeclStmnt p c1 = Returned p' c2)
             kept (fd_parameters ast') /\
     map (fun p => vt_typeDenoter (vds_varType p)) (fd_parameters ast')
       = map (fun p => vt_typeDenoter (vds_varType p)) kept /\
     Forall (fun p => TD.IsSampler (vt_typeDenoter (vds_varType p)) = false)
            (fd_parameters ast')).
Proof.
  split.
  - intros a name args ast kept.
    assert (Hv : visitFunctionCall ast this
                 = visitor_VisitFunctionCall
                     (mkFunctionCall a name Intrinsic.Undefined kept) this).
    { rewrite VisitFunctionCall_unfold. reflexivity. }
    split; [reflexivity|]. split; [exact Hv|]. split.
    + intros ast' this' H. rewrite Hv in H. unfold Visitor_VisitFunctionCall in H.
      apply bind_inv in H as (args' & c1 & Hargs & H).
      injection H as <- _. split; [reflexivity|].
      cbn [fc_arguments fc_set_arguments] in *. eapply mapM_Forall2, Hargs.
    + intros Hall. rewrite Hv. unfold kept. now rewrite (EraseIf_all _ _ Hall).
  - intros ast ast' this' Hr H kept.
    apply (VisitFunctionDecl_reachable _ _ _ _ Hr) in H as (c1 & c2 & H).
    unfold Visitor_VisitFunctionDecl in H.
    apply bind_inv in H as (rt & c3 & _ & H).
    apply bind_inv in H as (ps & c4 & Hps & H).
    apply bind_inv in H as (cb & c5 & _ & H).
    injection H as <- _. cbn [fd_parameters fd_set_parameters] in *.
    apply mapM_Forall2 in Hps. fold kept in Hps.
    assert (Htd := Forall2_typeDenoter _ _ Hps).
    split; [exact Hps|]. split; [exact Htd|].
    assert (Hk : Forall (fun t => TD.IsSampler t = false)
                   (map (fun p => vt_typeDenoter (vds_varType p)) kept)).
    { apply Forall_map, Forall_forall. intros p Hp.
      apply EraseIf_In in Hp as [_ Hp]. exact Hp. }
    rewrite <- Htd in Hk. now apply Forall_map in Hk.
Qed.

(** The removal of the code is the removal of the specification: the
    predicates of the code pick the sampler entries, and [EraseIf] takes
    out the entries picked and nothing else. *)
Lemma EraseIf_withoutSamplers {A} (pred isSampler : A -> bool) (l : list A) :
  (forall x, pred x = isSampler x) ->
  EraseIf pred l = withoutSamplers isSampler l.
Proof.
  intros H. unfold EraseIf. induction l as [|x l IH]; simpl; [reflexivity|].
  rewrite H. destruct (isSampler x); simpl; now rewrite IH.
Qed.

Lemma ExprContainsSampler_argumentIsSampler (x : Expr) :
  exprContainsSampler x = argumentIsSampler GetTypeDenoter x.
Proof.
  unfold ExprContainsSampler, argumentIsSampler.
  now destruct (TD.Get (GetTypeDenoter x)).
Qed.

Lemma VarTypeIsSampler_parameterIsSampler (p : VarDeclStmnt) :
  VarTypeIsSampler (vds_varType p) = parameterIsSampler p.
Proof.
  unfold VarTypeIsSampler, parameterIsSampler.
  now destruct (vt_typeDenoter (vds_varType p)).
Qed.

Lemma withoutSamplers_Subsequence {A} (isSampler : A -> bool) (l : list A) :
  Subsequence (withoutSamplers isSampler l) l.
Proof.
  induction l as [|x l IH]; simpl; [constructor|].
  destruct (isSampler x); now constructor.
Qed.

Lemma withoutSamplers_In {A} (isSampler : A -> bool) (l : list A) (x : A) :
  In x (withoutSamplers isSampler l) <-> In x l /\ isSampler x = false.
Proof.
  rewrite <- (EraseIf_withoutSamplers isSampler isSampler l) by reflexivity.
  apply EraseIf_In.
Qed.

Lemma withoutSamplers_all {A} (isSampler : A -> bool) (l : list A) :
  forallb isSampler l = true -> withoutSamplers isSampler l = [].
Proof.
  rewrite <- (EraseIf_withoutSamplers isSampler isSampler l) by reflexivity.
  apply EraseIf_all.
Qed.

Lemma withoutSamplers_none {A} (isSampler : A -> bool) (l : list A) :
  forallb (fun x => negb (isSampler x)) l = true -> withoutSamplers isSampler l = l.
Proof.
  induction l as [|x l IH]; simpl; [reflexivity|].
  intros H. apply andb_true_iff in H as [Hx Hl].
  apply negb_true_iff in Hx. rewrite Hx. now rewrite IH.
Qed.

(** C8.  On a call whose intrinsic tag is [Undefined], the arguments that
    are visited and returned are the arguments of the call without those
    whose resolved type denoter is a sampler type: each such argument is
    removed, every other argument stays, in the original order, and a call
    whose arguments are all samplers returns with no argument.  On a
    reachable function declaration whose visit returns, the parameters
    returned are the visited parameters of the declaration without those
    whose declared type is a sampler type: each such parameter is removed
    and every other parameter stays, with its type, in the original
    order.  The test on an argument resolves the type denoter; the test on
    a parameter reads the type denoter of the declaration as it is written
    there. *)
Theorem samplers_erased (this : GLSLConverter) :
  (forall a name args,
     let ast := mkFunctionCall a name Intrinsic.Undefined args in
     let kept := withoutSamplers (argumentIsSampler GetTypeDenoter) args in
     functionCall_rule ast this
       = Returned (mkFunctionCall a name Intrinsic.Undefined kept) this /\
     visitFunctionCall ast this
       = visitor_VisitFunctionCall (mkFunctionCall a name Intrinsic.Undefined kept) this /\
     (forall ast' this',
        visitFunctionCall ast this = Returned ast' this' ->
        fc_intrinsic ast' = Intrinsic.Undefined /\
        Forall2 (fun x x' => exists c1 c2, visitExpr x c1 = Returned x' c2)
                kept (fc_arguments ast') /\
        length (fc_arguments ast') = length kept) /\
     (forallb (argumentIsSampler GetTypeDenoter) args = true ->
        visitFunctionCall ast this
          = Returned (mkFunctionCall a name Intrinsic.Undefined []) this) /\
     (forall x, In x kept <-> In x args /\ argumentIsSampler GetTypeDenoter x = false)) /\
  (forall ast ast' this',
     fd_isReachable ast = true ->
     visitFunctionDecl ast this = Returned ast' this' ->
     let kept := withoutSamplers parameterIsSampler (fd_parameters ast) in
     Forall2 (fun p p' => exists c1 c2, visitVarDeclStmnt p c1 = Returned p' c2)
             kept (fd_parameters ast') /\
     length (fd_parameters ast') = length kept /\
     map (fun p => vt_typeDenoter (vds_varType p)) (fd_parameters ast')
       = map (fun p => vt_typeDenoter (vds_varType p)) kept /\
     Forall (fun p => parameterIsSampler p = false) (fd_parameters ast') /\
     (forall p, In p kept <-> In p (fd_parameters ast) /\ parameterIsSampler p = false)) /\
  (forall (A : Type) (isSampler : A -> bool) (l : list A),
     Subsequence (withoutSamplers isSampler l) l /\
     (forall x, In x (withoutSamplers isSampler l) <-> In x l /\ isSampler x = false) /\
     (forallb isSampler l = true -> withoutSamplers isSampler l = []) /\
     (forallb (fun x => negb (isSampler x)) l = true -> withoutSamplers isSampler l = l)).
Proof.
  destruct (EraseIf_samplers this) as [Hcall Hdecl].
  split; [|split].
  - intros a name args ast kept.
    assert (Hk : EraseIf exprContainsSampler args = kept)
      by apply EraseIf_withoutSamplers, ExprContainsSampler_argumentIsSampler.
    destruct (Hcall a name args) as (Hrule & Hvisit & Hret & Hall).
    cbv zeta in Hrule, Hvisit, Hret, Hall. rewrite Hk in Hrule, Hvisit, Hret.
    split; [exact Hrule|]. split; [exact Hvisit|]. split; [|split].
    + intros ast' this' H. destruct (Hret ast' this' H) as [Hi Hf].
      split; [exact Hi|]. split; [exact Hf|].
      symmetry. eapply Forall2_length, Hf.
    + intros Hs. apply Hall. rewrite <- Hs.
      clear. induction args as [|x r IH]; simpl; [reflexivity|].
      now rewrite IH, ExprContainsSampler_argumentIsSampler.
    + intros x. apply withoutSamplers_In.
  - intros ast ast' this' Hr H kept.
    assert (Hk : EraseIf (fun p => VarTypeIsSampler (vds_varType p)) (fd_parameters ast)
                 = kept)
      by apply EraseIf_withoutSamplers, VarTypeIsSampler_parameterIsSampler.
    destruct (Hdecl ast ast' this' Hr H) as (Hf & Htd & Hno).
    cbv zeta in Hf, Htd. rewrite Hk in Hf, Htd.
    split; [exact Hf|]. split; [symmetry; eapply Forall2_length, Hf|].
    split; [exact Htd|]. split.
    + apply Forall_forall. intros p Hp.
      rewrite <- VarTypeIsSampler_parameterIsSampler.
      revert p Hp. apply Forall_forall. exact Hno.
    + intros p. apply withoutSamplers_In.
  - intros A isSampler l. split; [apply withoutSamplers_Subsequence|].
    split; [intros x; apply withoutSamplers_In|].
    split; [apply withoutSamplers_all|apply withoutSamplers_none].
Qed.

(** *** Bodies of loops and conditionals *)

Local Abbreviation visitElseStmnt :=
  (VisitElseStmnt MustResolveStructForTarget GetTypeDenoter VarDecl_GetTypeDenoter).
Local Abbreviation visitCodeBlock :=
  (VisitCodeBlock MustResolveStructForTarget GetTypeDenoter VarDecl_GetTypeDenoter).

Lemma MakeCodeBlockInEntryPointReturnStmnt_spec (bodyStmnt : Stmnt) (this : GLSLConverter) :
  MakeCodeBlockInEntryPointReturnStmnt bodyStmnt this =
  Returned (if (isInsideEntryPoint_ this && IsReturnStmnt bodyStmnt)%bool
            then blockOf bodyStmnt else bodyStmnt) this.
Proof.
  unfold MakeCodeBlockInEntryPointReturnStmnt, bind, gets, blockOf.
  destruct (isInsideEntryPoint_ this), (IsReturnStmnt bodyStmnt); reflexivity.
Qed.

(** The traversal of the body slot after the rule: the block made around a
    return statement is traversed down to the statement. *)
Lemma VisitStmnt_wrapped_body (inside : bool) (b : Stmnt) c :
  visitStmnt (if (inside && IsReturnStmnt b)%bool then blockOf b else b) c =
  (b' <- visitStmnt b ;; ret (bodyAfterVisit inside b b')) c.
Proof.
  unfold bodyAfterVisit.
  destruct (inside && IsReturnStmnt b)%bool eqn:E.
  - unfold blockOf. cbn [VisitStmnt VisitCodeBlock mapM].
    repeat rewrite bind_assoc. apply bind_cong. intros b' c' _. reflexivity.
  - unfold bind. now destruct (visitStmnt b c).
Qed.

Lemma VisitForLoopStmnt_unfold a i cond it b this :
  visitStmnt (ForLoopStmnt a i cond it b) this =
  VisitForLoopStmnt MustResolveStructForTarget GetTypeDenoter VarDecl_GetTypeDenoter
    a i cond it b this.
Proof.
  unfold VisitForLoopStmnt, Visitor_VisitForLoopStmnt.
  rewrite (bind_Returned _ _ _ _ _ (MakeCodeBlockInEntryPointReturnStmnt_spec b this)).
  cbn [VisitStmnt]. rewrite bind_gets.
  apply bind_cong. intros i' c1 _. apply bind_cong. intros cond' c2 _.
  apply bind_cong. intros it' c3 _.
  cbv beta. rewrite (bind_cong_l _ _ _ _ (VisitStmnt_wrapped_body _ _ _)), bind_assoc. reflexivity.
Qed.

Lemma VisitWhileLoopStmnt_unfold a cond b this :
  visitStmnt (WhileLoopStmnt a cond b) this =
  VisitWhileLoopStmnt MustResolveStructForTarget GetTypeDenoter VarDecl_GetTypeDenoter
    a cond b this.
Proof.
  unfold VisitWhileLoopStmnt, Visitor_VisitWhileLoopStmnt.
  rewrite (bind_Returned _ _ _ _ _ (MakeCodeBlockInEntryPointReturnStmnt_spec b this)).
  cbn [VisitStmnt]. rewrite bind_gets.
  apply bind_cong. intros cond' c2 _.
  cbv beta. rewrite (bind_cong_l _ _ _ _ (VisitStmnt_wrapped_body _ _ _)), bind_assoc. reflexivity.
Qed.

Lemma VisitDoWhileLoopStmnt_unfold a b cond this :
  visitStmnt (DoWhileLoopStmnt a b cond) this =
  VisitDoWhileLoopStmnt MustResolveStructForTarget GetTypeDenoter VarDecl_GetTypeDenoter
    a b cond this.
Proof.
  unfold VisitDoWhileLoopStmnt, Visitor_VisitDoWhileLoopStmnt.
  rewrite (bind_Returned _ _ _ _ _ (MakeCodeBlockInEntryPointReturnStmnt_spec b this)).
  cbn [VisitStmnt]. rewrite bind_gets.
  cbv beta. rewrite (bind_cong_l _ _ _ _ (VisitStmnt_wrapped_body _ _ _)), bind_assoc. reflexivity.
Qed.

Lemma VisitIfStmnt_unfold a cond b els this :
  visitStmnt (IfStmnt a cond b els) this =
  VisitIfStmnt MustResolveStructForTarget GetTypeDenoter VarDecl_GetTypeDenoter
    a cond b els this.
Proof.
  unfold VisitIfStmnt, Visitor_VisitIfStmnt.
  rewrite (bind_Returned _ _ _ _ _ (MakeCodeBlockInEntryPointReturnStmnt_spec b this)).
  cbn [VisitStmnt]. rewrite bind_gets.
  apply bind_cong. intros cond' c2 _.
  cbv beta. rewrite (bind_cong_l _ _ _ _ (VisitStmnt_wrapped_body _ _ _)), bind_assoc.
  apply bind_cong. intros b' c3 _.
  unfold bind, ret, optM.
  destruct els as [e|]; [destruct (visitElseStmnt e c3)|]; reflexivity.
Qed.

Lemma VisitElseStmnt_unfold a b this :
  visitElseStmnt (mkElseStmnt a b) this =
  VisitElseStmnt_rule MustResolveStructForTarget GetTypeDenoter VarDecl_GetTypeDenoter
    a b this.
Proof.
  unfold VisitElseStmnt_rule, Visitor_VisitElseStmnt.
  rewrite (bind_Returned _ _ _ _ _ (MakeCodeBlockInEntryPointReturnStmnt_spec b this)).
  cbn [VisitElseStmnt]. rewrite bind_gets.
  cbv beta. rewrite (bind_cong_l _ _ _ _ (VisitStmnt_wrapped_body _ _ _)), bind_assoc. reflexivity.
Qed.

Lemma VisitStmnt_ReturnStmnt ar e s' c c' :
  visitStmnt (ReturnStmnt ar e) c = Returned s' c' ->
  exists e', s' = ReturnStmnt ar e'.
Proof.
  cbn [VisitStmnt]. intros H. apply bind_inv in H as (e' & c1 & _ & H).
  injection H as <- _. now exists e'.
Qed.

(** The body slot after the visit, with the block described on the visited
    statement. *)
Lemma bodyAfterVisit_blockOf (inside : bool) (b b' : Stmnt) c c' :
  visitStmnt b c = Returned b' c' ->
  bodyAfterVisit inside b b' =
    (if (inside && IsReturnStmnt b)%bool then blockOf b' else b') /\
  IsReturnStmnt b' = IsReturnStmnt b.
Proof.
  intros H. unfold bodyAfterVisit, blockOf.
  destruct b; try (split; [now rewrite andb_false_r|]);
    try (cbn [VisitStmnt] in H; apply bind_inv in H as (? & ? & _ & H);
         now injection H as <- _).
  - cbn [VisitStmnt] in H. now injection H as <- _.
  - cbn [VisitStmnt] in H. apply bind_inv in H as (? & ? & _ & H).
    apply bind_inv in H as (? & ? & _ & H). apply bind_inv in H as (? & ? & _ & H).
    apply bind_inv in H as (? & ? & _ & H). apply bind_inv in H as (? & ? & _ & H).
    now injection H as <- _.
  - cbn [VisitStmnt] in H. apply bind_inv in H as (? & ? & _ & H).
    apply bind_inv in H as (? & ? & _ & H). apply bind_inv in H as (? & ? & _ & H).
    now injection H as <- _.
  - cbn [VisitStmnt] in H. apply bind_inv in H as (? & ? & _ & H).
    apply bind_inv in H as (? & ? & _ & H). apply bind_inv in H as (? & ? & _ & H).
    now injection H as <- _.
  - cbn [VisitStmnt] in H. apply bind_inv in H as (? & ? & _ & H).
    apply bind_inv in H as (? & ? & _ & H). apply bind_inv in H as (? & ? & _ & H).
    apply bind_inv in H as (? & ? & _ & H).
    now injection H as <- _.
Qed.

Lemma VisitStmnt_bodySlot (s b s' : Stmnt) this this' :
  bodySlot s = Some b ->
  visitStmnt s this = Returned s' this' ->
  exists b' c1 c2,
    visitStmnt b c1 = Returned b' c2 /\
    bodySlot s' = Some (bodyAfterVisit (isInsideEntryPoint_ this) b b').
Proof.
  destruct s; try discriminate; intros [= ->]; cbn [VisitStmnt]; rewrite bind_gets; intros H.
  - apply bind_inv in H as (i' & c1 & _ & H). apply bind_inv in H as (cond' & c2 & _ & H).
    apply bind_inv in H as (it' & c3 & _ & H). apply bind_inv in H as (b' & c4 & Hb & H).
    injection H as <- _. now exists b', c3, c4.
  - apply bind_inv in H as (cond' & c2 & _ & H). apply bind_inv in H as (b' & c4 & Hb & H).
    injection H as <- _. now exists b', c2, c4.
  - apply bind_inv in H as (b' & c4 & Hb & H). apply bind_inv in H as (cond' & c2 & _ & H).
    injection H as <- _. now exists b', this, c4.
  - apply bind_inv in H as (cond' & c2 & _ & H). apply bind_inv in H as (b' & c4 & Hb & H).
    apply bind_inv in H as (els' & c5 & _ & H).
    injection H as <- _. now exists b', c2, c4.
Qed.

(** C7.  [MakeCodeBlockInEntryPointReturnStmnt] puts a return statement
    into a block that holds just that statement when the converter is
    inside the entry point, and hands every other body, and every body
    outside the entry point, back as it is.  The visits of the for loop,
    the while loop, the do-while loop, the if and the else statement apply
    it to their body slot and then traverse the statement.  Hence after the
    visit the body slot holds the block around the visited return statement
    in the first case and the visited body itself in the others. *)
Theorem return_body_in_entry_point (this : GLSLConverter) :
  (forall b,
     MakeCodeBlockInEntryPointReturnStmnt b this =
       Returned (if (isInsideEntryPoint_ this && IsReturnStmnt b)%bool
                 then blockOf b else b) this) /\
  (forall a i cond it b,
     visitStmnt (ForLoopStmnt a i cond it b) this =
       VisitForLoopStmnt MustResolveStructForTarget GetTypeDenoter VarDecl_GetTypeDenoter
         a i cond it b this) /\
  (forall a cond b,
     visitStmnt (WhileLoopStmnt a cond b) this =
       VisitWhileLoopStmnt MustResolveStructForTarget GetTypeDenoter VarDecl_GetTypeDenoter
         a cond b this) /\
  (forall a b cond,
     visitStmnt (DoWhileLoopStmnt a b cond) this =
       VisitDoWhileLoopStmnt MustResolveStructForTarget GetTypeDenoter VarDecl_GetTypeDenoter
         a b cond this) /\
  (forall a cond b els,
     visitStmnt (IfStmnt a cond b els) this =
       VisitIfStmnt MustResolveStructForTarget GetTypeDenoter VarDecl_GetTypeDenoter
         a cond b els this) /\
  (forall a b,
     visitElseStmnt (mkElseStmnt a b) this =
       VisitElseStmnt_rule MustResolveStructForTarget GetTypeDenoter VarDecl_GetTypeDenoter
         a b this) /\
  (forall s b s' this',
     bodySlot s = Some b ->
     visitStmnt s this = Returned s' this' ->
     exists b' c1 c2,
       visitStmnt b c1 = Returned b' c2 /\
       IsReturnStmnt b' = IsReturnStmnt b /\
       bodySlot s' = Some (if (isInsideEntryPoint_ this && IsReturnStmnt b)%bool
                           then blockOf b' else b')) /\
  (forall a b s' this',
     visitElseStmnt (mkElseStmnt a b) this = Returned s' this' ->
     exists b' c1 c2,
       visitStmnt b c1 = Returned b' c2 /\
       IsReturnStmnt b' = IsReturnStmnt b /\
       es_bodyStmnt s' = (if (isInsideEntryPoint_ this && IsReturnStmnt b)%bool
                          then blockOf b' else b')).
Proof.
  split; [intros b; apply MakeCodeBlockInEntryPointReturnStmnt_spec|].
  split; [intros; apply VisitForLoopStmnt_unfold|].
  split; [intros; apply VisitWhileLoopStmnt_unfold|].
  split; [intros; apply VisitDoWhileLoopStmnt_unfold|].
  split; [intros; apply VisitIfStmnt_unfold|].
  split; [intros; apply VisitElseStmnt_unfold|].
  split.
  - intros s b s' this' Hslot H.
    destruct (VisitStmnt_bodySlot _ _ _ _ _ Hslot H) as (b' & c1 & c2 & Hb & Hs').
    destruct (bodyAfterVisit_blockOf (isInsideEntryPoint_ this) _ _ _ _ Hb) as [Heq Hret].
    exists b', c1, c2. rewrite Hs', Heq. now repeat split.
  - intros a b s' this' H. cbn [VisitElseStmnt] in H. rewrite bind_gets in H.
    apply bind_inv in H as (b' & c2 & Hb & H). injection H as <- _.
    destruct (bodyAfterVisit_blockOf (isInsideEntryPoint_ this) _ _ _ _ Hb) as [Heq Hret].
    exists b', this, c2. cbn [es_bodyStmnt]. rewrite Heq. now repeat split.
Qed.

(** *** The settings during the traversal *)

Local Abbreviation visitVarIdent := (VisitVarIdent MustResolveStructForTarget).
Local Abbreviation visitStructDecl :=
  (VisitStructDecl MustResolveStructForTarget GetTypeDenoter VarDecl_GetTypeDenoter).
Local Abbreviation visitVarType :=
  (VisitVarType MustResolveStructForTarget GetTypeDenoter VarDecl_GetTypeDenoter).
Local Abbreviation visitGlobalStmnt :=
  (VisitGlobalStmnt MustResolveStructForTarget GetTypeDenoter VarDecl_GetTypeDenoter).
Local Abbreviation visitor_VisitProgram :=
  (Visitor_VisitProgram MustResolveStructForTarget GetTypeDenoter VarDecl_GetTypeDenoter).
Local Abbreviation visitProgram :=
  (VisitProgram MustResolveStructForTarget GetTypeDenoter VarDecl_GetTypeDenoter).
Local Abbreviation convert :=
  (Convert MustResolveStructForTarget GetTypeDenoter VarDecl_GetTypeDenoter).

Lemma VisitVarIdent_keeps (ast : VarIdent) : keeps (visitVarIdent ast).
Proof.
  intros c. unfold VisitVarIdent.
  destruct (vi_next ast), (vi_symbolRef ast) as [[d|]|]; simpl; try reflexivity.
  destruct (TD.AsStruct _); [destruct (MustResolveStruct _ _ _)|]; reflexivity.
Qed.

Lemma VisitExpr_keeps (e : Expr) : keeps (visitExpr e).
Proof.
  induction e using Expr_tree_ind
    with (Q := fun c => keeps (visitFunctionCall c)); cbn [VisitExpr VisitFunctionCall].
  - apply keeps_ret.
  - apply keeps_bind; [assumption|intros l'].
    apply keeps_bind; [assumption|intros r']. apply keeps_ret.
  - apply keeps_bind; [assumption|intros x']. apply keeps_ret.
  - apply keeps_bind; [assumption|intros x']. apply keeps_ret.
  - apply keeps_bind; [assumption|intros x']. apply keeps_ret.
  - apply keeps_bind; [assumption|intros c']. apply keeps_ret.
  - apply keeps_bind; [apply VisitVarIdent_keeps|intros vi'].
    apply keeps_bind.
    + destruct ae; [|apply keeps_ret].
      apply keeps_bind; [assumption|intros x']. apply keeps_ret.
    + intros [x'|]; apply keeps_ret.
  - destruct intr.
    + apply keeps_bind; [now apply keeps_eraseThenVisit|intros]. apply keeps_ret.
    + destruct args as [|x [|y r]]; try apply keeps_RuntimeErr.
      destruct (TD.IsBase _); [|apply keeps_RuntimeErr].
      apply keeps_bind; [now inversion H|intros]. apply keeps_ret.
    + apply keeps_bind; [now apply keeps_mapM|intros]. apply keeps_ret.
    + apply keeps_bind; [now apply keeps_mapM|intros]. apply keeps_ret.
Qed.

Lemma VisitVarDecl_keeps (ast : VarDecl) : keeps (visitVarDecl ast).
Proof.
  unfold VisitVarDecl. apply keeps_bind; [apply keeps_gets|intros must].
  apply keeps_bind.
  - destruct must; [|apply keeps_ret]. unfold RenameVarDecl.
    apply keeps_bind; [apply keeps_gets|intros]. apply keeps_ret.
  - intros ast1. unfold Visitor_VisitVarDecl.
    apply keeps_bind.
    { apply keeps_mapM, Forall_forall. intros; apply VisitExpr_keeps. }
    intros dims. apply keeps_bind; [apply keeps_optM, VisitExpr_keeps|intros].
    apply keeps_ret.
Qed.

Lemma VisitStructDecl_keeps (ast : StructDecl) : keeps (visitStructDecl ast).
Proof.
  induction ast using StructDecl_tree_ind
    with (Q := fun s => keeps (visitVarDeclStmnt s))
         (R := fun t => keeps (visitVarType t));
    cbn [VisitStructDecl VisitVarDeclStmnt VisitVarType].
  - apply keeps_bind; [now apply keeps_modify|intros _].
    apply keeps_bind; [now apply keeps_mapM|intros members'].
    apply keeps_bind; [now apply keeps_modify|intros _]. apply keeps_ret.
  - apply keeps_bind; [assumption|intros vt'].
    apply keeps_bind.
    { apply keeps_mapM, Forall_forall. intros; apply VisitVarDecl_keeps. }
    intros. apply keeps_ret.
  - apply keeps_bind; [|intros; apply keeps_ret].
    destruct sd; [|apply keeps_ret].
    apply keeps_bind; [assumption|intros; apply keeps_ret].
Qed.

Lemma VisitVarType_keeps (ast : VarType) : keeps (visitVarType ast).
Proof.
  destruct ast as [td sd]. cbn [VisitVarType].
  apply keeps_bind; [|intros; apply keeps_ret].
  destruct sd; [|apply keeps_ret].
  apply keeps_bind; [apply VisitStructDecl_keeps|intros; apply keeps_ret].
Qed.

Lemma VisitVarDeclStmnt_keeps (ast : VarDeclStmnt) : keeps (visitVarDeclStmnt ast).
Proof.
  destruct ast as [a vt decls]. cbn [VisitVarDeclStmnt].
  apply keeps_bind; [apply VisitVarType_keeps|intros vt'].
  apply keeps_bind; [|intros; apply keeps_ret].
  apply keeps_mapM, Forall_forall. intros; apply VisitVarDecl_keeps.
Qed.

Lemma VisitStmnt_keeps (ast : Stmnt) : keeps (visitStmnt ast).
Proof.
  induction ast using Stmnt_tree_ind
    with (Q := fun e => keeps (visitElseStmnt e))
         (R := fun cb => keeps (visitCodeBlock cb));
    cbn [VisitStmnt VisitElseStmnt VisitCodeBlock].
  - apply keeps_ret.
  - apply keeps_bind; [assumption|intros; apply keeps_ret].
  - apply keeps_bind; [apply keeps_gets|intros inside].
    apply keeps_bind; [assumption|intros].
    apply keeps_bind; [apply keeps_optM, VisitExpr_keeps|intros].
    apply keeps_bind; [apply keeps_optM, VisitExpr_keeps|intros].
    apply keeps_bind; [assumption|intros; apply keeps_ret].
  - apply keeps_bind; [apply keeps_gets|intros inside].
    apply keeps_bind; [apply VisitExpr_keeps|intros].
    apply keeps_bind; [assumption|intros; apply keeps_ret].
  - apply keeps_bind; [apply keeps_gets|intros inside].
    apply keeps_bind; [assumption|intros].
    apply keeps_bind; [apply VisitExpr_keeps|intros; apply keeps_ret].
  - apply keeps_bind; [apply keeps_gets|intros inside].
    apply keeps_bind; [apply VisitExpr_keeps|intros].
    apply keeps_bind; [assumption|intros].
    apply keeps_bind; [|intros; apply keeps_ret].
    destruct els; [|apply keeps_ret].
    apply keeps_bind; [assumption|intros; apply keeps_ret].
  - apply keeps_bind; [apply VisitExpr_keeps|intros; apply keeps_ret].
  - apply keeps_bind; [apply keeps_optM, VisitExpr_keeps|intros; apply keeps_ret].
  - apply keeps_bind; [apply VisitVarDeclStmnt_keeps|intros; apply keeps_ret].
  - apply keeps_bind; [apply VisitStructDecl_keeps|intros; apply keeps_ret].
  - apply keeps_bind; [apply keeps_gets|intros inside].
    apply keeps_bind; [assumption|intros; apply keeps_ret].
  - apply keeps_bind; [now apply keeps_mapM|intros; apply keeps_ret].
Qed.

Lemma VisitCodeBlock_keeps (ast : CodeBlock) : keeps (visitCodeBlock ast).
Proof.
  destruct ast as [a stmnts]. cbn [VisitCodeBlock].
  apply keeps_bind; [|intros; apply keeps_ret].
  apply keeps_mapM, Forall_forall. intros; apply VisitStmnt_keeps.
Qed.

Lemma VisitFunctionDecl_keeps (ast : FunctionDecl) : keeps (visitFunctionDecl ast).
Proof.
  assert (Hv : forall f, keeps (visitor_VisitFunctionDecl f)).
  { intros f. unfold Visitor_VisitFunctionDecl.
    apply keeps_bind; [apply VisitVarType_keeps|intros].
    apply keeps_bind.
    { apply keeps_mapM, Forall_forall. intros; apply VisitVarDeclStmnt_keeps. }
    intros. apply keeps_bind; [apply keeps_optM, VisitCodeBlock_keeps|intros].
    apply keeps_ret. }
  unfold VisitFunctionDecl. destruct (negb _); [apply keeps_ret|].
  destruct (fd_isEntryPoint _); [|apply Hv].
  apply keeps_bind; [now apply keeps_modify|intros _].
  apply keeps_bind; [apply Hv|intros].
  apply keeps_bind; [now apply keeps_modify|intros _]. apply keeps_ret.
Qed.

Lemma Visitor_VisitProgram_keeps (ast : Program) : keeps (visitor_VisitProgram ast).
Proof.
  unfold Visitor_VisitProgram. apply keeps_bind; [|intros; apply keeps_ret].
  apply keeps_mapM, Forall_forall. intros [f|s] _; cbn [VisitGlobalStmnt].
  - apply keeps_bind; [apply VisitFunctionDecl_keeps|intros; apply keeps_ret].
  - apply keeps_bind; [apply VisitStmnt_keeps|intros; apply keeps_ret].
Qed.

Lemma VisitProgram_unfold (ast : Program) (this : GLSLConverter) :
  visitProgram ast this =
  visitor_VisitProgram ast
    (set_reservedVarIdents (reservedVarIdents_ this ++ semanticIdents ast) this).
Proof.
  unfold VisitProgram, semanticIdents.
  rewrite (bind_Returned _ _ _ _ _ (RegisterReservedVarIdents_app _ _)).
  rewrite (bind_Returned _ _ _ _ _ (RegisterReservedVarIdents_app _ _)).
  cbn [set_reservedVarIdents reservedVarIdents_ shaderTarget_ nameManglingPrefix_
       isInsideEntryPoint_ structDeclLevel_].
  now rewrite app_assoc.
Qed.

(** C2.  [VisitProgram] first appends the identifier of every variable in
    the input semantics and in the output semantics of the entry point to
    [reservedVarIdents_], and only then starts the traversal of the
    program: the default visitor runs on the converter that already holds
    all of them, no visit changes the list, and it is still the same list
    when the traversal is over, or has been aborted. *)
Theorem VisitProgram_registers (this : GLSLConverter) (ast : Program) :
  let registered :=
    set_reservedVarIdents (reservedVarIdents_ this ++ semanticIdents ast) this in
  visitProgram ast this = visitor_VisitProgram ast registered /\
  Forall (fun v => In (ref_ident v) (reservedVarIdents_ registered))
         (varDeclRefsSV (inputSemantics (entryPointRef ast)) ++
          varDeclRefsSV (outputSemantics (entryPointRef ast))) /\
  keeps (visitor_VisitProgram ast) /\
  reservedVarIdents_ (state_of (visitProgram ast this))
    = reservedVarIdents_ this ++ semanticIdents ast.
Proof.
  intros registered. split; [apply VisitProgram_unfold|]. split; [|split].
  - apply Forall_forall. intros v Hv. unfold registered, semanticIdents. simpl.
    apply in_or_app. right. rewrite <- map_app. now apply in_map.
  - apply Visitor_VisitProgram_keeps.
  - rewrite VisitProgram_unfold.
    assert (H := Visitor_VisitProgram_keeps ast registered).
    unfold settings in H. injection H as _ _ H. unfold registered in H.
    rewrite H. reflexivity.
Qed.

(** C5 (as amended).  [Convert] stores the target and the prefix and
    visits the program; it does not reset [reservedVarIdents_].  The
    traversal therefore runs with the identifiers the converter already
    held followed by those registered by this call.  On a newly built
    converter the list is empty when [Convert] starts, and during and after
    the traversal it holds the identifiers registered by this call and no
    others. *)
Theorem Convert_context (this : GLSLConverter) (program : Program)
        (shaderTarget : ShaderTarget) (prefix : string) :
  convert program shaderTarget prefix this
    = visitor_VisitProgram program
        (mkGLSLConverter shaderTarget prefix (isInsideEntryPoint_ this)
           (reservedVarIdents_ this ++ semanticIdents program) (structDeclLevel_ this)) /\
  settings (state_of (convert program shaderTarget prefix this))
    = (shaderTarget, prefix, reservedVarIdents_ this ++ semanticIdents program) /\
  reservedVarIdents_ newGLSLConverter = [] /\
  convert program shaderTarget prefix newGLSLConverter
    = visitor_VisitProgram program
        (mkGLSLConverter shaderTarget prefix false (semanticIdents program) 0) /\
  reservedVarIdents_ (state_of (convert program shaderTarget prefix newGLSLConverter))
    = semanticIdents program.
Proof.
  assert (H : forall c,
            convert program shaderTarget prefix c
            = visitor_VisitProgram program
                (mkGLSLConverter shaderTarget prefix (isInsideEntryPoint_ c)
                   (reservedVarIdents_ c ++ semanticIdents program) (structDeclLevel_ c))).
  { intros c. unfold Convert. rewrite !bind_modify.
    apply VisitProgram_unfold. }
  assert (K : forall c,
            settings (state_of (convert program shaderTarget prefix c))
            = (shaderTarget, prefix, reservedVarIdents_ c ++ semanticIdents program)).
  { intros c. rewrite H. now rewrite Visitor_VisitProgram_keeps. }
  split; [apply H|]. split; [apply K|]. split; [reflexivity|].
  split; [apply H|].
  specialize (K newGLSLConverter). unfold settings in K. injection K as _ _ K.
  exact K.
Qed.

End Properties.

Lemma VisitLiteralExpr_half_suffix_witness :
  VisitExpr Sample.mustResolve (fun _ => VoidTypeDenoter)
            (LiteralExpr 7 (DataType.Other 0) "2.5H") newGLSLConverter
    = Returned (LiteralExpr 7 DataType.Float "2.5f") newGLSLConverter /\
  VisitExpr Sample.mustResolve (fun _ => VoidTypeDenoter)
            (LiteralExpr 7 DataType.Int "42") newGLSLConverter
    = Returned (LiteralExpr 7 DataType.Int "42") newGLSLConverter.
Proof.
  split.
  - apply (proj1 (VisitLiteralExpr_half_suffix Sample.mustResolve (fun _ => VoidTypeDenoter)
                    newGLSLConverter 7 (DataType.Other 0)) "2.5" "H"%char).
    right. reflexivity.
  - apply (proj1 (proj2 (VisitLiteralExpr_half_suffix Sample.mustResolve
                    (fun _ => VoidTypeDenoter) newGLSLConverter 7 DataType.Int)) "42").
    intros pre. split; intros H.
    + assert (Hb : back "42" = back (pre ++ "h")) by now rewrite <- H.
      rewrite back_app_last in Hb. discriminate Hb.
    + assert (Hb : back "42" = back (pre ++ "H")) by now rewrite <- H.
      rewrite back_app_last in Hb. discriminate Hb.
Defined.

(** A spelling that is no floating-point literal at all, with the integer
    data type, is rewritten all the same. *)
Lemma VisitLiteralExpr_last_character_witness :
  VisitExpr Sample.mustResolve (fun _ => VoidTypeDenoter)
            (LiteralExpr 3 DataType.Int "0x1Fh") newGLSLConverter
    = Returned (LiteralExpr 3 DataType.Float "0x1Ff") newGLSLConverter.
Proof.
  apply (proj2 (proj2 (proj2 (VisitLiteralExpr_last_character Sample.mustResolve
           (fun _ => VoidTypeDenoter) newGLSLConverter 3 DataType.Int "0x1Fh")))
           "0x1F" "h"%char).
  - left. reflexivity.
  - reflexivity.
Defined.

(** [u + i]: the right operand is wrapped in a cast to [UInt]; [i + u]
    the other way round; [u + f] and [f + i] are left alone. *)
Lemma ConvertExprIfCastRequired_sites_witness :
  ConvertExprIfCastRequired Sample.getTypeDenoter Sample.intVar
      (BaseTypeDenoter DataType.UInt) <> Sample.intVar /\
  VisitExpr Sample.mustResolve Sample.getTypeDenoter
      (BinaryExpr 5 Sample.uintVar 0 Sample.intVar) newGLSLConverter
    = Returned (BinaryExpr 5 Sample.uintVar 0
                  (CastExpr SourceArea_ignore (BaseTypeDenoter DataType.UInt)
                            Sample.intVar)) newGLSLConverter /\
  VisitExpr Sample.mustResolve Sample.getTypeDenoter
      (BinaryExpr 5 Sample.intVar 0 Sample.uintVar) newGLSLConverter
    = Returned (BinaryExpr 5 Sample.intVar 0
                  (CastExpr SourceArea_ignore (BaseTypeDenoter DataType.Int)
                            Sample.uintVar)) newGLSLConverter /\
  VisitExpr Sample.mustResolve Sample.getTypeDenoter
      (BinaryExpr 5 Sample.uintVar 0 Sample.floatVar) newGLSLConverter
    = Returned (BinaryExpr 5 Sample.uintVar 0 Sample.floatVar) newGLSLConverter.
Proof.
  pose proof (ConvertExprIfCastRequired_sites Sample.mustResolve Sample.getTypeDenoter
                Sample.varDeclType newGLSLConverter) as (_ & Hiff & Hbin & _).
  split; [|split; [|split]].
  - apply Hiff. reflexivity.
  - rewrite Hbin. reflexivity.
  - rewrite Hbin. reflexivity.
  - rewrite Hbin. reflexivity.
Defined.

(** [uint pos = i;] at the top level becomes [uint xsc_pos = uint(i);]. *)
Lemma VisitVarDecl_renames_witness :
  VisitVarDecl Sample.mustResolve Sample.getTypeDenoter Sample.varDeclType
               Sample.posDecl Sample.inPass
    = Returned (mkVarDecl 2 "xsc_pos" false false (BaseTypeDenoter DataType.UInt) []
                  (Some (CastExpr SourceArea_ignore (BaseTypeDenoter DataType.UInt)
                                  Sample.intVar)))
               Sample.inPass /\
  vd_ident (mkVarDecl 2 "xsc_pos" false false (BaseTypeDenoter DataType.UInt) []
              (Some (CastExpr SourceArea_ignore (BaseTypeDenoter DataType.UInt)
                              Sample.intVar)))
    = (nameManglingPrefix_ Sample.inPass ++ vd_ident Sample.posDecl)%string.
Proof.
  assert (H : VisitVarDecl Sample.mustResolve Sample.getTypeDenoter Sample.varDeclType
                Sample.posDecl Sample.inPass
              = Returned (mkVarDecl 2 "xsc_pos" false false (BaseTypeDenoter DataType.UInt) []
                  (Some (CastExpr SourceArea_ignore (BaseTypeDenoter DataType.UInt)
                                  Sample.intVar)))
               Sample.inPass) by reflexivity.
  split; [exact H|].
  apply (VisitVarDecl_renames Sample.mustResolve Sample.getTypeDenoter Sample.varDeclType
           _ _ _ _ H).
  split; [reflexivity|]. split; [reflexivity|]. left. reflexivity.
Defined.

(** [saturate(f)] becomes [clamp(f, float(0), float(1))]; [saturate()]
    throws, and the block [{ 1; saturate(); 2h; }] is left at that point. *)
Lemma VisitFunctionCall_saturate_witness :
  VisitFunctionCall Sample.mustResolve Sample.getTypeDenoter
      (Sample.saturate [Sample.floatVar]) newGLSLConverter
    = Returned (mkFunctionCall 4 "saturate" Intrinsic.Clamp
                  [Sample.floatVar; Sample.floatZero; Sample.floatOne])
               newGLSLConverter /\
  VisitCodeBlock Sample.mustResolve Sample.getTypeDenoter Sample.varDeclType
      Sample.blockWithBadSaturate newGLSLConverter
    = Thrown (RuntimeError "invalid number of arguments in intrinsic 'saturate'" 4)
             newGLSLConverter.
Proof.
  split.
  - pose proof (VisitFunctionCall_saturate Sample.mustResolve Sample.getTypeDenoter
                  Sample.varDeclType newGLSLConverter 4 "saturate" [Sample.floatVar])
      as (_ & H & _).
    destruct (H Sample.floatVar eq_refl eq_refl) as [_ Hv].
    unfold Sample.saturate. rewrite Hv. reflexivity.
  - pose proof (VisitFunctionCall_saturate Sample.mustResolve Sample.getTypeDenoter
                  Sample.varDeclType newGLSLConverter 4 "saturate" [])
      as (_ & _ & H & _).
    destruct (H eq_refl) as (e & _ & Hcall & Hblock).
    assert (He : e = RuntimeError "invalid number of arguments in intrinsic 'saturate'" 4).
    { cbv in Hcall. now injection Hcall as <-. }
    subst e.
    apply (Hblock 1 2 3 [ExprStmnt 2 (LiteralExpr 2 DataType.Int "1")]
                  [ExprStmnt 2 (LiteralExpr 2 DataType.Int "1")]
                  [ExprStmnt 5 (LiteralExpr 5 (DataType.Other 0) "2h")] newGLSLConverter).
    reflexivity.
Defined.

(** [shade(s, f, s, u)] becomes [shade(f, u)], and the visit of the
    declaration [shade(sampler s, float f, sampler t, uint u)] returns it
    with the parameters [f] and [u].  An argument whose type is an alias
    of the sampler type is removed as well, [draw(t, f)] becomes
    [draw(f)], while a parameter declared with that alias is no sampler
    by its declared type and stays. *)
Lemma samplers_erased_witness :
  VisitFunctionCall Sample.mustResolve Sample.getTypeDenoter Sample.shadeCall
      newGLSLConverter
    = Returned (mkFunctionCall 6 "shade" Intrinsic.Undefined
                  [Sample.floatVar; Sample.uintVar]) newGLSLConverter /\
  VisitFunctionCall Sample.mustResolve Sample.getTypeDenoter Sample.drawCall
      newGLSLConverter
    = Returned (mkFunctionCall 6 "draw" Intrinsic.Undefined [Sample.floatVar])
               newGLSLConverter /\
  (exists ast',
     VisitFunctionDecl Sample.mustResolve Sample.getTypeDenoter Sample.varDeclType
       Sample.shadeDecl newGLSLConverter = Returned ast' newGLSLConverter /\
     Forall2 (fun p p' => exists c1 c2,
                VisitVarDeclStmnt Sample.mustResolve Sample.getTypeDenoter
                  Sample.varDeclType p c1 = Returned p' c2)
             [Sample.param "f" (BaseTypeDenoter DataType.Float);
              Sample.param "u" (BaseTypeDenoter DataType.UInt)]
             (fd_parameters ast') /\
     map (fun p => vt_typeDenoter (vds_varType p)) (fd_parameters ast')
       = [BaseTypeDenoter DataType.Float; BaseTypeDenoter DataType.UInt]) /\
  (exists ast',
     VisitFunctionDecl Sample.mustResolve Sample.getTypeDenoter Sample.varDeclType
       Sample.drawDecl newGLSLConverter = Returned ast' newGLSLConverter /\
     map (fun p => vt_typeDenoter (vds_varType p)) (fd_parameters ast')
       = [AliasTypeDenoter SamplerTypeDenoter; BaseTypeDenoter DataType.Float]).
Proof.
  pose proof (samplers_erased Sample.mustResolve Sample.getTypeDenoter Sample.varDeclType
                newGLSLConverter) as (Hcall & Hdecl & _).
  split; [|split; [|split]].
  - destruct (Hcall 6 "shade"%string
                [Sample.samplerVar; Sample.floatVar; Sample.samplerVar; Sample.uintVar])
      as (_ & Hv & _).
    unfold Sample.shadeCall. rewrite Hv. reflexivity.
  - destruct (Hcall 6 "draw"%string [Sample.aliasSamplerVar; Sample.floatVar])
      as (_ & Hv & _).
    unfold Sample.drawCall. rewrite Hv. reflexivity.
  - assert (H : VisitFunctionDecl Sample.mustResolve Sample.getTypeDenoter
                  Sample.varDeclType Sample.shadeDecl newGLSLConverter
                = Returned
                    (mkFunctionDecl 8 true false
                       (mkVarType (BaseTypeDenoter DataType.Float) None) "shade"
                       [Sample.param "f" (BaseTypeDenoter DataType.Float);
                        Sample.param "u" (BaseTypeDenoter DataType.UInt)] None)
                    newGLSLConverter) by reflexivity.
    eexists. split; [exact H|].
    destruct (Hdecl Sample.shadeDecl _ _ eq_refl H) as (Hf & _ & Htd & _).
    split; [exact Hf|exact Htd].
  - assert (H : VisitFunctionDecl Sample.mustResolve Sample.getTypeDenoter
                  Sample.varDeclType Sample.drawDecl newGLSLConverter
                = Returned Sample.drawDecl newGLSLConverter) by reflexivity.
    eexists. split; [exact H|].
    destruct (Hdecl Sample.drawDecl _ _ eq_refl H) as (_ & _ & Htd & _).
    exact Htd.
Defined.

(** Inside the entry point [if (u) return;] becomes [if (u) { return; }];
    outside it stays. *)
Lemma return_body_in_entry_point_witness :
  (exists b',
     IsReturnStmnt b' = true /\
     bodySlot (IfStmnt 12 Sample.uintVar
                 (CodeBlockStmnt 13 (mkCodeBlock 13 [ReturnStmnt 13 None])) None)
       = Some (blockOf b')) /\
  VisitStmnt Sample.mustResolve Sample.getTypeDenoter Sample.varDeclType
      Sample.ifReturn Sample.inPass
    = Returned Sample.ifReturn Sample.inPass.
Proof.
  split.
  - pose proof (return_body_in_entry_point Sample.mustResolve Sample.getTypeDenoter
                  Sample.varDeclType Sample.inEntryPoint)
      as (_ & _ & _ & _ & _ & _ & H & _).
    assert (Hv : VisitStmnt Sample.mustResolve Sample.getTypeDenoter Sample.varDeclType
                   Sample.ifReturn Sample.inEntryPoint
                 = Returned (IfStmnt 12 Sample.uintVar
                     (CodeBlockStmnt 13 (mkCodeBlock 13 [ReturnStmnt 13 None])) None)
                     Sample.inEntryPoint) by reflexivity.
    destruct (H Sample.ifReturn (ReturnStmnt 13 None) _ _ eq_refl Hv)
      as (b' & c1 & c2 & _ & Hret & Hslot).
    exists b'. split; [exact Hret|exact Hslot].
  - pose proof (return_body_in_entry_point Sample.mustResolve Sample.getTypeDenoter
                  Sample.varDeclType Sample.inPass)
      as (_ & _ & _ & _ & Hif & _).
    unfold Sample.ifReturn. rewrite Hif. reflexivity.
Defined.

(** The first global statement of a program is already visited with the
    semantics registered: a global [pos] of a program with the input
    semantic [pos] is renamed. *)
Example VisitProgram_renames_first_declaration :
  returned
    (VisitProgram Sample.mustResolve Sample.getTypeDenoter Sample.varDeclType
       (mkProgram (globalStmnts Sample.secondProgram) (entryPointRef Sample.firstProgram))
       Sample.inPass)
  = returned
      (Visitor_VisitProgram Sample.mustResolve Sample.getTypeDenoter Sample.varDeclType
         (mkProgram (globalStmnts Sample.secondProgram) (entryPointRef Sample.firstProgram))
         (mkGLSLConverter 0 "xsc_" false ["pos"; "pos"; "color"] 0)).
Proof. reflexivity. Qed.

(** C5 (as stated) fails: a converter that has converted a program with
    the input semantic [pos] still holds ["pos"] and ["color"], and then
    renames the global [pos] of a program without semantics, which a new
    converter leaves alone. *)
Lemma Convert_keeps_reserved_identifiers :
  let convert := Convert Sample.mustResolve Sample.getTypeDenoter Sample.varDeclType in
  let used := state_of (convert Sample.firstProgram 0 "xsc_" newGLSLConverter) in
  reservedVarIdents_ used <> [] /\
  returned (convert Sample.secondProgram 0 "xsc_" used)
    <> returned (convert Sample.secondProgram 0 "xsc_" newGLSLConverter) /\
  ~ freshContextEachCall Sample.mustResolve Sample.getTypeDenoter Sample.varDeclType
      Sample.firstProgram Sample.secondProgram 0 "xsc_".
Proof.
  assert (H : returned (Convert Sample.mustResolve Sample.getTypeDenoter Sample.varDeclType
                          Sample.secondProgram 0 "xsc_"
                          (state_of (Convert Sample.mustResolve Sample.getTypeDenoter
                                       Sample.varDeclType Sample.firstProgram 0 "xsc_"
                                       newGLSLConverter)))
              <> returned (Convert Sample.mustResolve Sample.getTypeDenoter
                             Sample.varDeclType Sample.secondProgram 0 "xsc_"
                             newGLSLConverter)).
  { vm_compute. discriminate. }
  split; [vm_compute; discriminate|]. split; [exact H|].
  unfold freshContextEachCall. intros [_ K]. exact (H K).
Qed.

Example Convert_twice :
  let convert := Convert Sample.mustResolve Sample.getTypeDenoter Sample.varDeclType in
  let used := state_of (convert Sample.firstProgram 0 "xsc_" newGLSLConverter) in
  reservedVarIdents_ used = ["pos"; "color"] /\
  option_map (fun p => map (fun g => match g with
                                     | OtherGlobalStmnt (LocalVarDeclStmnt d) =>
                                         map vd_ident (vds_varDecls d)
                                     | _ => []
                                     end) (globalStmnts p))
             (returned (convert Sample.secondProgram 0 "xsc_" used))
    = Some [["xsc_pos"]] /\
  option_map (fun p => map (fun g => match g with
                                     | OtherGlobalStmnt (LocalVarDeclStmnt d) =>
                                         map vd_ident (vds_varDecls d)
                                     | _ => []
                                     end) (globalStmnts p))
             (returned (convert Sample.secondProgram 0 "xsc_" newGLSLConverter))
    = Some [["pos"]].
Proof. repeat split. Qed.

(** On a new converter the traversal of the second sample program runs
    with no reserved identifier at all. *)
Lemma Convert_context_witness :
  reservedVarIdents_
    (state_of (Convert Sample.mustResolve Sample.getTypeDenoter Sample.varDeclType
                 Sample.firstProgram 0 "xsc_" newGLSLConverter))
  = ["pos"; "color"].
Proof.
  exact (proj2 (proj2 (proj2 (proj2
           (Convert_context Sample.mustResolve Sample.getTypeDenoter Sample.varDeclType
              newGLSLConverter Sample.firstProgram 0 "xsc_"))))).
Defined.

(** * Further properties of the traversal *)

(** ** Computations that hand the converter back *)

Lemma behaves_ret {A} Err (a : A) : behaves Err (ret a).
Proof. intros c. reflexivity. Qed.

Lemma behaves_gets {A} Err (f : GLSLConverter -> A) : behaves Err (gets f).
Proof. intros c. reflexivity. Qed.

Lemma behaves_bind {A B} Err (m : M A) (k : A -> M B) :
  behaves Err m -> (forall a, behaves Err (k a)) -> behaves Err (bind m k).
Proof.
  intros Hm Hk c. unfold bind. specialize (Hm c).
  destruct (m c) as [a c1|e c1].
  - subst c1. apply Hk.
  - exact Hm.
Qed.

Lemma behaves_weaken {A} (Err Err' : GLSLConverter -> GLSLConverter -> Prop) (m : M A) :
  (forall c c', Err c c' -> Err' c c') -> behaves Err m -> behaves Err' m.
Proof.
  intros Hsub Hm c. specialize (Hm c). destruct (m c); [exact Hm|].
  destruct Hm as [H1 H2]. split; [now apply Hsub|exact H2].
Qed.

Lemma behaves_mapM {A} Err (f : A -> M A) (l : list A) :
  Forall (fun x => behaves Err (f x)) l -> behaves Err (mapM f l).
Proof.
  induction 1 as [|x r Hx _ IH]; simpl; [apply behaves_ret|].
  apply behaves_bind; [exact Hx|intros x'].
  apply behaves_bind; [exact IH|intros r']. apply behaves_ret.
Qed.

Lemma behaves_eraseThenVisit {A} Err (pred : A -> bool) (f : A -> M A) (l : list A) :
  Forall (fun x => behaves Err (f x)) l -> behaves Err (eraseThenVisit pred f l).
Proof.
  induction 1 as [|x r Hx _ IH]; simpl; [apply behaves_ret|].
  destruct (pred x); [exact IH|].
  apply behaves_bind; [exact Hx|intros x'].
  apply behaves_bind; [exact IH|intros r']. apply behaves_ret.
Qed.

Lemma behaves_optM {A} Err (f : A -> M A) (o : option A) :
  (forall x, behaves Err (f x)) -> behaves Err (optM f o).
Proof.
  intros H. destruct o; simpl; [|apply behaves_ret].
  apply behaves_bind; [apply H|intros; apply behaves_ret].
Qed.

Lemma behaves_Returned {A} Err (m : M A) c a c' :
  behaves Err m -> m c = Returned a c' -> c' = c.
Proof. intros Hm H. specialize (Hm c). now rewrite H in Hm. Qed.

Lemma behaves_Thrown {A} Err (m : M A) c e c' :
  behaves Err m -> m c = Thrown e c' -> Err c c' /\ invalidIntrinsic e.
Proof. intros Hm H. specialize (Hm c). now rewrite H in Hm. Qed.

(** When every visit hands the converter back, the elements of a list are
    all visited with the converter the list is entered with. *)
Lemma mapM_same_converter {A} Err (f : A -> M A) (l l' : list A) c c' :
  Forall (fun x => behaves Err (f x)) l ->
  mapM f l c = Returned l' c' ->
  c' = c /\ Forall2 (fun x x' => f x c = Returned x' c) l l'.
Proof.
  intros Hl. revert l'. induction Hl as [|x r Hx _ IH]; intros l' H; simpl in H.
  - injection H as <- <-. split; [reflexivity|constructor].
  - apply bind_inv in H as (x' & c1 & Hfx & H).
    assert (c1 = c) by (eapply behaves_Returned; eassumption). subst c1.
    apply bind_inv in H as (r' & c2 & Hr & H).
    injection H as <- <-.
    destruct (IH _ Hr) as [Hc HF].
    split; [exact Hc|]. now constructor.
Qed.

Lemma aborted_refl c : aborted c c.
Proof. repeat split. apply Nat.le_refl. Qed.

Lemma set_structDeclLevel_pop (c : GLSLConverter) :
  set_structDeclLevel
    (Nat.pred (structDeclLevel_ (set_structDeclLevel (S (structDeclLevel_ c)) c)))
    (set_structDeclLevel (S (structDeclLevel_ c)) c) = c.
Proof. now destruct c. Qed.

(** ** More on strings and chains *)

Lemma back_set_back (c : ascii) (s : string) :
  empty s = false -> back (set_back c s) = Some c.
Proof.
  induction s as [|a s IH]; [discriminate|]. intros _.
  destruct s as [|b s]; [reflexivity|].
  change (set_back c (String a (String b s))) with (String a (set_back c (String b s))).
  specialize (IH eq_refl).
  destruct (set_back c (String b s)) eqn:E; [discriminate IH|].
  exact IH.
Qed.

Lemma length_set_back (c : ascii) (s : string) :
  String.length (set_back c s) = String.length s.
Proof.
  induction s as [|a s IH]; [reflexivity|].
  destruct s as [|b s]; [reflexivity|].
  change (set_back c (String a (String b s))) with (String a (set_back c (String b s))).
  change (S (String.length (set_back c (String b s))) = S (String.length (String b s))).
  now rewrite IH.
Qed.

Lemma Subsequence_refl {A} (l : list A) : Subsequence l l.
Proof. induction l; now constructor. Qed.

Lemma segments_next i s n :
  segments (mkVarIdent i s (Some n)) = (i, s) :: segments n.
Proof. reflexivity. Qed.

Lemma segments_last i s : segments (mkVarIdent i s None) = [(i, s)].
Proof. reflexivity. Qed.

(** The inner loop only drops segments, and never the last one. *)
Lemma removeLeading_segments :
  forall v, Subsequence (segments (removeLeading v)) (segments v) /\
            vi_last (removeLeading v) = vi_last v.
Proof.
  fix IH 1. intros [i s [[i1 s1 nx]|]].
  - cbn [removeLeading].
    destruct (HasVarDeclOfVarIdentSystemSemantic _);
      [split; [apply Subsequence_refl|reflexivity]|].
    destruct nx as [r|].
    + destruct (IH r) as [Hs Hl].
      rewrite !segments_next. split.
      * apply Subsequence_skip, Subsequence_keep, Hs.
      * cbn [vi_last]. exact Hl.
    + rewrite !segments_next, segments_last. split.
      * apply Subsequence_skip, Subsequence_refl.
      * reflexivity.
  - cbn [removeLeading].
    destruct (HasVarDeclOfVarIdentSystemSemantic _);
      split; try apply Subsequence_refl; reflexivity.
Qed.

Lemma PopFront_segments (v : VarIdent) :
  Subsequence (segments (PopFront v)) (segments v) /\
  vi_last (PopFront v) = vi_last v.
Proof.
  destruct v as [i s [n|]]; unfold PopFront; cbn [vi_next].
  - rewrite segments_next. split; [apply Subsequence_skip, Subsequence_refl|reflexivity].
  - split; [apply Subsequence_refl|reflexivity].
Qed.

Lemma firstSystemValue_two (v : VarIdent) (k : nat) :
  firstSystemValue v = Some (S (S k)) ->
  exists i s i1 s1 nx,
    v = mkVarIdent i s (Some (mkVarIdent i1 s1 nx)) /\
    HasVarDeclOfVarIdentSystemSemantic v = false /\
    HasVarDeclOfVarIdentSystemSemantic (mkVarIdent i1 s1 nx) = false.
Proof.
  destruct v as [i s [[i1 s1 nx]|]]; cbn [firstSystemValue].
  - destruct (HasVarDeclOfVarIdentSystemSemantic (mkVarIdent i s _)) eqn:E0;
      [discriminate|].
    destruct (HasVarDeclOfVarIdentSystemSemantic (mkVarIdent i1 s1 nx)) eqn:E1;
      [discriminate|].
    intros _. now exists i, s, i1, s1, nx.
  - destruct (HasVarDeclOfVarIdentSystemSemantic _); discriminate.
Qed.

Section FurtherProperties.

Variable MustResolveStructForTarget : ShaderTarget -> StructDeclRef -> bool.
Variable GetTypeDenoter : Expr -> TypeDenoter.
Variable VarDecl_GetTypeDenoter : VarDecl -> TypeDenoter.

Local Abbreviation visitVarIdent := (VisitVarIdent MustResolveStructForTarget).
Local Abbreviation visitExpr := (VisitExpr MustResolveStructForTarget GetTypeDenoter).
Local Abbreviation visitFunctionCall :=
  (VisitFunctionCall MustResolveStructForTarget GetTypeDenoter).
Local Abbreviation visitVarDecl :=
  (VisitVarDecl MustResolveStructForTarget GetTypeDenoter VarDecl_GetTypeDenoter).
Local Abbreviation visitStructDecl :=
  (VisitStructDecl MustResolveStructForTarget GetTypeDenoter VarDecl_GetTypeDenoter).
Local Abbreviation visitVarDeclStmnt :=
  (VisitVarDeclStmnt MustResolveStructForTarget GetTypeDenoter VarDecl_GetTypeDenoter).
Local Abbreviation visitVarType :=
  (VisitVarType MustResolveStructForTarget GetTypeDenoter VarDecl_GetTypeDenoter).
Local Abbreviation visitStmnt :=
  (VisitStmnt MustResolveStructForTarget GetTypeDenoter VarDecl_GetTypeDenoter).
Local Abbreviation visitElseStmnt :=
  (VisitElseStmnt MustResolveStructForTarget GetTypeDenoter VarDecl_GetTypeDenoter).
Local Abbreviation visitCodeBlock :=
  (VisitCodeBlock MustResolveStructForTarget GetTypeDenoter VarDecl_GetTypeDenoter).
Local Abbreviation visitFunctionDecl :=
  (VisitFunctionDecl MustResolveStructForTarget GetTypeDenoter VarDecl_GetTypeDenoter).
Local Abbreviation visitor_VisitFunctionDecl :=
  (Visitor_VisitFunctionDecl MustResolveStructForTarget GetTypeDenoter VarDecl_GetTypeDenoter).
Local Abbreviation visitGlobalStmnt :=
  (VisitGlobalStmnt MustResolveStructForTarget GetTypeDenoter VarDecl_GetTypeDenoter).
Local Abbreviation visitor_VisitProgram :=
  (Visitor_VisitProgram MustResolveStructForTarget GetTypeDenoter VarDecl_GetTypeDenoter).
Local Abbreviation convert :=
  (Convert MustResolveStructForTarget GetTypeDenoter VarDecl_GetTypeDenoter).

(** *** The converter during the visit of expressions and declarations *)

Lemma behaves_RuntimeErr_number {A} a :
  behaves eq (@RuntimeErr A "invalid number of arguments in intrinsic 'saturate'" a).
Proof. intros c. split; [reflexivity|]. exists a. now left. Qed.

Lemma behaves_RuntimeErr_type {A} a :
  behaves eq (@RuntimeErr A "invalid argument type denoter in intrinsic 'saturate'" a).
Proof. intros c. split; [reflexivity|]. exists a. now right. Qed.

Lemma VisitVarIdent_behaves (ast : VarIdent) : behaves eq (visitVarIdent ast).
Proof.
  intros c. unfold VisitVarIdent.
  destruct (vi_next ast), (vi_symbolRef ast) as [[d|]|]; simpl; try reflexivity.
  destruct (TD.AsStruct _); [destruct (MustResolveStruct _ _ _)|]; reflexivity.
Qed.

Lemma VisitExpr_behaves (e : Expr) : behaves eq (visitExpr e).
Proof.
  induction e using Expr_tree_ind
    with (Q := fun c => behaves eq (visitFunctionCall c));
    cbn [VisitExpr VisitFunctionCall].
  - apply behaves_ret.
  - apply behaves_bind; [assumption|intros l'].
    apply behaves_bind; [assumption|intros r']. apply behaves_ret.
  - apply behaves_bind; [assumption|intros x']. apply behaves_ret.
  - apply behaves_bind; [assumption|intros x']. apply behaves_ret.
  - apply behaves_bind; [assumption|intros x']. apply behaves_ret.
  - apply behaves_bind; [assumption|intros c']. apply behaves_ret.
  - apply behaves_bind; [apply VisitVarIdent_behaves|intros vi'].
    apply behaves_bind.
    + destruct ae; [|apply behaves_ret].
      apply behaves_bind; [assumption|intros x']. apply behaves_ret.
    + intros [x'|]; apply behaves_ret.
  - destruct intr.
    + apply behaves_bind; [now apply behaves_eraseThenVisit|intros]. apply behaves_ret.
    + destruct args as [|x [|y r]]; try apply behaves_RuntimeErr_number.
      destruct (TD.IsBase _); [|apply behaves_RuntimeErr_type].
      apply behaves_bind; [now inversion H|intros]. apply behaves_ret.
    + apply behaves_bind; [now apply behaves_mapM|intros]. apply behaves_ret.
    + apply behaves_bind; [now apply behaves_mapM|intros]. apply behaves_ret.
Qed.

Lemma VisitFunctionCall_behaves (ast : FunctionCall) : behaves eq (visitFunctionCall ast).
Proof.
  assert (H : Forall (fun x => behaves eq (visitExpr x)) (fc_arguments ast)).
  { apply Forall_forall. intros; apply VisitExpr_behaves. }
  destruct ast as [a name intr args]. cbn [fc_arguments] in H. cbn [VisitFunctionCall].
  destruct intr.
  - apply behaves_bind; [now apply behaves_eraseThenVisit|intros]. apply behaves_ret.
  - destruct args as [|x [|y r]]; try apply behaves_RuntimeErr_number.
    destruct (TD.IsBase _); [|apply behaves_RuntimeErr_type].
    apply behaves_bind; [now inversion H|intros]. apply behaves_ret.
  - apply behaves_bind; [now apply behaves_mapM|intros]. apply behaves_ret.
  - apply behaves_bind; [now apply behaves_mapM|intros]. apply behaves_ret.
Qed.

Lemma VisitVarDecl_behaves (ast : VarDecl) : behaves eq (visitVarDecl ast).
Proof.
  unfold VisitVarDecl. apply behaves_bind; [apply behaves_gets|intros must].
  apply behaves_bind.
  - destruct must; [|apply behaves_ret]. unfold RenameVarDecl.
    apply behaves_bind; [apply behaves_gets|intros]. apply behaves_ret.
  - intros ast1. unfold Visitor_VisitVarDecl.
    apply behaves_bind.
    { apply behaves_mapM, Forall_forall. intros; apply VisitExpr_behaves. }
    intros dims. apply behaves_bind; [apply behaves_optM, VisitExpr_behaves|intros].
    apply behaves_ret.
Qed.

(** X1.  The visit of an expression, of a call or of a variable declaration
    never writes to the converter: whether it returns or throws, every
    member is as before; and it throws nothing but one of the two errors
    of the saturate rule. *)
Theorem expressions_leave_converter (c : GLSLConverter) :
  (forall e, state_of (visitExpr e c) = c) /\
  (forall ast, state_of (visitFunctionCall ast c) = c) /\
  (forall ast, state_of (visitVarDecl ast c) = c) /\
  (forall e err c', visitExpr e c = Thrown err c' -> invalidIntrinsic err) /\
  (forall ast err c', visitVarDecl ast c = Thrown err c' -> invalidIntrinsic err).
Proof.
  assert (S : forall A (m : M A), behaves eq m -> state_of (m c) = c).
  { intros A m Hm. specialize (Hm c). destruct (m c); [exact Hm|]. simpl. now destruct Hm. }
  split; [intros; apply S, VisitExpr_behaves|].
  split; [intros; apply S, VisitFunctionCall_behaves|].
  split; [intros; apply S, VisitVarDecl_behaves|].
  split.
  - intros e err c' H. now apply (behaves_Thrown _ _ _ _ _ (VisitExpr_behaves e)) in H.
  - intros ast err c' H. now apply (behaves_Thrown _ _ _ _ _ (VisitVarDecl_behaves ast)) in H.
Qed.

(** *** The converter during the visit of statements *)

Lemma eq_aborted (c c' : GLSLConverter) : c = c' -> aborted c c'.
Proof. intros <-. apply aborted_refl. Qed.

Lemma VisitExpr_aborted (e : Expr) : behaves aborted (visitExpr e).
Proof. eapply behaves_weaken; [exact eq_aborted|apply VisitExpr_behaves]. Qed.

Lemma VisitVarDecl_aborted (ast : VarDecl) : behaves aborted (visitVarDecl ast).
Proof. eapply behaves_weaken; [exact eq_aborted|apply VisitVarDecl_behaves]. Qed.

Lemma aborted_pushed (c c' : GLSLConverter) :
  aborted (set_structDeclLevel (S (structDeclLevel_ c)) c) c' -> aborted c c'.
Proof.
  intros (Hs & Hf & Hl). split; [exact Hs|]. split; [exact Hf|].
  simpl in Hl. lia.
Qed.

Lemma VisitStructDecl_eq a name members :
  visitStructDecl (mkStructDecl a name members) =
  (PushStructDeclLevel ;;;
   members' <- mapM visitVarDeclStmnt members ;;
   PopStructDeclLevel ;;;
   ret (mkStructDecl a name members')).
Proof. reflexivity. Qed.

Lemma VisitStructDecl_behaves (ast : StructDecl) : behaves aborted (visitStructDecl ast).
Proof.
  induction ast using StructDecl_tree_ind
    with (Q := fun s => behaves aborted (visitVarDeclStmnt s))
         (R := fun t => behaves aborted (visitVarType t)).
  - intros c. rewrite VisitStructDecl_eq.
    unfold PushStructDeclLevel, PopStructDeclLevel. rewrite bind_modify.
    assert (Hm := behaves_mapM aborted _ _ H
                    (set_structDeclLevel (S (structDeclLevel_ c)) c)).
    unfold bind at 1.
    destruct (mapM visitVarDeclStmnt members
                (set_structDeclLevel (S (structDeclLevel_ c)) c)) as [l' c1|e c1].
    + subst c1. unfold bind, modify, ret. apply set_structDeclLevel_pop.
    + destruct Hm as [Ha He]. split; [now apply aborted_pushed|exact He].
  - cbn [VisitVarDeclStmnt].
    apply behaves_bind; [assumption|intros vt'].
    apply behaves_bind.
    { apply behaves_mapM, Forall_forall. intros; apply VisitVarDecl_aborted. }
    intros. apply behaves_ret.
  - cbn [VisitVarType].
    apply behaves_bind; [|intros; apply behaves_ret].
    destruct sd; [|apply behaves_ret].
    apply behaves_bind; [assumption|intros; apply behaves_ret].
Qed.

Lemma VisitVarType_behaves (ast : VarType) : behaves aborted (visitVarType ast).
Proof.
  destruct ast as [td sd]. cbn [VisitVarType].
  apply behaves_bind; [|intros; apply behaves_ret].
  destruct sd; [|apply behaves_ret].
  apply behaves_bind; [apply VisitStructDecl_behaves|intros; apply behaves_ret].
Qed.

Lemma VisitVarDeclStmnt_behaves (ast : VarDeclStmnt) : behaves aborted (visitVarDeclStmnt ast).
Proof.
  destruct ast as [a vt decls]. cbn [VisitVarDeclStmnt].
  apply behaves_bind; [apply VisitVarType_behaves|intros vt'].
  apply behaves_bind; [|intros; apply behaves_ret].
  apply behaves_mapM, Forall_forall. intros; apply VisitVarDecl_aborted.
Qed.

Lemma VisitStmnt_behaves (ast : Stmnt) : behaves aborted (visitStmnt ast).
Proof.
  induction ast using Stmnt_tree_ind
    with (Q := fun e => behaves aborted (visitElseStmnt e))
         (R := fun cb => behaves aborted (visitCodeBlock cb));
    cbn [VisitStmnt VisitElseStmnt VisitCodeBlock].
  - apply behaves_ret.
  - apply behaves_bind; [assumption|intros; apply behaves_ret].
  - apply behaves_bind; [apply behaves_gets|intros inside].
    apply behaves_bind; [assumption|intros].
    apply behaves_bind; [apply behaves_optM, VisitExpr_aborted|intros].
    apply behaves_bind; [apply behaves_optM, VisitExpr_aborted|intros].
    apply behaves_bind; [assumption|intros; apply behaves_ret].
  - apply behaves_bind; [apply behaves_gets|intros inside].
    apply behaves_bind; [apply VisitExpr_aborted|intros].
    apply behaves_bind; [assumption|intros; apply behaves_ret].
  - apply behaves_bind; [apply behaves_gets|intros inside].
    apply behaves_bind; [assumption|intros].
    apply behaves_bind; [apply VisitExpr_aborted|intros; apply behaves_ret].
  - apply behaves_bind; [apply behaves_gets|intros inside].
    apply behaves_bind; [apply VisitExpr_aborted|intros].
    apply behaves_bind; [assumption|intros].
    apply behaves_bind; [|intros; apply behaves_ret].
    destruct els; [|apply behaves_ret].
    apply behaves_bind; [assumption|intros; apply behaves_ret].
  - apply behaves_bind; [apply VisitExpr_aborted|intros; apply behaves_ret].
  - apply behaves_bind; [apply behaves_optM, VisitExpr_aborted|intros; apply behaves_ret].
  - apply behaves_bind; [apply VisitVarDeclStmnt_behaves|intros; apply behaves_ret].
  - apply behaves_bind; [apply VisitStructDecl_behaves|intros; apply behaves_ret].
  - apply behaves_bind; [apply behaves_gets|intros inside].
    apply behaves_bind; [assumption|intros; apply behaves_ret].
  - apply behaves_bind; [now apply behaves_mapM|intros; apply behaves_ret].
Qed.

Lemma VisitCodeBlock_behaves (ast : CodeBlock) : behaves aborted (visitCodeBlock ast).
Proof.
  destruct ast as [a stmnts]. cbn [VisitCodeBlock].
  apply behaves_bind; [|intros; apply behaves_ret].
  apply behaves_mapM, Forall_forall. intros; apply VisitStmnt_behaves.
Qed.

Lemma Visitor_VisitFunctionDecl_behaves (ast : FunctionDecl) :
  behaves aborted (visitor_VisitFunctionDecl ast).
Proof.
  unfold Visitor_VisitFunctionDecl.
  apply behaves_bind; [apply VisitVarType_behaves|intros].
  apply behaves_bind.
  { apply behaves_mapM, Forall_forall. intros; apply VisitVarDeclStmnt_behaves. }
  intros. apply behaves_bind; [apply behaves_optM, VisitCodeBlock_behaves|intros].
  apply behaves_ret.
Qed.

(** X2.  A statement, a code block, a structure declaration or a
    declaration statement whose visit returns leaves the converter exactly
    as it found it: the structure nesting level is back where it was and
    the entry-point flag is untouched.  When the visit throws, the error
    is one of the two of the saturate rule, the settings and the flag are
    as before, and the nesting level is not below where it was (it is
    above when the error comes from inside a structure, since
    [PopStructDeclLevel] is then skipped). *)
Theorem statements_restore_converter (c : GLSLConverter) :
  (forall ast, match visitStmnt ast c with
               | Returned _ c' => c' = c
               | Thrown e c' => aborted c c' /\ invalidIntrinsic e
               end) /\
  (forall ast, match visitCodeBlock ast c with
               | Returned _ c' => c' = c
               | Thrown e c' => aborted c c' /\ invalidIntrinsic e
               end) /\
  (forall ast, match visitStructDecl ast c with
               | Returned _ c' => c' = c
               | Thrown e c' => aborted c c' /\ invalidIntrinsic e
               end) /\
  (forall ast, match visitVarDeclStmnt ast c with
               | Returned _ c' => c' = c
               | Thrown e c' => aborted c c' /\ invalidIntrinsic e
               end).
Proof.
  split; [intros; apply VisitStmnt_behaves|].
  split; [intros; apply VisitCodeBlock_behaves|].
  split; [intros; apply VisitStructDecl_behaves|].
  intros; apply VisitVarDeclStmnt_behaves.
Qed.

(** *** The entry-point flag *)

Lemma set_isInsideEntryPoint_same (c : GLSLConverter) :
  set_isInsideEntryPoint (isInsideEntryPoint_ c) c = c.
Proof. now destruct c. Qed.

Lemma set_isInsideEntryPoint_twice (b b' : bool) (c : GLSLConverter) :
  set_isInsideEntryPoint b (set_isInsideEntryPoint b' c) = set_isInsideEntryPoint b c.
Proof. reflexivity. Qed.

(** The outcome of [VisitFunctionDecl] on the converter. *)
Lemma VisitFunctionDecl_converter (ast : FunctionDecl) (c : GLSLConverter) :
  match visitFunctionDecl ast c with
  | Returned _ c' =>
      c' = set_isInsideEntryPoint
             (isInsideEntryPoint_ c && negb (fd_isReachable ast && fd_isEntryPoint ast)) c
  | Thrown e c' =>
      invalidIntrinsic e /\
      fd_isReachable ast = true /\
      settings c' = settings c /\
      (structDeclLevel_ c <= structDeclLevel_ c')%nat /\
      isInsideEntryPoint_ c' = (fd_isEntryPoint ast || isInsideEntryPoint_ c)%bool
  end.
Proof.
  unfold VisitFunctionDecl. destruct (fd_isReachable ast); cbn [negb andb].
  2: { unfold ret. rewrite andb_true_r. symmetry. apply set_isInsideEntryPoint_same. }
  cbn [fd_isEntryPoint fd_set_parameters].
  set (ast1 := fd_set_parameters ast _).
  destruct (fd_isEntryPoint ast).
  - rewrite bind_modify. unfold bind at 1.
    assert (H := Visitor_VisitFunctionDecl_behaves ast1 (set_isInsideEntryPoint true c)).
    destruct (visitor_VisitFunctionDecl ast1 (set_isInsideEntryPoint true c))
      as [ast' c1|e c1].
    + subst c1. unfold bind, modify, ret. now rewrite andb_false_r.
    + destruct H as ((Hs & Hf & Hl) & He). repeat split; assumption.
  - assert (H := Visitor_VisitFunctionDecl_behaves ast1 c).
    destruct (visitor_VisitFunctionDecl ast1 c) as [ast' c1|e c1].
    + subst c1. rewrite andb_true_r. symmetry. apply set_isInsideEntryPoint_same.
    + destruct H as ((Hs & Hf & Hl) & He). repeat split; assumption.
Qed.

(** X3.  [VisitFunctionDecl] and the entry-point flag.  When the visit of
    a reachable entry point returns, [isInsideEntryPoint_] is false,
    whatever it was before; the visit of any other function leaves the
    converter as it was.  When the visit throws, the function was
    reachable, the flag is set if the function is the entry point (the
    assignment that resets it is skipped) and as before otherwise, the
    settings are unchanged and the structure nesting level is not below
    where it was. *)
Theorem VisitFunctionDecl_entry_point_flag (ast : FunctionDecl) (c : GLSLConverter) :
  match visitFunctionDecl ast c with
  | Returned _ c' =>
      c' = (if (fd_isReachable ast && fd_isEntryPoint ast)%bool
            then set_isInsideEntryPoint false c else c)
  | Thrown e c' =>
      invalidIntrinsic e /\
      fd_isReachable ast = true /\
      settings c' = settings c /\
      (structDeclLevel_ c <= structDeclLevel_ c')%nat /\
      isInsideEntryPoint_ c' = (fd_isEntryPoint ast || isInsideEntryPoint_ c)%bool
  end.
Proof.
  assert (H := VisitFunctionDecl_converter ast c).
  destruct (visitFunctionDecl ast c) as [ast' c'|e c']; [|exact H].
  rewrite H. destruct (fd_isReachable ast && fd_isEntryPoint ast)%bool; cbn [negb].
  - now rewrite andb_false_r.
  - rewrite andb_true_r. apply set_isInsideEntryPoint_same.
Qed.

Lemma VisitGlobalStmnt_converter (g : GlobalStmnt) (c : GLSLConverter) :
  match visitGlobalStmnt g c with
  | Returned _ c' =>
      c' = set_isInsideEntryPoint
             (isInsideEntryPoint_ c &&
              negb match g with
                   | FunctionDeclStmnt f => fd_isReachable f && fd_isEntryPoint f
                   | OtherGlobalStmnt _ => false
                   end) c
  | Thrown e c' =>
      invalidIntrinsic e /\ settings c' = settings c /\
      (structDeclLevel_ c <= structDeclLevel_ c')%nat
  end.
Proof.
  destruct g as [f|s]; cbn [VisitGlobalStmnt]; unfold bind.
  - assert (H := VisitFunctionDecl_converter f c).
    destruct (visitFunctionDecl f c) as [f' c'|e c']; [exact H|].
    destruct H as (He & _ & Hs & Hl & _). now repeat split.
  - assert (H := VisitStmnt_behaves s c).
    destruct (visitStmnt s c) as [s' c'|e c'].
    + subst c'. unfold ret. cbn [negb]. rewrite andb_true_r. symmetry.
      apply set_isInsideEntryPoint_same.
    + destruct H as ((Hs & _ & Hl) & He). now repeat split.
Qed.

Lemma mapM_VisitGlobalStmnt_converter (l : list GlobalStmnt) (c : GLSLConverter) :
  match mapM visitGlobalStmnt l c with
  | Returned _ c' =>
      c' = set_isInsideEntryPoint
             (isInsideEntryPoint_ c &&
              negb (existsb (fun g => match g with
                                      | FunctionDeclStmnt f =>
                                          fd_isReachable f && fd_isEntryPoint f
                                      | OtherGlobalStmnt _ => false
                                      end) l)) c
  | Thrown e c' =>
      invalidIntrinsic e /\ settings c' = settings c /\
      (structDeclLevel_ c <= structDeclLevel_ c')%nat
  end.
Proof.
  revert c. induction l as [|g l IH]; intros c; cbn [mapM existsb].
  - unfold ret. cbn [negb]. rewrite andb_true_r. symmetry.
    apply set_isInsideEntryPoint_same.
  - unfold bind at 1. assert (Hg := VisitGlobalStmnt_converter g c).
    destruct (visitGlobalStmnt g c) as [g' c1|e c1]; [|exact Hg].
    unfold bind at 1. specialize (IH c1).
    destruct (mapM visitGlobalStmnt l c1) as [l' c2|e c2].
    + unfold ret. rewrite IH, Hg. cbn [isInsideEntryPoint_ set_isInsideEntryPoint].
      rewrite set_isInsideEntryPoint_twice, negb_orb, andb_assoc. reflexivity.
    + destruct IH as (He & Hs & Hl). rewrite Hg in Hs, Hl.
      split; [exact He|]. split; [exact Hs|exact Hl].
Qed.

(** X4.  The converter after [Convert].  When [Convert] returns, the
    converter holds the target and the prefix of the call and the reserved
    identifiers it held before followed by those of the program's
    semantics, its structure nesting level is what it was, and it is not
    inside the entry point if the program has a reachable entry point
    among its global statements (else the flag is what it was).  When
    [Convert] throws, the error is one of the two of the saturate rule and
    the nesting level is not below where it was. *)
Theorem Convert_converter (program : Program) (shaderTarget : ShaderTarget)
        (prefix : string) (c : GLSLConverter) :
  match convert program shaderTarget prefix c with
  | Returned _ c' =>
      c' = mkGLSLConverter shaderTarget prefix
             (isInsideEntryPoint_ c && negb (visitsEntryPoint program))
             (reservedVarIdents_ c ++ semanticIdents program)
             (structDeclLevel_ c)
  | Thrown e c' =>
      invalidIntrinsic e /\
      settings c' = (shaderTarget, prefix, reservedVarIdents_ c ++ semanticIdents program) /\
      (structDeclLevel_ c <= structDeclLevel_ c')%nat
  end.
Proof.
  unfold Convert. rewrite !bind_modify.
  rewrite (VisitProgram_unfold MustResolveStructForTarget GetTypeDenoter
             VarDecl_GetTypeDenoter).
  unfold Visitor_VisitProgram, bind.
  set (c0 := set_reservedVarIdents _ _).
  assert (H := mapM_VisitGlobalStmnt_converter (globalStmnts program) c0).
  destruct (mapM visitGlobalStmnt (globalStmnts program) c0) as [l' c'|e c'].
  - unfold ret. rewrite H. reflexivity.
  - exact H.
Qed.

(** *** Members of structures *)

Lemma sd_idents_eq a name members :
  sd_idents (mkStructDecl a name members) = flat_map vds_idents members.
Proof. reflexivity. Qed.

Lemma vds_idents_eq a vt decls :
  vds_idents (mkVarDeclStmnt a vt decls) = (vt_idents vt ++ map vd_ident decls)%list.
Proof. reflexivity. Qed.

Lemma VisitVarDecl_ident (ast ast' : VarDecl) c c' :
  visitVarDecl ast c = Returned ast' c' ->
  vd_ident ast' = if MustRenameVarDecl c ast
                  then (nameManglingPrefix_ c ++ vd_ident ast)%string
                  else vd_ident ast.
Proof.
  unfold VisitVarDecl. intros H.
  apply bind_inv in H as (must & c1 & Hm & H).
  unfold gets in Hm. injection Hm as <- <-.
  apply bind_inv in H as (ast1 & c1 & Hr & H).
  apply Visitor_VisitVarDecl_ident in H as [H _]. rewrite H.
  destruct (MustRenameVarDecl c ast).
  - unfold RenameVarDecl, bind, gets, ret in Hr. injection Hr as <- _.
    now destruct (vd_initializer _).
  - unfold ret in Hr. injection Hr as <- _. now destruct (vd_initializer _).
Qed.

Lemma VisitVarDecl_ident_in_struct (ast ast' : VarDecl) c c' :
  (0 < structDeclLevel_ c)%nat ->
  visitVarDecl ast c = Returned ast' c' ->
  vd_ident ast' = vd_ident ast.
Proof.
  intros Hl H. apply VisitVarDecl_ident in H. rewrite H.
  unfold MustRenameVarDecl, IsInsideStructDecl.
  apply Nat.ltb_lt in Hl. now rewrite Hl.
Qed.

Lemma Forall2_flat_map {A B} (f : A -> list B) (R : A -> A -> Prop) (l l' : list A) :
  Forall2 R l l' ->
  Forall (fun x => forall x', R x x' -> f x' = f x) l ->
  flat_map f l' = flat_map f l.
Proof.
  induction 1 as [|x x' l l' Hx _ IH]; intros HF; [reflexivity|].
  inversion HF as [|? ? Hf HF']; subst. simpl. now rewrite (Hf _ Hx), IH.
Qed.

Lemma Forall2_map {A B} (f : A -> B) (R : A -> A -> Prop) (l l' : list A) :
  Forall2 R l l' ->
  (forall x x', R x x' -> f x' = f x) ->
  map f l' = map f l.
Proof.
  induction 1 as [|x x' l l' Hx _ IH]; intros Hf; [reflexivity|].
  simpl. now rewrite (Hf _ _ Hx), IH.
Qed.

Lemma VisitStructDecl_idents (ast : StructDecl) :
  forall c ast' c', visitStructDecl ast c = Returned ast' c' -> sd_idents ast' = sd_idents ast.
Proof.
  induction ast using StructDecl_tree_ind
    with (Q := fun s => forall c s' c',
                 (0 < structDeclLevel_ c)%nat ->
                 visitVarDeclStmnt s c = Returned s' c' -> vds_idents s' = vds_idents s)
         (R := fun t => forall c t' c',
                 visitVarType t c = Returned t' c' -> vt_idents t' = vt_idents t).
  - intros c ast' c' Hv. rewrite VisitStructDecl_eq in Hv.
    unfold PushStructDeclLevel in Hv. rewrite bind_modify in Hv.
    apply bind_inv in Hv as (members' & c1 & Hm & Hv).
    apply bind_inv in Hv as (u & c2 & _ & Hv). injection Hv as <- _.
    apply (mapM_same_converter aborted) in Hm as [_ HF].
    2: { apply Forall_forall. intros; apply VisitVarDeclStmnt_behaves. }
    rewrite !sd_idents_eq. eapply Forall2_flat_map; [exact HF|].
    eapply Forall_impl; [|exact H]. intros s Hs s' Hvs.
    eapply Hs; [|exact Hvs]. simpl. lia.
  - intros c s' c' Hl Hv. cbn [VisitVarDeclStmnt] in Hv.
    apply bind_inv in Hv as (vt' & c1 & Hvt & Hv).
    assert (c1 = c) by (eapply behaves_Returned; [apply VisitVarType_behaves|exact Hvt]).
    subst c1.
    apply bind_inv in Hv as (decls' & c2 & Hd & Hv). injection Hv as <- _.
    apply (mapM_same_converter eq) in Hd as [_ HF].
    2: { apply Forall_forall. intros; apply VisitVarDecl_behaves. }
    rewrite !vds_idents_eq. f_equal; [eapply IHast, Hvt|].
    eapply Forall2_map; [exact HF|]. intros x x' Hx. cbv beta in Hx.
    eapply VisitVarDecl_ident_in_struct; [exact Hl|exact Hx].
  - intros c t' c' Hv. cbn [VisitVarType] in Hv.
    apply bind_inv in Hv as (sd' & c1 & Hsd & Hv). injection Hv as <- _.
    destruct sd as [d|].
    + apply bind_inv in Hsd as (d' & c2 & Hd & Hsd). injection Hsd as <- _.
      cbn [vt_idents]. eapply H, Hd.
    + injection Hsd as <- _. reflexivity.
Qed.

(** X5.  The members of a structure are never renamed: when the visit of a
    structure declaration returns, the identifiers declared in it, at any
    depth of nested anonymous structures, are those it had, in the same
    order, whatever identifiers are reserved and whatever the nesting
    level was when the visit began. *)
Theorem VisitStructDecl_keeps_member_names (ast ast' : StructDecl) (c c' : GLSLConverter) :
  visitStructDecl ast c = Returned ast' c' ->
  sd_idents ast' = sd_idents ast.
Proof. apply VisitStructDecl_idents. Qed.

(** *** Return statements inside the entry point *)

Lemma bodyAfterVisit_no_bare_return (b b' : Stmnt) :
  IsReturnStmnt b' = IsReturnStmnt b ->
  noBareReturnBody b' = true ->
  (negb (IsReturnStmnt (bodyAfterVisit true b b')) &&
   noBareReturnBody (bodyAfterVisit true b b'))%bool = true.
Proof.
  intros Hr Hb. unfold bodyAfterVisit. cbn [andb].
  destruct (IsReturnStmnt b).
  - cbn. now rewrite Hb.
  - now rewrite Hr, Hb.
Qed.

Lemma VisitStmnt_no_bare_return (ast : Stmnt) :
  forall c ast' c',
    isInsideEntryPoint_ c = true ->
    visitStmnt ast c = Returned ast' c' ->
    noBareReturnBody ast' = true.
Proof.
  assert (Hsame : forall s c s' c', visitStmnt s c = Returned s' c' -> c' = c).
  { intros s c s' c' H. eapply behaves_Returned; [apply VisitStmnt_behaves|exact H]. }
  assert (Hexpr : forall e c e' c', visitExpr e c = Returned e' c' -> c' = c).
  { intros e c e' c' H. eapply behaves_Returned; [apply VisitExpr_behaves|exact H]. }
  assert (Hopt : forall e c e' c', optM visitExpr e c = Returned e' c' -> c' = c).
  { intros e c e' c' H.
    eapply behaves_Returned; [|exact H]. apply (behaves_optM eq), VisitExpr_behaves. }
  assert (Hret : forall b c b' c', visitStmnt b c = Returned b' c' ->
                                   IsReturnStmnt b' = IsReturnStmnt b).
  { intros b c b' c' H.
    now destruct (bodyAfterVisit_blockOf MustResolveStructForTarget GetTypeDenoter
                    VarDecl_GetTypeDenoter true _ _ _ _ H). }
  induction ast using Stmnt_tree_ind
    with (Q := fun e => forall c e' c',
                 isInsideEntryPoint_ c = true ->
                 visitElseStmnt e c = Returned e' c' -> noBareReturnBody_else e' = true)
         (R := fun cb => forall c cb' c',
                 isInsideEntryPoint_ c = true ->
                 visitCodeBlock cb c = Returned cb' c' -> noBareReturnBody_block cb' = true);
    intros c ast' c' Hin Hv.
  - cbn [VisitStmnt] in Hv. now injection Hv as <- _.
  - cbn [VisitStmnt] in Hv. apply bind_inv in Hv as (cb' & c1 & Hcb & Hv).
    injection Hv as <- _. eapply IHast; eassumption.
  - cbn [VisitStmnt] in Hv. rewrite bind_gets, Hin in Hv.
    apply bind_inv in Hv as (i' & c1 & Hi & Hv).
    assert (c1 = c) by (eapply Hsame; exact Hi). subst c1.
    apply bind_inv in Hv as (cond' & c2 & Hc & Hv).
    assert (c2 = c) by (eapply Hopt; exact Hc). subst c2.
    apply bind_inv in Hv as (it' & c3 & Hit & Hv).
    assert (c3 = c) by (eapply Hopt; exact Hit). subst c3.
    apply bind_inv in Hv as (b' & c4 & Hb & Hv). injection Hv as <- _.
    change (noBareReturnBody i' &&
            negb (IsReturnStmnt (bodyAfterVisit true ast2 b')) &&
            noBareReturnBody (bodyAfterVisit true ast2 b') = true)%bool.
    rewrite (IHast1 _ _ _ Hin Hi). cbn [andb].
    apply bodyAfterVisit_no_bare_return; [eapply Hret, Hb|eapply IHast2; eassumption].
  - cbn [VisitStmnt] in Hv. rewrite bind_gets, Hin in Hv.
    apply bind_inv in Hv as (cond' & c2 & Hc & Hv).
    assert (c2 = c) by (eapply Hexpr; exact Hc). subst c2.
    apply bind_inv in Hv as (b' & c4 & Hb & Hv). injection Hv as <- _.
    change (negb (IsReturnStmnt (bodyAfterVisit true ast b')) &&
            noBareReturnBody (bodyAfterVisit true ast b') = true)%bool.
    apply bodyAfterVisit_no_bare_return; [eapply Hret, Hb|eapply IHast; eassumption].
  - cbn [VisitStmnt] in Hv. rewrite bind_gets, Hin in Hv.
    apply bind_inv in Hv as (b' & c4 & Hb & Hv).
    apply bind_inv in Hv as (cond' & c2 & Hc & Hv). injection Hv as <- _.
    change (negb (IsReturnStmnt (bodyAfterVisit true ast b')) &&
            noBareReturnBody (bodyAfterVisit true ast b') = true)%bool.
    apply bodyAfterVisit_no_bare_return; [eapply Hret, Hb|eapply IHast; eassumption].
  - cbn [VisitStmnt] in Hv. rewrite bind_gets, Hin in Hv.
    apply bind_inv in Hv as (cond' & c2 & Hc & Hv).
    assert (c2 = c) by (eapply Hexpr; exact Hc). subst c2.
    apply bind_inv in Hv as (b' & c4 & Hb & Hv).
    assert (c4 = c) by (eapply Hsame; exact Hb). subst c4.
    apply bind_inv in Hv as (els' & c5 & He & Hv). injection Hv as <- _.
    change (negb (IsReturnStmnt (bodyAfterVisit true ast b')) &&
            noBareReturnBody (bodyAfterVisit true ast b') &&
            match els' with
            | Some e => noBareReturnBody_else e
            | None => true
            end = true)%bool.
    rewrite bodyAfterVisit_no_bare_return;
      [|eapply Hret, Hb|eapply IHast; eassumption].
    cbn [andb]. destruct els as [e|].
    + apply bind_inv in He as (e' & c6 & He & Hv). injection Hv as <- _.
      eapply H; eassumption.
    + now injection He as <- _.
  - cbn [VisitStmnt] in Hv. apply bind_inv in Hv as (? & ? & _ & Hv).
    now injection Hv as <- _.
  - cbn [VisitStmnt] in Hv. apply bind_inv in Hv as (? & ? & _ & Hv).
    now injection Hv as <- _.
  - cbn [VisitStmnt] in Hv. apply bind_inv in Hv as (? & ? & _ & Hv).
    now injection Hv as <- _.
  - cbn [VisitStmnt] in Hv. apply bind_inv in Hv as (? & ? & _ & Hv).
    now injection Hv as <- _.
  - cbn [VisitElseStmnt] in Hv. rewrite bind_gets, Hin in Hv.
    apply bind_inv in Hv as (b' & c4 & Hb & Hv). injection Hv as <- _.
    change (negb (IsReturnStmnt (bodyAfterVisit true ast b')) &&
            noBareReturnBody (bodyAfterVisit true ast b') = true)%bool.
    apply bodyAfterVisit_no_bare_return; [eapply Hret, Hb|eapply IHast; eassumption].
  - cbn [VisitCodeBlock] in Hv. apply bind_inv in Hv as (l' & c1 & Hl & Hv).
    injection Hv as <- _.
    apply (mapM_same_converter aborted) in Hl as [_ HF].
    2: { apply Forall_forall. intros; apply VisitStmnt_behaves. }
    change (forallb noBareReturnBody l' = true).
    clear - H HF Hin. induction HF as [|x x' l l' Hx _ IH]; [reflexivity|].
    inversion H as [|? ? Hp Hrest]; subst. simpl.
    rewrite (Hp _ _ _ Hin Hx). now apply IH.
Qed.

(** X6.  Inside the entry point the whole statement is normalised, not only
    its top: when the visit of a statement returns and the converter is
    inside the entry point, no for loop, while loop, do-while loop, if or
    else statement anywhere in the result has a return statement as its
    body. *)
Theorem VisitStmnt_no_bare_return_in_entry_point
        (ast ast' : Stmnt) (c c' : GLSLConverter) :
  isInsideEntryPoint_ c = true ->
  visitStmnt ast c = Returned ast' c' ->
  noBareReturnBody ast' = true.
Proof. apply VisitStmnt_no_bare_return. Qed.

(** *** Variable identifiers *)

(** X7.  The visit of a variable identifier only ever drops segments.  It
    always returns, it does not touch the converter, the segments of the
    chain it returns are segments of the chain it got, in their order,
    with their identifiers and symbol references as they were (an
    identifier is never given the mangling prefix here), and the last
    segment is always kept.  When the head refers to a variable of a
    structure that must be resolved, exactly the head is dropped. *)
Theorem VisitVarIdent_only_drops_segments (ast : VarIdent) (c : GLSLConverter) :
  exists r,
    visitVarIdent ast c = Returned r c /\
    Subsequence (segments r) (segments ast) /\
    vi_last r = vi_last ast /\
    (refersToResolvedStruct (MustResolveStructForTarget (shaderTarget_ c)) ast = true ->
     vi_next ast = Some r /\ segments ast = seg_of ast :: segments r) /\
    (refersToResolvedStruct (MustResolveStructForTarget (shaderTarget_ c)) ast = false ->
     refersToKeptStruct (MustResolveStructForTarget (shaderTarget_ c)) ast = false ->
     r = ast).
Proof.
  unfold VisitVarIdent, refersToResolvedStruct, refersToKeptStruct, MustResolveStruct.
  destruct ast as [i s nx]. cbn [vi_next vi_symbolRef].
  destruct nx as [n|]; [|exists (mkVarIdent i s None); repeat split;
                          try apply Subsequence_refl; discriminate].
  destruct s as [[d|]|];
    try (eexists; repeat split; try apply Subsequence_refl; discriminate).
  cbn [As_VarDecl].
  destruct (ref_declType d) as [| | | |sd| |];
    try (eexists; repeat split; try apply Subsequence_refl; discriminate).
  cbn [TD.AsStruct].
  destruct (MustResolveStructForTarget (shaderTarget_ c) sd).
  - exists n. unfold PopFront. cbn [vi_next]. split; [reflexivity|].
    split; [rewrite segments_next; apply Subsequence_skip, Subsequence_refl|].
    split; [reflexivity|]. split; [|discriminate].
    intros _. split; reflexivity.
  - eexists. split; [reflexivity|]. unfold MakeVarIdentWithSystemSemanticLocal.
    destruct (findSystemSemantic _).
    + destruct (removeLeading_segments
                  (mkVarIdent i (Some (SymVarDecl d)) (Some n))) as [Hs Hl].
      split; [exact Hs|]. split; [exact Hl|]. split; discriminate.
    + split; [apply Subsequence_refl|]. split; [reflexivity|]. split; discriminate.
Qed.

(** X8.  [MakeVarIdentWithSystemSemanticLocal] when the first segment that
    refers to a system value lies two or more links behind the head: the
    head is dropped, and the chain returned starts with the segment that
    followed the head, which refers to no system value.  The system-value
    segment becomes the head only when it directly follows the head. *)
Theorem VisitVarIdent_distant_system_value (ast : VarIdent) (c : GLSLConverter) (k : nat) :
  refersToKeptStruct (MustResolveStructForTarget (shaderTarget_ c)) ast = true ->
  firstSystemValue ast = Some (S (S k)) ->
  exists r n,
    vi_next ast = Some n /\
    visitVarIdent ast c = Returned r c /\
    seg_of r = seg_of n /\
    HasVarDeclOfVarIdentSystemSemantic r = false.
Proof.
  intros Happ Hk.
  rewrite (VisitVarIdent_kept_struct _ _ _ Happ).
  unfold MakeVarIdentWithSystemSemanticLocal.
  rewrite findSystemSemantic_firstSystemValue, Hk.
  destruct (firstSystemValue_two _ _ Hk) as (i & s & i1 & s1 & nx & -> & H0 & H1).
  cbn [removeLeading]. rewrite H0.
  eexists. exists (mkVarIdent i1 s1 nx). split; [reflexivity|].
  split; [reflexivity|]. split; [reflexivity|]. exact H1.
Qed.

(** *** Literals *)

Lemma VisitLiteralExpr_normal (a : SourceArea) (dt : DataType.t) (v : string) :
  exists dt' v',
    VisitLiteralExpr a dt v = LiteralExpr a dt' v' /\
    endsInHalfSuffix v' = false /\
    String.length v' = String.length v.
Proof.
  unfold VisitLiteralExpr, endsInHalfSuffix.
  destruct (empty v) eqn:Ee; cbn [negb].
  - exists dt, v. destruct v; [now repeat split|discriminate].
  - destruct (back v) as [ch|] eqn:Eb.
    + destruct (Ascii.eqb ch "h" || Ascii.eqb ch "H")%bool eqn:Et.
      * exists DataType.Float, (set_back "f" v). split; [reflexivity|].
        rewrite (back_set_back _ _ Ee). split; [reflexivity|apply length_set_back].
      * exists dt, v. rewrite Eb, Et. now repeat split.
    + exists dt, v. rewrite Eb. now repeat split.
Qed.

Lemma VisitLiteralExpr_fixed (a : SourceArea) (dt : DataType.t) (v : string) :
  endsInHalfSuffix v = false -> VisitLiteralExpr a dt v = LiteralExpr a dt v.
Proof.
  unfold VisitLiteralExpr, endsInHalfSuffix. intros H.
  destruct (empty v); cbn [negb]; [reflexivity|].
  destruct (back v); [now rewrite H|reflexivity].
Qed.

(** X9.  The literal rule is a normalisation: the spelling it returns has
    the length of the one it got and no half-precision suffix, the area of
    the node is kept, and visiting the literal a second time changes
    nothing. *)
Theorem VisitLiteralExpr_idempotent (a : SourceArea) (dt : DataType.t) (v : string)
        (c : GLSLConverter) :
  exists dt' v',
    visitExpr (LiteralExpr a dt v) c = Returned (LiteralExpr a dt' v') c /\
    String.length v' = String.length v /\
    endsInHalfSuffix v' = false /\
    visitExpr (LiteralExpr a dt' v') c = Returned (LiteralExpr a dt' v') c.
Proof.
  destruct (VisitLiteralExpr_normal a dt v) as (dt' & v' & Hv & He & Hl).
  exists dt', v'. cbn [VisitExpr]. unfold ret. rewrite Hv.
  split; [reflexivity|]. split; [exact Hl|]. split; [exact He|].
  now rewrite (VisitLiteralExpr_fixed _ _ _ He).
Qed.

(** *** The expression after the visit *)

Lemma VisitExpr_IsUnaryExpr (e e' : Expr) c c' :
  visitExpr e c = Returned e' c' -> IsUnaryExpr e' = IsUnaryExpr e.
Proof.
  destruct e; cbn [VisitExpr]; intros H.
  - destruct (VisitLiteralExpr_normal area dataType value) as (dt' & v' & Hv & _).
    unfold ret in H. rewrite Hv in H. now injection H as <- _.
  - apply bind_inv in H as (? & ? & _ & H). apply bind_inv in H as (? & ? & _ & H).
    now injection H as <- _.
  - apply bind_inv in H as (? & ? & _ & H). now injection H as <- _.
  - apply bind_inv in H as (? & ? & _ & H). now injection H as <- _.
  - apply bind_inv in H as (? & ? & _ & H). now injection H as <- _.
  - apply bind_inv in H as (? & ? & _ & H). now injection H as <- _.
  - apply bind_inv in H as (? & ? & _ & H). apply bind_inv in H as ([x'|] & ? & _ & H);
      now injection H as <- _.
Qed.

Lemma mapM_Forall_result {A} (f : A -> M A) (P : A -> Prop) (l l' : list A) c c' :
  Forall (fun x => forall c x' c', f x c = Returned x' c' -> P x') l ->
  mapM f l c = Returned l' c' ->
  Forall P l'.
Proof.
  intros Hl. revert c l' c'. induction Hl as [|x r Hx _ IH]; intros c l' c' H; simpl in H.
  - injection H as <- _. constructor.
  - apply bind_inv in H as (x' & c1 & Hfx & H).
    apply bind_inv in H as (r' & c2 & Hr & H). injection H as <- _.
    constructor; [eapply Hx, Hfx|eapply IH, Hr].
Qed.

Lemma Forall_EraseIf {A} (pred : A -> bool) (P : A -> Prop) (l : list A) :
  Forall P l -> Forall P (EraseIf pred l).
Proof.
  intros H. apply Forall_forall. intros x Hx. apply EraseIf_In in Hx as [Hx _].
  revert x Hx. now apply Forall_forall.
Qed.

Lemma forallb_Forall {A} (b : A -> bool) (l : list A) :
  forallb b l = true <-> Forall (fun x => b x = true) l.
Proof. rewrite forallb_forall, Forall_forall. reflexivity. Qed.

Section NodeProperty.

(** A property of nodes that the rebuilding of every node establishes: it
    holds of a literal without the half suffix, of a unary expression
    whose operand is not unary, of a call that is not tagged [Saturate],
    and of every other node. *)
Variable P : Expr -> bool.
Hypothesis P_literal : forall a dt v, endsInHalfSuffix v = false -> P (LiteralExpr a dt v) = true.
Hypothesis P_binary : forall a l op r, P (BinaryExpr a l op r) = true.
Hypothesis P_unary : forall a op x, IsUnaryExpr x = false -> P (UnaryExpr a op x) = true.
Hypothesis P_bracket : forall a x, P (BracketExpr a x) = true.
Hypothesis P_cast : forall a t x, P (CastExpr a t x) = true.
Hypothesis P_call : forall a a' name intr args,
  intr <> Intrinsic.Saturate -> P (FunctionCallExpr a (mkFunctionCall a' name intr args)) = true.
Hypothesis P_varAccess : forall a vi op ae, P (VarAccessExpr a vi op ae) = true.

Lemma allExpr_ConvertExprIfCastRequired (e : Expr) (target : TypeDenoter) :
  allExpr P e = true -> allExpr P (ConvertExprIfCastRequired GetTypeDenoter e target) = true.
Proof.
  intros H. unfold ConvertExprIfCastRequired, MakeBaseTypeCastExpr.
  destruct (MustCastExprToDataType _ _); [|exact H].
  cbn [allExpr]. now rewrite P_cast, H.
Qed.

Lemma allExpr_MakeLiteralCastExpr (td : TypeDenoter) (dt : DataType.t) (v : string) :
  endsInHalfSuffix v = false -> allExpr P (MakeLiteralCastExpr td dt v) = true.
Proof.
  intros H. unfold MakeLiteralCastExpr. cbn [allExpr].
  now rewrite P_cast, P_literal.
Qed.

Lemma VisitExpr_allExpr (e : Expr) :
  forall c e' c', visitExpr e c = Returned e' c' -> allExpr P e' = true.
Proof.
  induction e using Expr_tree_ind
    with (Q := fun call => forall c call' c',
                 visitFunctionCall call c = Returned call' c' ->
                 fc_intrinsic call' <> Intrinsic.Saturate /\
                 forallb (allExpr P) (fc_arguments call') = true);
    intros cv e' cv' Hv.
  - cbn [VisitExpr] in Hv.
    destruct (VisitLiteralExpr_normal a dt v) as (dt' & v' & Hl & He & _).
    unfold ret in Hv. rewrite Hl in Hv. injection Hv as <- _.
    cbn [allExpr]. now rewrite P_literal.
  - cbn [VisitExpr] in Hv.
    apply bind_inv in Hv as (l' & c1 & Hl & Hv).
    apply bind_inv in Hv as (r' & c2 & Hr & Hv). injection Hv as <- _.
    cbn [allExpr]. rewrite P_binary, (IHe1 _ _ _ Hl).
    rewrite allExpr_ConvertExprIfCastRequired; [reflexivity|eapply IHe2, Hr].
  - cbn [VisitExpr] in Hv.
    apply bind_inv in Hv as (x' & c1 & Hx & Hv). injection Hv as <- _.
    assert (Hx' := IHe _ _ _ Hx).
    destruct (IsUnaryExpr e) eqn:Eu.
    + cbn [allExpr]. rewrite P_unary by reflexivity. now rewrite P_bracket, Hx'.
    + cbn [allExpr]. rewrite P_unary; [now rewrite Hx'|].
      now rewrite (VisitExpr_IsUnaryExpr _ _ _ _ Hx).
  - cbn [VisitExpr] in Hv.
    apply bind_inv in Hv as (x' & c1 & Hx & Hv). injection Hv as <- _.
    cbn [allExpr]. now rewrite P_bracket, (IHe _ _ _ Hx).
  - cbn [VisitExpr] in Hv.
    apply bind_inv in Hv as (x' & c1 & Hx & Hv). injection Hv as <- _.
    cbn [allExpr]. now rewrite P_cast, (IHe _ _ _ Hx).
  - cbn [VisitExpr] in Hv.
    apply bind_inv in Hv as (call' & c1 & Hc & Hv). injection Hv as <- _.
    destruct (IHe _ _ _ Hc) as [Hi Ha]. destruct call' as [a' name intr args].
    cbn [allExpr]. cbn [fc_intrinsic fc_arguments] in Hi, Ha.
    now rewrite P_call, Ha.
  - cbn [VisitExpr] in Hv.
    apply bind_inv in Hv as (vi' & c1 & _ & Hv).
    apply bind_inv in Hv as (ae' & c2 & Hae & Hv).
    destruct ae as [x|].
    + apply bind_inv in Hae as (x' & c3 & Hx & Hae). injection Hae as <- _.
      injection Hv as <- _. cbn [allExpr]. rewrite P_varAccess.
      apply allExpr_ConvertExprIfCastRequired. eapply H, Hx.
    + injection Hae as <- _. injection Hv as <- _. cbn [allExpr].
      now rewrite P_varAccess.
  - assert (HF : Forall (fun x => forall c x' c',
                           visitExpr x c = Returned x' c' -> allExpr P x' = true) args)
      by exact H.
    cbn [VisitFunctionCall] in Hv. destruct intr.
    + apply bind_inv in Hv as (args' & c1 & Ha & Hv). injection Hv as <- _.
      rewrite eraseThenVisit_EraseIf in Ha.
      split; [discriminate|]. cbn [fc_arguments]. apply forallb_Forall.
      eapply mapM_Forall_result; [|exact Ha]. now apply Forall_EraseIf.
    + destruct args as [|x [|y r]]; try discriminate Hv.
      destruct (TD.IsBase _); [|discriminate Hv].
      apply bind_inv in Hv as (x' & c1 & Hx & Hv). injection Hv as <- _.
      split; [discriminate|]. cbn [fc_arguments forallb].
      inversion HF as [|? ? Hx0 _]; subst. rewrite (Hx0 _ _ _ Hx).
      now rewrite !allExpr_MakeLiteralCastExpr.
    + apply bind_inv in Hv as (args' & c1 & Ha & Hv). injection Hv as <- _.
      split; [discriminate|]. cbn [fc_arguments]. apply forallb_Forall.
      eapply mapM_Forall_result; [|exact Ha]. exact HF.
    + apply bind_inv in Hv as (args' & c1 & Ha & Hv). injection Hv as <- _.
      split; [discriminate|]. cbn [fc_arguments]. apply forallb_Forall.
      eapply mapM_Forall_result; [|exact Ha]. exact HF.
Qed.

End NodeProperty.

(** X10.  Half-precision literals are normalised throughout: in the
    expression that the visit of an expression returns, no literal at any
    depth has a spelling that ends in [h] or [H]. *)
Theorem VisitExpr_no_half_literal (e e' : Expr) (c c' : GLSLConverter) :
  visitExpr e c = Returned e' c' -> allExpr noHalfLiteral e' = true.
Proof.
  apply (VisitExpr_allExpr noHalfLiteral); try reflexivity.
  intros a dt v H. cbn [noHalfLiteral]. now rewrite H.
Qed.

(** X11.  Unary operators are kept apart throughout: in the expression that
    the visit of an expression returns, no unary expression at any depth
    has a unary expression as its direct operand.  Nothing is dropped for
    it: the visit of a unary expression returns a unary expression with
    the same area and operator, whose operand is the visited operand, put
    into a bracket expression with the area of the unary expression when
    the operand was a unary expression and left bare otherwise; the
    visited operand is unary exactly when the operand was.  So where the
    input had a unary expression as operand of another, both operators are
    still there and a bracket expression stands between the two. *)
Theorem VisitExpr_no_unary_of_unary (e e' : Expr) (c c' : GLSLConverter) :
  visitExpr e c = Returned e' c' ->
  allExpr noUnaryOfUnary e' = true /\
  (forall a op x,
     e = UnaryExpr a op x ->
     exists x',
       visitExpr x c = Returned x' c' /\
       IsUnaryExpr x' = IsUnaryExpr x /\
       e' = UnaryExpr a op (if IsUnaryExpr x then BracketExpr a x' else x')) /\
  (forall a op a2 op2 y,
     e = UnaryExpr a op (UnaryExpr a2 op2 y) ->
     exists y',
       visitExpr y c = Returned y' c' /\
       e' = UnaryExpr a op
              (BracketExpr a
                 (UnaryExpr a2 op2 (if IsUnaryExpr y then BracketExpr a2 y' else y')))).
Proof.
  intros Hv.
  assert (Hone : forall u u' a op x cu,
            visitExpr u c = Returned u' cu ->
            u = UnaryExpr a op x ->
            exists x',
              visitExpr x c = Returned x' cu /\
              u' = UnaryExpr a op (if IsUnaryExpr x then BracketExpr a x' else x')).
  { intros u u' a op x cu Hu ->. cbn [VisitExpr] in Hu.
    apply bind_inv in Hu as (x' & c1 & Hx & Hu). injection Hu as <- <-.
    exists x'. split; [exact Hx|reflexivity]. }
  split; [|split].
  - revert Hv. apply (VisitExpr_allExpr noUnaryOfUnary); try reflexivity.
    intros a op x H. cbn [noUnaryOfUnary]. now rewrite H.
  - intros a op x He. destruct (Hone _ _ _ _ _ _ Hv He) as (x' & Hx & He').
    exists x'. split; [exact Hx|]. split; [|exact He'].
    eapply VisitExpr_IsUnaryExpr, Hx.
  - intros a op a2 op2 y He. destruct (Hone _ _ _ _ _ _ Hv He) as (x' & Hx & He').
    destruct (Hone _ _ _ _ _ _ Hx eq_refl) as (y' & Hy & Hx').
    exists y'. split; [exact Hy|]. rewrite He', Hx'. reflexivity.
Qed.

(** X12.  The saturate intrinsic is lowered throughout: in the expression
    that the visit of an expression returns, no call at any depth is
    tagged [Saturate]. *)
Theorem VisitExpr_no_saturate_call (e e' : Expr) (c c' : GLSLConverter) :
  visitExpr e c = Returned e' c' -> allExpr noSaturateCall e' = true.
Proof.
  apply (VisitExpr_allExpr noSaturateCall); try reflexivity.
  intros a a' name intr args H. cbn [noSaturateCall]. now destruct intr.
Qed.

(** *** When the visit of an expression returns *)

Lemma mapM_returns {A} (f : A -> M A) (b : A -> bool) (l : list A) :
  Forall (fun x => forall c, b x = true -> exists x' c', f x c = Returned x' c') l ->
  forallb b l = true ->
  forall c, exists l' c', mapM f l c = Returned l' c'.
Proof.
  induction 1 as [|x r Hx _ IH]; intros Hb c; simpl.
  - now exists [], c.
  - simpl in Hb. apply andb_true_iff in Hb as [Hbx Hbr].
    destruct (Hx c Hbx) as (x' & c1 & Hfx).
    destruct (IH Hbr c1) as (r' & c2 & Hr).
    exists (x' :: r'), c2. unfold bind. now rewrite Hfx, Hr.
Qed.

Lemma eraseThenVisit_returns {A} (pred : A -> bool) (f : A -> M A) (b : A -> bool)
      (l : list A) :
  Forall (fun x => forall c, b x = true -> exists x' c', f x c = Returned x' c') l ->
  forallb b l = true ->
  forall c, exists l' c', eraseThenVisit pred f l c = Returned l' c'.
Proof.
  induction 1 as [|x r Hx _ IH]; intros Hb c; simpl.
  - now exists [], c.
  - simpl in Hb. apply andb_true_iff in Hb as [Hbx Hbr].
    destruct (pred x); [now apply IH|].
    destruct (Hx c Hbx) as (x' & c1 & Hfx).
    destruct (IH Hbr c1) as (r' & c2 & Hr).
    exists (x' :: r'), c2. unfold bind. now rewrite Hfx, Hr.
Qed.

Lemma bind_returns {A B} (m : M A) (k : A -> M B) c :
  (exists a c1, m c = Returned a c1) ->
  (forall a c1, exists b c2, k a c1 = Returned b c2) ->
  exists b c2, bind m k c = Returned b c2.
Proof.
  intros (a & c1 & Hm) Hk. unfold bind. rewrite Hm. apply Hk.
Qed.

Lemma VisitExpr_returns (e : Expr) :
  forall c, allExpr (saturateCallValid GetTypeDenoter) e = true ->
            exists e' c', visitExpr e c = Returned e' c'.
Proof.
  induction e using Expr_tree_ind
    with (Q := fun call => forall c,
                 (match fc_intrinsic call with
                  | Intrinsic.Saturate =>
                      saturateArgumentsValid GetTypeDenoter (fc_arguments call)
                  | _ => true
                  end) = true ->
                 forallb (allExpr (saturateCallValid GetTypeDenoter)) (fc_arguments call)
                   = true ->
                 exists call' c', visitFunctionCall call c = Returned call' c');
    intros cv Hok.
  - cbn [VisitExpr]. now eexists _, _.
  - cbn [allExpr] in Hok. cbn [saturateCallValid andb] in Hok.
    apply andb_true_iff in Hok as [Hl Hr].
    destruct (IHe1 cv Hl) as (l' & c1 & H1). destruct (IHe2 c1 Hr) as (r' & c2 & H2).
    cbn [VisitExpr]. unfold bind. rewrite H1, H2. now eexists _, _.
  - cbn [allExpr saturateCallValid andb] in Hok.
    destruct (IHe cv Hok) as (x' & c1 & H1).
    cbn [VisitExpr]. unfold bind. rewrite H1. now eexists _, _.
  - cbn [allExpr saturateCallValid andb] in Hok.
    destruct (IHe cv Hok) as (x' & c1 & H1).
    cbn [VisitExpr]. unfold bind. rewrite H1. now eexists _, _.
  - cbn [allExpr saturateCallValid andb] in Hok.
    destruct (IHe cv Hok) as (x' & c1 & H1).
    cbn [VisitExpr]. unfold bind. rewrite H1. now eexists _, _.
  - assert (Hc : exists call' c1, visitFunctionCall c cv = Returned call' c1).
    { apply IHe; destruct c as [a' name intr args]; cbn [allExpr] in Hok;
        apply andb_true_iff in Hok as [Hs Ha]; cbn [fc_intrinsic fc_arguments].
      - cbn [saturateCallValid] in Hs. now destruct intr.
      - exact Ha. }
    destruct Hc as (call' & c1 & H1).
    change (visitExpr (FunctionCallExpr a c) cv)
      with (bind (visitFunctionCall c) (fun call' => ret (FunctionCallExpr a call')) cv).
    rewrite (bind_Returned _ _ _ _ _ H1). now eexists _, _.
  - cbn [VisitExpr]. unfold bind.
    destruct (visitVarIdent vi cv) as [vi' c1|err c1] eqn:Evi.
    2: { exfalso. clear - Evi. unfold VisitVarIdent in Evi.
         destruct (vi_next vi), (vi_symbolRef vi) as [[d|]|]; simpl in Evi;
           try discriminate.
         destruct (TD.AsStruct _); [destruct (MustResolveStruct _ _ _)|];
           discriminate. }
    destruct ae as [x|].
    + cbn [allExpr saturateCallValid andb] in Hok.
      destruct (H c1 Hok) as (x' & c2 & H1). rewrite H1. now eexists _, _.
    + now eexists _, _.
  - cbn [fc_intrinsic fc_arguments] in *. intros Ha.
    assert (HF : Forall (fun x => forall c,
                           allExpr (saturateCallValid GetTypeDenoter) x = true ->
                           exists x' c', visitExpr x c = Returned x' c') args)
      by exact H.
    cbn [VisitFunctionCall]. destruct intr.
    + apply bind_returns; [|intros; now eexists _, _].
      exact (eraseThenVisit_returns _ _ _ _ HF Ha cv).
    + destruct args as [|x [|y r]]; try discriminate Hok.
      cbn [saturateArgumentsValid] in Hok. rewrite Hok.
      cbn [forallb] in Ha. rewrite andb_true_r in Ha.
      inversion HF as [|? ? Hx _]; subst.
      apply bind_returns; [|intros; now eexists _, _].
      exact (Hx cv Ha).
    + apply bind_returns; [|intros; now eexists _, _].
      exact (mapM_returns _ _ _ HF Ha cv).
    + apply bind_returns; [|intros; now eexists _, _].
      exact (mapM_returns _ _ _ HF Ha cv).
Qed.

(** X13.  The visit of an expression returns whenever every call tagged
    [Saturate] in it, at any depth, has exactly one argument whose
    resolved type denoter, as it is before the visit, is a base type; in
    particular it returns on every expression without a saturate call.  So
    when the visit throws, the expression holds a saturate call that the
    rule refuses. *)
Theorem VisitExpr_returns_on_valid_saturates (e : Expr) (c : GLSLConverter) :
  (allExpr (saturateCallValid GetTypeDenoter) e = true ->
   succeeded (visitExpr e c) = true) /\
  (allExpr noSaturateCall e = true -> succeeded (visitExpr e c) = true) /\
  (succeeded (visitExpr e c) = false ->
   allExpr (saturateCallValid GetTypeDenoter) e = false).
Proof.
  assert (H1 : allExpr (saturateCallValid GetTypeDenoter) e = true ->
               succeeded (visitExpr e c) = true).
  { intros H. destruct (VisitExpr_returns e c H) as (e' & c' & ->). reflexivity. }
  assert (Himp : forall x, allExpr noSaturateCall x = true ->
                           allExpr (saturateCallValid GetTypeDenoter) x = true).
  { induction x using Expr_tree_ind
      with (Q := fun call =>
                   forallb (allExpr noSaturateCall) (fc_arguments call) = true ->
                   forallb (allExpr (saturateCallValid GetTypeDenoter))
                           (fc_arguments call) = true);
      cbn [allExpr fc_arguments]; intros Hx.
    - reflexivity.
    - cbn [noSaturateCall saturateCallValid andb] in *.
      apply andb_true_iff in Hx as [Hl Hr]. now rewrite IHx1, IHx2.
    - cbn [noSaturateCall saturateCallValid andb] in *. auto.
    - cbn [noSaturateCall saturateCallValid andb] in *. auto.
    - cbn [noSaturateCall saturateCallValid andb] in *. auto.
    - destruct c0 as [a' name intr args]. cbn [fc_arguments] in IHx.
      apply andb_true_iff in Hx as [Hs Ha]. cbn [noSaturateCall] in Hs.
      rewrite (IHx Ha), andb_true_r. cbn [saturateCallValid].
      destruct intr; try reflexivity. discriminate Hs.
    - cbn [noSaturateCall saturateCallValid andb] in *.
      destruct ae; [now apply H|reflexivity].
    - apply forallb_Forall in Hx. apply forallb_Forall.
      clear - H Hx. induction H as [|x r Hp _ IH]; [constructor|].
      inversion Hx; subst. constructor; [now apply Hp|now apply IH]. }
  split; [exact H1|]. split; [intros H; now apply H1, Himp|].
  intros Hf. destruct (allExpr _ e); [|reflexivity].
  rewrite H1 in Hf by reflexivity. discriminate Hf.
Qed.

End FurtherProperties.


(** ** The further properties on the sample trees *)

(** [pos] is reserved, yet both members called [pos] of [Light] and of the
    structure nested in it keep their names. *)
Lemma VisitStructDecl_keeps_member_names_witness :
  In "pos"%string (reservedVarIdents_ Sample.inPass) /\
  exists ast',
    VisitStructDecl Sample.mustResolve Sample.getTypeDenoter Sample.varDeclType
      Sample.lightDecl Sample.inPass = Returned ast' Sample.inPass /\
    sd_idents ast' = ["pos"; "pos"; "inner"]%string.
Proof.
  split; [now left|].
  exists Sample.lightDecl. split; [reflexivity|].
  apply (VisitStructDecl_keeps_member_names Sample.mustResolve Sample.getTypeDenoter
           Sample.varDeclType Sample.lightDecl Sample.lightDecl
           Sample.inPass Sample.inPass).
  reflexivity.
Defined.

(** [while (u) if (u) return; else return;] has two bare return bodies;
    after the visit inside the entry point it has none. *)
Lemma VisitStmnt_no_bare_return_in_entry_point_witness :
  noBareReturnBody Sample.nestedReturns = false /\
  exists ast',
    VisitStmnt Sample.mustResolve Sample.getTypeDenoter Sample.varDeclType
      Sample.nestedReturns Sample.inEntryPoint = Returned ast' Sample.inEntryPoint /\
    noBareReturnBody ast' = true.
Proof.
  split; [reflexivity|].
  eexists. split; [reflexivity|].
  apply (VisitStmnt_no_bare_return_in_entry_point Sample.mustResolve
           Sample.getTypeDenoter Sample.varDeclType Sample.nestedReturns _
           Sample.inEntryPoint Sample.inEntryPoint); reflexivity.
Defined.

(** What is returned for [input.a.b.sv] is a subsequence of these four
    segments that ends in [sv]. *)
Lemma VisitVarIdent_only_drops_segments_witness :
  exists r,
    VisitVarIdent Sample.mustResolve Sample.input_a_b_sv newGLSLConverter
      = Returned r newGLSLConverter /\
    Subsequence (segments r) (segments Sample.input_a_b_sv) /\
    vi_last r = ("sv"%string, Some (Sample.systemValue "sv")).
Proof.
  destruct (VisitVarIdent_only_drops_segments Sample.mustResolve Sample.input_a_b_sv
              newGLSLConverter) as (r & Hr & Hsub & Hlast & _).
  exists r. split; [exact Hr|]. split; [exact Hsub|]. exact Hlast.
Defined.

(** [input.a.b.sv]: the system value lies three links behind the head, and
    the chain returned starts with [a]. *)
Lemma VisitVarIdent_distant_system_value_witness :
  firstSystemValue Sample.input_a_b_sv = Some 3 /\
  exists r n,
    vi_next Sample.input_a_b_sv = Some n /\
    vi_ident n = "a"%string /\
    VisitVarIdent Sample.mustResolve Sample.input_a_b_sv newGLSLConverter
      = Returned r newGLSLConverter /\
    seg_of r = seg_of n /\
    HasVarDeclOfVarIdentSystemSemantic r = false.
Proof.
  split; [reflexivity|].
  destruct (VisitVarIdent_distant_system_value Sample.mustResolve Sample.input_a_b_sv
              newGLSLConverter 1 eq_refl eq_refl) as (r & n & Hn & Hr & Hseg & Hsv).
  exists r, n. split; [exact Hn|].
  split; [now injection Hn as <-|].
  split; [exact Hr|]. split; [exact Hseg|exact Hsv].
Defined.

(** [- - saturate(2.5h)]: the literal, the unary operand and the call all
    break the three properties before the visit, none does after it. *)
Lemma VisitExpr_no_half_literal_witness :
  allExpr noHalfLiteral Sample.minusMinusSaturate = false /\
  exists e',
    VisitExpr Sample.mustResolve Sample.getTypeDenoter Sample.minusMinusSaturate
      newGLSLConverter = Returned e' newGLSLConverter /\
    allExpr noHalfLiteral e' = true.
Proof.
  split; [reflexivity|].
  eexists. split; [reflexivity|].
  apply (VisitExpr_no_half_literal Sample.mustResolve Sample.getTypeDenoter
           Sample.minusMinusSaturate _ newGLSLConverter newGLSLConverter).
  reflexivity.
Defined.

(** [- - saturate(2.5h)] becomes [- (- clamp(2.5f, 0, 1))]: both minus
    signs are kept and a bracket stands between them. *)
Lemma VisitExpr_no_unary_of_unary_witness :
  allExpr noUnaryOfUnary Sample.minusMinusSaturate = false /\
  exists e' y',
    VisitExpr Sample.mustResolve Sample.getTypeDenoter Sample.minusMinusSaturate
      newGLSLConverter = Returned e' newGLSLConverter /\
    allExpr noUnaryOfUnary e' = true /\
    VisitExpr Sample.mustResolve Sample.getTypeDenoter
      (FunctionCallExpr 42 (Sample.saturate [LiteralExpr 43 (DataType.Other 0) "2.5h"]))
      newGLSLConverter = Returned y' newGLSLConverter /\
    e' = UnaryExpr 40 0 (BracketExpr 40 (UnaryExpr 41 0 y')).
Proof.
  split; [reflexivity|].
  destruct (VisitExpr Sample.mustResolve Sample.getTypeDenoter Sample.minusMinusSaturate
              newGLSLConverter) as [e' c'|err c'] eqn:Hv; [|discriminate Hv].
  assert (Hc : c' = newGLSLConverter) by (now injection Hv as _ <-).
  subst c'.
  destruct (VisitExpr_no_unary_of_unary Sample.mustResolve Sample.getTypeDenoter
              Sample.minusMinusSaturate e' newGLSLConverter newGLSLConverter Hv)
    as (Hall & _ & Htwo).
  destruct (Htwo 40 0 41 0 _ eq_refl) as (y' & Hy & He).
  exists e', y'. split; [reflexivity|]. split; [exact Hall|].
  split; [exact Hy|exact He].
Defined.

Lemma VisitExpr_no_saturate_call_witness :
  allExpr noSaturateCall Sample.minusMinusSaturate = false /\
  exists e',
    VisitExpr Sample.mustResolve Sample.getTypeDenoter Sample.minusMinusSaturate
      newGLSLConverter = Returned e' newGLSLConverter /\
    allExpr noSaturateCall e' = true.
Proof.
  split; [reflexivity|].
  eexists. split; [reflexivity|].
  apply (VisitExpr_no_saturate_call Sample.mustResolve Sample.getTypeDenoter
           Sample.minusMinusSaturate _ newGLSLConverter newGLSLConverter).
  reflexivity.
Defined.

(** The visit of [- - saturate(2.5h)] returns; the visit of
    [- saturate()] throws, and its saturate call has no argument. *)
Lemma VisitExpr_returns_on_valid_saturates_witness :
  succeeded (VisitExpr Sample.mustResolve Sample.getTypeDenoter
               Sample.minusMinusSaturate newGLSLConverter) = true /\
  succeeded (VisitExpr Sample.mustResolve Sample.getTypeDenoter
               (UnaryExpr 40 0 (FunctionCallExpr 42 (Sample.saturate [])))
               newGLSLConverter) = false /\
  allExpr (saturateCallValid Sample.getTypeDenoter)
          (UnaryExpr 40 0 (FunctionCallExpr 42 (Sample.saturate []))) = false.
Proof.
  split; [|split].
  - destruct (VisitExpr_returns_on_valid_saturates Sample.mustResolve
                Sample.getTypeDenoter Sample.minusMinusSaturate newGLSLConverter)
      as (Hvalid & _ & _).
    apply Hvalid. reflexivity.
  - reflexivity.
  - destruct (VisitExpr_returns_on_valid_saturates Sample.mustResolve
                Sample.getTypeDenoter
                (UnaryExpr 40 0 (FunctionCallExpr 42 (Sample.saturate [])))
                newGLSLConverter)
      as (_ & _ & Hthrown).
    apply Hthrown. reflexivity.
Defined.
